(* ===== verification/_CoqProject ===== *)
-Q . S2P
Prelude.v
Utf8.v
CaseFold.v
Regex.v
Extract.v
Base64.v
Config.v
Json.v
Report.v
Main.v
Dirs.v
Cli.v
LoopMachine.v
SerdeJson.v
