(* ===== verification/Prelude.v ===== *)
(** * anb: a verification development of [src/src/main.rs]

    [anb] ("annotate branches") lists the local git branches, extracts a
    ticket key [PREFIX-digits] from each, asks the issue tracker for the
    ticket's summary and status, and prints one line per ticket,
    optionally only the tickets with a given status.  The whole program is
    the [main] function of [src/src/main.rs] (lines 12-99), a straight
    pipeline:
    - settings: a [config::Config] built from the optional preferences
      file [anb.toml] and the [ANB_*] environment variables (lines 26-36),
      read with [get] (lines 42, 54, 55, 65);
    - branch source: [git branch] through a shell (lines 38-41);
    - identifier extractor: the case-insensitive regex [{prefix}-\d+] and
      [captures_iter] (lines 43-51);
    - tracker client: Basic authentication header (lines 53-63) and one GET
      per identifier, parsed as JSON (lines 67-77);
    - filter and renderer: the [--status] comparison and the output line
      (lines 78-96).

    ** Files, in dependency order
    - [Prelude] (this file): bytes as [list ascii], the [anb_scope]
      notations, the tactics [invc] and [bool_prop], the hint databases
      [anb] and [anb_simpl], generic list lemmas.
    - [Utf8]: the UTF-8 validity check [utf8_valid] of [str::from_utf8],
      [Path::to_str] and [OsString::into_string], and its closure under
      concatenation.
    - [CaseFold]: ASCII digit and letter tests, [to_lowercase] and the
      comparison [eq_ignore_case] of line 79, with the equivalence
      [ci_equiv] ([Equivalence], [RelDecision] and [Proper] instances).
    - [Regex]: the fragment of the [regex] crate the pattern uses: syntax,
      pattern parser and [build], the leftmost-first semantics [ends] (all
      match ends in backtracking priority order), [find_at], and the
      [CaptureMatches] iterator as a state machine ([iter_state],
      [iter_step], [collect]) with the crate's empty-match rule.  Beside
      them, the language of a regex as an inductive relation [in_lang]
      (with [star] for repetition), against which [ends] is proved sound
      and complete ([ends_spec]).
    - [Extract]: [task_name_re] and [extract_task_names] (lines 42-51); the
      direct specification [task_match_len] of one match, the inductive
      [scan] of a whole text (leftmost match, then the rest), and a naive
      reference scanner [naive_extract].
    - [Base64]: [base64::encode] (standard alphabet, padding) and the
      inverse [decode], with the bit arithmetic of the 24-bit groups.
    - [Config]: the [Config] object as a record of sources and cache,
      [merge] and [refresh] as the crate does them (a failed source stays
      in the list), [Environment::collect] for the prefix [ANB], the
      panic of [std::env::vars()] on a variable that is not Unicode
      ([env_unicode]), and [load_config] (lines 26-36); the states
      reachable by merges ([config_reach]) and their invariant.
    - [Json]: [serde_json::Value], [v["key"]] and [as_str]; the two field
      paths of lines 77 and 83/92.
    - [Report]: the filter decision [should_print] and [render_line]
      ([format!("{:20} {} ({})", ..)] with [console] styling), and what a
      terminal shows of a line ([shown]: escape sequences consumed).
    - [Main]: the program.  [Platform] is the interface (a [Class]) to
      everything outside it: preference directory, config file,
      environment, [git branch], HTTP client, JSON parser, terminal
      colours.  [M] is a result-and-trace monad with stdpp's bind
      notation: a run yields [ROk], [RErr] (an error propagated by [?]) or
      [RPanic] (a panic, with its line: an [unwrap], or [std::env::vars()]
      inside the merge of line 35), and the list of
      its events ([Request url], [Print line]) in order.  [prepare] is
      lines 26-66, [process_branch] one iteration of the loop of lines
      67-97, [main] the whole.  All theorems of [Main] hold for every
      [Platform]; [stub] is the scenario of the specification.
    - [Dirs]: the preference directory of lines 27-28 on Linux:
      [home_dir] ([$HOME], else the password database), [preference_dir_of]
      ([$XDG_CONFIG_HOME] when absolute, else [home.join(".config")]),
      [to_str] ([Path::to_str]), and [on_linux e P], the
      [Platform] whose [preference_dir] is computed from the environment
      [e] ([os_env]).
    - [Cli]: the command line: the declarations of lines 13-24
      ([status_arg], the App metadata), [clap]'s [get_matches] for them
      ([cli_parse]), and the process [anb]: the command line first, then
      [main], and the exit status (0, 1 for an [Err], 101 for a panic).
    - [LoopMachine]: the loop of lines 67-97 as a small-step transition
      system [lstep] on [lstate] (identifiers left, events so far, or the
      outcome), with stdpp's [rtc], [nf] and [sn]; [lstep_run] relates it
      to [main].
    - [SerdeJson]: [serde_json::from_str::<Value>] of line 76: whitespace,
      literals, strings with their escapes and surrogate pairs
      ([parse_str], [decode_hex_escape], [encode_utf8]), numbers
      ([parse_number]), arrays and objects ([parse_value], [parse_seq],
      [parse_map], objects built by [BTreeMap] insertion [map_insert]),
      the recursion limit of 128 and the trailing-characters check
      ([from_str]); [with_serde P] plugs it into a [Platform].

    ** What is proved (claim ids C1-C37 of the manifest)
    - Extraction (C1, C5, C26, C27): for a prefix without regex
      metacharacters the regex builds, it matches exactly a case variant of
      the prefix, ['-'] and the whole following run of digits; the list of
      identifiers is exactly the leftmost-first decomposition of the
      [git branch] output, duplicates kept, case preserved, and equals the
      output of a naive scanner that tries a name at every byte.
    - The regex model (C6, C12, C30): [find_at] reports the leftmost word
      of the regex's language and [captures_iter] only words of it; the
      iterator's spans are in bounds, ordered, never overlapping, never an
      empty match at the previous end; it stops within [length text + 2]
      calls.  The reported word is the leftmost one, not the longest: the
      crate's order is leftmost-first ([leftmost_first_not_longest]).
    - The run (C2-C4, C10, C15, C16): the events of a run are, per
      identifier in order, one request and the line when the filter
      passes; filtered output is the unfiltered output restricted to the
      matching statuses; the loop, as a transition system, always stops,
      and every identifier is requested unless an earlier one failed; a
      run that exits normally served every identifier; the setup emits
      nothing, so any request comes after all of it.
    - The command line and the process (C11, C17, C18): the five
      spellings of [--status v] give the value [v]; a repeated option, an
      option without value or a stray argument exit with status 1 before
      anything else; with [--status v] the process prints exactly the
      lines of the plain run whose status is [v] up to case, and exits 0.
    - Errors and panics (C9, C14, C19-C25): a body that cannot be read or
      a request that cannot be sent ends the run after earlier lines were
      printed (no fail-fast report; line 74 panics); a missing status
      panics at line 77; a filtered-out issue without summary is skipped
      silently; a [git branch] that fails is not an error; setup errors
      come in program order; a malformed preferences file panics at line
      36; an environment variable that is not Unicode panics at line 35;
      the header [unwrap] of line 59 never panics.
    - Settings (C8, C28): the cache of every reachable [Config] is the
      settings of the longest prefix of its sources that collect, and a
      failed refresh makes every later merge fail; with a parsable file
      and a Unicode environment the settings load without events and the
      environment overrides the file.
    - Header and encoding (C7, C13, C32): [decode (encode s) = Some s]; the
      Authorization value is ["Basic "] and a Base64 text of
      [username:password], and determines that string; the encoding has
      four alphabet or padding characters per three bytes, rounded up.
    - Filter and rendering (C29, C31, C33): lines pad identifiers to 20
      columns and never truncate them; colours only add escape sequences,
      so a coloured line shows as the plain one; on ASCII text,
      lower-casing then comparing is the byte-wise ASCII case-insensitive
      comparison.
    - Preference directory (C34, C35): on Linux a preference directory
      that is not valid UTF-8 panics at line 28 before anything else; when
      the environment's paths are valid UTF-8 that panic cannot happen
      (valid UTF-8 is closed under concatenation, [utf8_valid_app]).
    - JSON (C36, C37): [from_str] reads back every value it can produce
      from its compact [serde_json] text, up to 127 levels of nesting;
      a response nested 128 levels deep is a parse error, whatever
      follows, and ends the iteration right after its request.

    ** Fuel and bounds
    [star_ends] gets [length s] iterations: each one consumes at least one
    byte.  [parse_items] gets [length p]: each item consumes at least one
    byte.  [captures_iter] runs [length text + 2] calls of [next]: each call
    that does not finish moves [last_end] forward, and [next] stops once
    [last_end > length text] ([collect_fuel], C30).  [naive_scan] gets
    [length s]: each step consumes at least one byte.  [star_ends] with
    fuel [length s] lists every end of the repetition ([star_ends_spec]).
    The loop machine needs no fuel: [lmeasure] (one more than the number
    of identifiers left) decreases at every step ([lstep_sn]).
    [from_str] gets fuel [2 * length s + 1]: each call of [parse_value]
    inside an array or object comes after at least one byte, so more fuel
    gives the same result ([parse_fuel], [from_str_fuel]).

    ** Not modelled, and why
    - Text is bytes and case folding is ASCII only.  Rust's
      [to_lowercase], the regex's Unicode case folding (e.g. the Kelvin
      sign matches [k]) and the Unicode [\d] class differ from the model on
      non-ASCII input only; branch listings and ticket keys are ASCII in
      practice.  [stdout_str()] decodes the output of [git branch] lossily
      (invalid UTF-8 becomes U+FFFD); the model keeps the bytes, which is
      the same for valid UTF-8.
    - The regex fragment covers literals, [\d] and [+]: a prefix containing
      a metacharacter makes [build] return [None], which the model reports
      as the panic of line 46; the real crate may accept such a pattern
      with another meaning.  The theorems on extraction assume
      [literal_prefix].
    - [clap]'s parser is modelled for this application's arguments only,
      from its documentation; the layout of the help screen is not.  The
      TOML parser is a library: the file's pairs are an input.  HTTP is
      one response per URL ([Platform.http_get]): [reqwest] is I/O, with
      nothing of its own to model beyond send, text and the builder
      result.
    - [serde_json] keeps numbers as their text: the numeric value and its
      range ([1e400] is an error of the crate) are not modelled; the
      program never reads a number.
    - [directories::BaseDirs] is modelled for Linux only; macOS and
      Windows take their folders from system calls.  The password database
      entry is an input ([passwd_home]).

    ** Not a separate model
    The setup of lines 26-66 is straight-line code with early exits; its
    order is proved on [prepare] itself (C16, C22), so no transition
    system is given for it beside the one of the loop. *)

From Stdlib Require Export Ascii String.
From stdpp Require Export base list strings sets.

(** ** Text as bytes

    Rust strings are UTF-8 byte sequences.  The development works on the
    bytes, as [list ascii] (an [ascii] is eight bits). *)
Abbreviation bytes := (list ascii).

Declare Scope anb_scope.
Delimit Scope anb_scope with anb.
Open Scope anb_scope.

(** A string literal seen as its bytes. *)
Notation "⟪ s ⟫" := (list_ascii_of_string s%string) (format "⟪ s ⟫") : anb_scope.

(** ** Tactics and hint database *)

Create HintDb anb discriminated.
Create Rewrite HintDb anb_simpl.

Ltac invc H := inversion H; subst; clear H.

(** Turn a boolean test from the code into the proposition it decides. *)
Ltac bool_prop :=
  repeat match goal with
  | H : (_ && _)%bool = true |- _ => apply andb_true_iff in H as [? ?]
  | H : (_ || _)%bool = false |- _ => apply orb_false_iff in H as [? ?]
  | H : Nat.leb _ _ = true |- _ => apply Nat.leb_le in H
  | H : Nat.leb _ _ = false |- _ => apply Nat.leb_gt in H
  | H : Nat.eqb _ _ = true |- _ => apply Nat.eqb_eq in H
  | H : Nat.eqb _ _ = false |- _ => apply Nat.eqb_neq in H
  | H : bool_decide _ = true |- _ => apply bool_decide_eq_true in H
  | H : bool_decide _ = false |- _ => apply bool_decide_eq_false in H
  end.

(** ** Generic lemmas on lists *)

Lemma drop_cons_S {A} (x : A) (l : list A) n : drop (S n) (x :: l) = drop n l.
Proof. reflexivity. Qed.



#[export] Hint Rewrite @length_app @length_drop @length_take @drop_0 @take_0 : anb_simpl.
