(* ===== verification/Utf8.v ===== *)
(** * Utf8: the UTF-8 validity check of [str::from_utf8]

    [utf8_valid] is the check [str::from_utf8] (and [Path::to_str],
    [OsString::into_string]) makes: RFC 3629, shortest forms only, no
    surrogates, at most U+10FFFF, with the second-byte ranges of the lead
    bytes E0, ED, F0 and F4.  It is used for the preference directory of
    line 28 ([Dirs]) and for [std::env::vars()], which the environment
    source of line 35 iterates ([Config]).  Valid UTF-8 is closed under
    concatenation ([utf8_valid_app]). *)

From S2P Require Import Prelude.

Definition in_range (lo hi : nat) (c : ascii) : bool :=
  (lo <=? nat_of_ascii c) && (nat_of_ascii c <=? hi).

(** A continuation byte [10xxxxxx]. *)
Definition cont (c : ascii) : bool := in_range 128 191 c.

(** [str::from_utf8(bytes).is_ok()]. *)
Fixpoint utf8_valid (s : bytes) : bool :=
  match s with
  | [] => true
  | c :: r =>
      let n := nat_of_ascii c in
      if in_range 0 127 c then utf8_valid r
      else if in_range 194 223 c then
        match r with c1 :: r1 => cont c1 && utf8_valid r1 | [] => false end
      else if in_range 224 239 c then
        match r with
        | c1 :: c2 :: r2 =>
            in_range (if n =? 224 then 160 else 128) (if n =? 237 then 159 else 191) c1 &&
            cont c2 && utf8_valid r2
        | _ => false
        end
      else if in_range 240 244 c then
        match r with
        | c1 :: c2 :: c3 :: r3 =>
            in_range (if n =? 240 then 144 else 128) (if n =? 244 then 143 else 191) c1 &&
            cont c2 && cont c3 && utf8_valid r3
        | _ => false
        end
      else false
  end.

(** ** Lemmas *)

Lemma utf8_valid_cons_ascii c r : nat_of_ascii c < 128 → utf8_valid (c :: r) = utf8_valid r.
Proof.
  intros Hc. cbn [utf8_valid]. unfold in_range at 1.
  replace (nat_of_ascii c <=? 127) with true by (symmetry; apply Nat.leb_le; lia). done.
Qed.

(** Every prefix of a valid text that ends at a character boundary
    leaves a valid rest: validity of a concatenation. *)
Lemma utf8_valid_app s t : utf8_valid s = true → utf8_valid t = true → utf8_valid (s ++ t) = true.
Proof.
  intros Hs Ht. induction s as [s IH] using (induction_ltof1 _ (@length _)).
  destruct s as [|c r]; [done|]. unfold ltof in IH. cbn [utf8_valid app] in Hs |- *.
  assert (IHr : ∀ k, utf8_valid (drop k r) = true → utf8_valid (drop k r ++ t) = true).
  { intros k Hk. apply IH; [|done]. simpl. rewrite length_drop. lia. }
  destruct (in_range 0 127 c); [by apply (IHr 0)|].
  destruct (in_range 194 223 c).
  { destruct r as [|c1 r1]; [done|]. apply andb_true_iff in Hs as [H1 H2].
    simpl. rewrite H1. by apply (IHr 1). }
  destruct (in_range 224 239 c).
  { destruct r as [|c1 [|c2 r2]]; [done|done|]. apply andb_true_iff in Hs as [H1 H2].
    simpl. rewrite H1. by apply (IHr 2). }
  destruct (in_range 240 244 c); [|done].
  destruct r as [|c1 [|c2 [|c3 r3]]]; [done|done|done|]. apply andb_true_iff in Hs as [H1 H2].
  simpl. rewrite H1. by apply (IHr 3).
Qed.

Lemma utf8_valid_ascii s : Forall (λ c, nat_of_ascii c < 128) s → utf8_valid s = true.
Proof. induction 1 as [|c s Hc _ IH]; [done|]. by rewrite utf8_valid_cons_ascii. Qed.

