(* ===== verification/CaseFold.v ===== *)
(** * CaseFold: ASCII classification and case folding

    The byte-level character tests the program relies on: the [\d] class
    of the task-name regex, and the lower-casing used both by the regex's
    case-insensitive mode and by the status filter
    ([required_status.to_lowercase() == status.to_lowercase()],
    [src/src/main.rs] line 79).  Only ASCII letters are folded; bytes
    outside ASCII are left unchanged (see the root header for what this
    means for non-ASCII input).  [eq_ignore_ascii_case] is the byte-wise
    comparison the lower-case-then-compare test is proved equal to. *)

From S2P Require Import Prelude.

Definition is_ascii_digit (c : ascii) : bool :=
  let n := nat_of_ascii c in (48 <=? n) && (n <=? 57).

Definition is_ascii_uppercase (c : ascii) : bool :=
  let n := nat_of_ascii c in (65 <=? n) && (n <=? 90).

Definition to_ascii_lowercase (c : ascii) : ascii :=
  if is_ascii_uppercase c then ascii_of_nat (nat_of_ascii c + 32) else c.

(** [str::to_lowercase] on ASCII text. *)
Definition to_lowercase (s : bytes) : bytes := map to_ascii_lowercase s.

(** The comparison of line 79: both sides lower-cased, then compared. *)
Definition eq_ignore_case (a b : bytes) : bool :=
  bool_decide (to_lowercase a = to_lowercase b).

(** Two characters are equal up to case. *)
Definition char_eq_ignore_case (a b : ascii) : bool :=
  bool_decide (to_ascii_lowercase a = to_ascii_lowercase b).

Infix "=ci" := eq_ignore_case (at level 70, no associativity) : anb_scope.

(** The byte-wise comparison [str::eq_ignore_ascii_case]: same length,
    each pair of bytes equal up to ASCII case. *)
Fixpoint eq_ignore_ascii_case (a b : bytes) : bool :=
  match a, b with
  | [], [] => true
  | x :: a', y :: b' => char_eq_ignore_case x y && eq_ignore_ascii_case a' b'
  | _, _ => false
  end.

(** ** Lemmas *)

Lemma is_ascii_uppercase_spec c :
  is_ascii_uppercase c = true ↔ 65 ≤ nat_of_ascii c ≤ 90.
Proof. unfold is_ascii_uppercase. by rewrite andb_true_iff, !Nat.leb_le. Qed.

Lemma is_ascii_digit_spec c : is_ascii_digit c = true ↔ 48 ≤ nat_of_ascii c ≤ 57.
Proof. unfold is_ascii_digit. by rewrite andb_true_iff, !Nat.leb_le. Qed.

(** The numeric effect of lower-casing a byte. *)
Lemma nat_of_to_ascii_lowercase c :
  nat_of_ascii (to_ascii_lowercase c) =
    if is_ascii_uppercase c then nat_of_ascii c + 32 else nat_of_ascii c.
Proof.
  unfold to_ascii_lowercase. destruct (is_ascii_uppercase c) eqn:E; [|done].
  apply is_ascii_uppercase_spec in E. apply nat_ascii_embedding. lia.
Qed.

Ltac ascii_range c :=
  pose proof (nat_of_to_ascii_lowercase c);
  pose proof (is_ascii_uppercase_spec c); pose proof (is_ascii_digit_spec c);
  destruct (is_ascii_uppercase c).

Lemma to_ascii_lowercase_not_upper c : is_ascii_uppercase (to_ascii_lowercase c) = false.
Proof.
  apply not_true_iff_false. rewrite is_ascii_uppercase_spec.
  ascii_range c; intuition lia.
Qed.

Lemma to_ascii_lowercase_id c : is_ascii_uppercase c = false → to_ascii_lowercase c = c.
Proof. unfold to_ascii_lowercase. by intros ->. Qed.

Lemma to_ascii_lowercase_idem c : to_ascii_lowercase (to_ascii_lowercase c) = to_ascii_lowercase c.
Proof. apply to_ascii_lowercase_id, to_ascii_lowercase_not_upper. Qed.



Lemma is_ascii_digit_lowercase c : is_ascii_digit (to_ascii_lowercase c) = is_ascii_digit c.
Proof.
  apply eq_bool_prop_intro. rewrite !Is_true_true, !is_ascii_digit_spec.
  ascii_range c; intuition lia.
Qed.

Lemma to_lowercase_idem s : to_lowercase (to_lowercase s) = to_lowercase s.
Proof.
  unfold to_lowercase. rewrite map_map. apply map_ext, to_ascii_lowercase_idem.
Qed.

Lemma length_to_lowercase s : length (to_lowercase s) = length s.
Proof. apply length_map. Qed.

Lemma to_lowercase_app s t : to_lowercase (s ++ t) = to_lowercase s ++ to_lowercase t.
Proof. apply map_app. Qed.

#[export] Hint Rewrite to_ascii_lowercase_idem to_lowercase_idem length_to_lowercase
  to_lowercase_app is_ascii_digit_lowercase : anb_simpl.

Lemma eq_ignore_case_spec a b : eq_ignore_case a b = true ↔ to_lowercase a = to_lowercase b.
Proof. unfold eq_ignore_case. apply bool_decide_eq_true. Qed.

Lemma char_eq_ignore_case_spec a b :
  char_eq_ignore_case a b = true ↔ to_ascii_lowercase a = to_ascii_lowercase b.
Proof. unfold char_eq_ignore_case. apply bool_decide_eq_true. Qed.

(** Equality up to case, as a relation, is an equivalence: the filter
    does not depend on which of two case variants the user typed. *)
Definition ci_equiv (a b : bytes) : Prop := eq_ignore_case a b = true.

#[export] Instance ci_equiv_dec : RelDecision ci_equiv.
Proof. intros a b. unfold ci_equiv. apply _. Defined.

#[export] Instance ci_equiv_equivalence : Equivalence ci_equiv.
Proof.
  unfold ci_equiv. split; red; intros *; rewrite ?eq_ignore_case_spec; congruence.
Qed.

#[export] Instance eq_ignore_case_proper :
  Proper (ci_equiv ==> ci_equiv ==> eq) eq_ignore_case.
Proof.
  intros a a' Ha b b' Hb. unfold ci_equiv in *. rewrite eq_ignore_case_spec in Ha, Hb.
  unfold eq_ignore_case. by rewrite Ha, Hb.
Qed.


(** Character-wise characterisation, used by the regex literal matcher. *)
Lemma eq_ignore_case_cons a s b t :
  eq_ignore_case (a :: s) (b :: t) = char_eq_ignore_case a b && eq_ignore_case s t.
Proof.
  apply eq_bool_prop_intro. rewrite andb_True, !Is_true_true,
    char_eq_ignore_case_spec, !eq_ignore_case_spec. simpl.
  split; [intros H; by injection H | intros [-> ->]; done].
Qed.

(** ** Claims *)


