(* ===== verification/Regex.v ===== *)
(** * Regex: the fragment of the [regex] crate the program uses

    [src/src/main.rs] lines 43-47 build a regex from the text
    [format!(r"{}-\d+", prefix)] with [case_insensitive(true)] and run
    [captures_iter] over the branch listing.  This file models, for the
    fragment of regex syntax such a pattern uses when the prefix is a plain
    key (literal characters, the class [\d], greedy [+]):
    - the parser of the pattern text ([parse_pattern]);
    - the leftmost-first match semantics, as the list of match ends in the
      priority order of a backtracking matcher ([ends]); the first element
      is the match the crate reports;
    - [find_at], the leftmost-first search from a position;
    - the [CaptureMatches] iterator as a state machine ([iter_step] on
      [iter_state]) with the crate's handling of empty matches, and the
      loop that drains it ([captures_iter]).

    Beside the model, the language of a regex as an inductive relation
    ([in_lang], with [star] for repetition).  [ends_spec] proves the
    backtracking matcher sound and complete for it; [find_at] then reports
    the leftmost word of the language, and the iterator reports words of
    it, in bounds, in order and without overlap ([span_in],
    [span_before]).

    The crate is an external library: these definitions follow its
    documented semantics and its iterator code, not a file of [src/]. *)

From S2P Require Import Prelude CaseFold.
From stdpp Require Import sorting.

(** ** Syntax *)

Inductive regex :=
| Empty
| Lit (c : ascii)
| Digit
| Seq (r1 r2 : regex)
| Plus (r : regex).

#[export] Instance regex_eq_dec : EqDecision regex.
Proof. solve_decision. Defined.

(** A compiled regex: the syntax tree and the builder's case flag. *)
Record Regex := mkRegex { re_ast : regex; re_case_insensitive : bool }.

(** Characters with a special meaning in the pattern syntax. *)
Definition is_meta (c : ascii) : bool :=
  bool_decide (c ∈ list_ascii_of_string "\.+*?()|[]{}^$").

(** One atom: [\d] or a literal character. *)
Definition parse_atom (p : bytes) : option (regex * bytes) :=
  match p with
  | [] => None
  | c :: rest =>
      if Ascii.eqb c "\" then
        match rest with
        | d :: rest' => if Ascii.eqb d "d" then Some (Digit, rest') else None
        | [] => None
        end
      else if is_meta c then None
      else Some (Lit c, rest)
  end.

(** An optional greedy [+] after an atom. *)
Definition parse_repeat (a : regex) (p : bytes) : regex * bytes :=
  match p with
  | c :: rest => if Ascii.eqb c "+" then (Plus a, rest) else (a, p)
  | [] => (a, p)
  end.

Fixpoint parse_items (fuel : nat) (p : bytes) : option (list regex) :=
  match p with
  | [] => Some []
  | _ :: _ =>
      match fuel with
      | 0 => None
      | S k =>
          match parse_atom p with
          | None => None
          | Some (a, rest) =>
              let '(item, rest') := parse_repeat a rest in
              items ← parse_items k rest'; Some (item :: items)
          end
      end
  end.

Fixpoint seq_of (items : list regex) : regex :=
  match items with
  | [] => Empty
  | [r] => r
  | r :: rs => Seq r (seq_of rs)
  end.

(** The pattern parser: [None] for a pattern outside the fragment. *)
Definition parse_pattern (p : bytes) : option regex :=
  seq_of <$> parse_items (length p) p.

(** [RegexBuilder::new(pattern).case_insensitive(ci).build()]. *)
Definition build (pattern : bytes) (ci : bool) : option Regex :=
  (λ r, mkRegex r ci) <$> parse_pattern pattern.

(** ** Leftmost-first semantics *)

Definition lit_matches (ci : bool) (c x : ascii) : bool :=
  if ci then char_eq_ignore_case c x else bool_decide (c = x).

(** The ends of the matches of [r*] (non-empty iterations) at the start of
    [s], most preferred first: one more iteration before stopping. *)
Fixpoint star_ends (f : bytes → list nat) (fuel : nat) (s : bytes) : list nat :=
  match fuel with
  | 0 => [0]
  | S k =>
      flat_map (λ n, if n =? 0 then [] else map (Nat.add n) (star_ends f k (drop n s))) (f s)
      ++ [0]
  end.

(** The ends of the matches of [r] at the start of [s], in the order a
    backtracking matcher tries them. *)
Fixpoint ends (ci : bool) (r : regex) (s : bytes) : list nat :=
  match r with
  | Empty => [0]
  | Lit c =>
      match s with
      | x :: _ => if lit_matches ci c x then [1] else []
      | [] => []
      end
  | Digit =>
      match s with
      | x :: _ => if is_ascii_digit x then [1] else []
      | [] => []
      end
  | Seq r1 r2 => flat_map (λ n, map (Nat.add n) (ends ci r2 (drop n s))) (ends ci r1 s)
  | Plus r1 =>
      flat_map (λ n, map (Nat.add n) (star_ends (ends ci r1) (length s) (drop n s)))
        (ends ci r1 s)
  end.

(** The end of the match reported at the start of [s], if any. *)
Definition match_at (re : Regex) (s : bytes) : option nat :=
  head (ends (re_case_insensitive re) (re_ast re) s).

(** Leftmost-first search in the suffix [s], which starts at offset [pos]. *)
Fixpoint find_from (re : Regex) (s : bytes) (pos : nat) : option (nat * nat) :=
  match match_at re s with
  | Some n => Some (pos, pos + n)
  | None =>
      match s with
      | [] => None
      | _ :: s' => find_from re s' (S pos)
      end
  end.

(** [Regex::find_at(text, start)]. *)
Definition find_at (re : Regex) (text : bytes) (start : nat) : option (nat * nat) :=
  find_from re (drop start text) start.

(** ** The [CaptureMatches] iterator *)

Record iter_state := IterState { last_end : nat; last_match : option nat }.

Definition iter_init : iter_state := IterState 0 None.

(** What one call of [next] does: report a match, go round again
    ([return self.next()] for an empty match right after the previous
    match), or finish. *)
Inductive step_result :=
| Yield (span : nat * nat) (st : iter_state)
| Skip (st : iter_state)
| Done.

Definition iter_step (re : Regex) (text : bytes) (st : iter_state) : step_result :=
  if length text <? last_end st then Done
  else
    match find_at re text (last_end st) with
    | None => Done
    | Some (s, e) =>
        if s =? e then
          if bool_decide (Some e = last_match st)
          then Skip (IterState (e + 1) (last_match st))
          else Yield (s, e) (IterState (e + 1) (Some e))
        else Yield (s, e) (IterState e (Some e))
    end.

(** Draining the iterator ([collect::<Vec<_>>()]), with fuel. *)
Fixpoint collect (fuel : nat) (re : Regex) (text : bytes) (st : iter_state) : list (nat * nat) :=
  match fuel with
  | 0 => []
  | S k =>
      match iter_step re text st with
      | Done => []
      | Skip st' => collect k re text st'
      | Yield sp st' => sp :: collect k re text st'
      end
  end.

(** Every call that does not finish moves [last_end] forward, and the
    iterator stops once [last_end] passes the end of the text, so
    [length text + 2] calls drain it (see [collect_fuel]). *)
Definition captures_iter (re : Regex) (text : bytes) : list (nat * nat) :=
  collect (length text + 2) re text iter_init.

(** The text of a span ([c.get(0).unwrap().as_str()]). *)
Definition span_text (text : bytes) (sp : nat * nat) : bytes :=
  take (sp.2 - sp.1) (drop sp.1 text).

(** ** The language of a regex

    The words a regex matches, by the usual rules; the case flag decides
    how a literal compares.  [star P] is a sequence of non-empty words of
    [P]. *)
Inductive star (P : bytes → Prop) : bytes → Prop :=
| star_nil : star P []
| star_cons w1 w2 : P w1 → w1 ≠ [] → star P w2 → star P (w1 ++ w2).

Inductive in_lang (ci : bool) : regex → bytes → Prop :=
| L_empty : in_lang ci Empty []
| L_lit c x : lit_matches ci c x = true → in_lang ci (Lit c) [x]
| L_digit x : is_ascii_digit x = true → in_lang ci Digit [x]
| L_seq r1 r2 w1 w2 : in_lang ci r1 w1 → in_lang ci r2 w2 → in_lang ci (Seq r1 r2) (w1 ++ w2)
| L_plus_one r w : in_lang ci r w → in_lang ci (Plus r) w
| L_plus_more r w1 w2 : in_lang ci r w1 → in_lang ci (Plus r) w2 → in_lang ci (Plus r) (w1 ++ w2).

(** The [n] bytes of [text] from offset [k] are a word of the regex. *)
Definition lang_at (re : Regex) (text : bytes) (k n : nat) : Prop :=
  n ≤ length text - k ∧ in_lang (re_case_insensitive re) (re_ast re) (take n (drop k text)).

(** A reported span lies within the text. *)
Definition span_in (text : bytes) (sp : nat * nat) : Prop := (sp.1 ≤ sp.2) ∧ (sp.2 ≤ length text).

(** Two reported spans in order: the second starts where the first ended
    or later, and an empty span never sits at the end of the previous
    match. *)
Definition span_before (sp sp' : nat * nat) : Prop :=
  (sp.1 ≤ sp.2) ∧ (sp.2 ≤ sp'.1) ∧ (sp'.1 ≤ sp'.2) ∧ (sp'.1 = sp'.2 → sp.2 < sp'.1).

(** ** The matcher finds exactly the prefixes in the language *)

(** Splitting a prefix of [s] into two words. *)
Lemma take_split (s w1 w2 : bytes) n :
  n ≤ length s → take n s = w1 ++ w2 →
  length w1 ≤ n ∧ w1 = take (length w1) s ∧ w2 = take (n - length w1) (drop (length w1) s).
Proof.
  intros Hn Hs. assert (Hl : length w1 ≤ n).
  { pose proof (f_equal length Hs) as E. rewrite length_app, length_take in E. lia. }
  split_and!; [done| |].
  - pose proof (f_equal (take (length w1)) Hs) as E.
    rewrite take_take, take_app_length in E. by rewrite Nat.min_l in E.
  - pose proof (f_equal (drop (length w1)) Hs) as E.
    rewrite drop_app_length in E. rewrite <- E, take_drop_commute.
    do 2 f_equal. lia.
Qed.

Lemma take_add_split (s : bytes) m j : take (m + j) s = take m s ++ take j (drop m s).
Proof. by rewrite take_take_drop. Qed.

Lemma take_len_0 (s : bytes) n : n ≤ length s → take n s = [] → n = 0.
Proof. intros Hn E. apply (f_equal length) in E. rewrite length_take in E. simpl in E. lia. Qed.

Lemma take_len_1 (s : bytes) n x :
  n ≤ length s → take n s = [x] → n = 1 ∧ ∃ s', s = x :: s'.
Proof.
  intros Hn E. pose proof (f_equal length E) as El. rewrite length_take in El. simpl in El.
  assert (n = 1) as -> by lia. destruct s as [|y s']; [done|]. injection E as ->. eauto.
Qed.

Section StarLang.
Context (f : bytes → list nat) (P : bytes → Prop).
Hypothesis f_spec : ∀ s n, n ∈ f s ↔ n ≤ length s ∧ P (take n s).

(** With fuel [length s], [star_ends] lists every end of a sequence of
    non-empty words of [P]. *)
Lemma star_ends_spec k s n :
  length s ≤ k → n ∈ star_ends f k s ↔ n ≤ length s ∧ star P (take n s).
Proof.
  revert s n. induction k as [|k IH]; intros s n Hk; simpl.
  - rewrite list_elem_of_singleton. split; [intros ->; split; [lia|constructor]|].
    intros [Hn _]. lia.
  - rewrite elem_of_app, list_elem_of_singleton, list_elem_of_In, in_flat_map. split.
    + intros [[m [Hm Hn]]| ->]; [|split; [lia|constructor]].
      destruct (Nat.eqb_spec m 0) as [|Hm0]; [done|].
      apply in_map_iff in Hn as [j [<- Hj]].
      apply list_elem_of_In, f_spec in Hm as [Hm HP].
      apply list_elem_of_In in Hj. rewrite IH in Hj by (rewrite length_drop; lia).
      destruct Hj as [Hj Hst]. rewrite length_drop in Hj. split; [lia|].
      rewrite take_add_split. constructor; [done| |done].
      intros E. apply (f_equal length) in E. rewrite length_take in E. simpl in E. lia.
    + intros [Hn Hst]. remember (take n s) as w eqn:Ew.
      destruct Hst as [|w1 w2 HP Hne Hst].
      * right. symmetry in Ew. by apply take_len_0 in Ew.
      * left. symmetry in Ew. destruct (take_split s w1 w2 n Hn Ew) as (Hl & E1 & E2).
        exists (length w1). split.
        { apply list_elem_of_In, f_spec. split; [lia|]. by rewrite <- E1. }
        destruct (Nat.eqb_spec (length w1) 0) as [E0|].
        { destruct w1; [done|discriminate]. }
        apply in_map_iff. exists (n - length w1). split; [lia|].
        apply list_elem_of_In. rewrite IH by (rewrite length_drop; lia).
        rewrite length_drop. split; [lia|]. by rewrite <- E2.
Qed.
End StarLang.

(** The ends of a composition [m + j], [j] taken after [m], are the
    prefixes split into two words of the two languages. *)
Lemma concat_spec (s : bytes) (f : list nat) (g : nat → list nat) P Q n :
  (∀ m, m ∈ f ↔ m ≤ length s ∧ P (take m s)) →
  (∀ m j, m ≤ length s → j ∈ g m ↔ j ≤ length (drop m s) ∧ Q (take j (drop m s))) →
  n ∈ flat_map (λ m, map (Nat.add m) (g m)) f ↔
  n ≤ length s ∧ ∃ w1 w2, take n s = w1 ++ w2 ∧ P w1 ∧ Q w2.
Proof.
  intros Hf Hg. rewrite list_elem_of_In, in_flat_map. split.
  - intros [m [Hm Hn]]. apply in_map_iff in Hn as [j [<- Hj]].
    apply list_elem_of_In, Hf in Hm as [Hm HP].
    apply list_elem_of_In, Hg in Hj as [Hj HQ]; [|done]. rewrite length_drop in Hj.
    split; [lia|]. exists (take m s), (take j (drop m s)). by rewrite take_add_split.
  - intros [Hn (w1 & w2 & Ew & HP & HQ)].
    destruct (take_split s w1 w2 n Hn Ew) as (Hl & E1 & E2).
    exists (length w1). split.
    + apply list_elem_of_In, Hf. split; [lia|]. by rewrite <- E1.
    + apply in_map_iff. exists (n - length w1). split; [lia|].
      apply list_elem_of_In, Hg; [lia|]. rewrite length_drop. split; [lia|]. by rewrite <- E2.
Qed.

(** The ends of a one-byte regex with test [t]. *)
Lemma single_spec (t : ascii → bool) (L : bytes → Prop) s n :
  (∀ w, L w ↔ ∃ x, w = [x] ∧ t x = true) →
  n ∈ (match s with x :: _ => if t x then [1] else [] | [] => [] end) ↔
  n ≤ length s ∧ L (take n s).
Proof.
  intros HL. rewrite HL. destruct s as [|x s']; simpl.
  - split; [set_solver|]. intros (_ & y & E & _). destruct n; discriminate.
  - split.
    + destruct (t x) eqn:Hx; [|set_solver]. rewrite list_elem_of_singleton.
      intros ->. split; [lia|]. by exists x.
    + intros [Hn (y & E & Hy)].
      destruct (take_len_1 (x :: s') n y Hn E) as [-> [? [= -> ->]]].
      rewrite Hy. set_solver.
Qed.

Lemma lang_empty ci w : in_lang ci Empty w ↔ w = [].
Proof. split; [by inversion 1 | intros ->; constructor]. Qed.

Lemma lang_lit ci c w : in_lang ci (Lit c) w ↔ ∃ x, w = [x] ∧ lit_matches ci c x = true.
Proof. split; [inversion 1; eauto | intros (x & -> & Hx); by constructor]. Qed.

Lemma lang_digit ci w : in_lang ci Digit w ↔ ∃ x, w = [x] ∧ is_ascii_digit x = true.
Proof. split; [inversion 1; eauto | intros (x & -> & Hx); by constructor]. Qed.

Lemma lang_seq ci r1 r2 w :
  in_lang ci (Seq r1 r2) w ↔ ∃ w1 w2, w = w1 ++ w2 ∧ in_lang ci r1 w1 ∧ in_lang ci r2 w2.
Proof. split; [intros H; inversion H; subst; eauto | intros (? & ? & -> & ? & ?); by constructor]. Qed.

(** A word of [r+] is a word of [r] followed by non-empty words of [r]:
    empty iterations can be left out. *)
Lemma lang_plus ci r w :
  in_lang ci (Plus r) w ↔ ∃ w1 w2, w = w1 ++ w2 ∧ in_lang ci r w1 ∧ star (in_lang ci r) w2.
Proof.
  split.
  - intros H. remember (Plus r) as r' eqn:Er. revert r Er.
    induction H as [| | | |r0 w H _|r0 w1 w2 H1 _ H2 IH]; intros r Er; try discriminate;
      injection Er as <-.
    + exists w, []. rewrite app_nil_r. split_and!; [done..|constructor].
    + destruct (IH r0 eq_refl) as (u1 & u2 & -> & Hu1 & Hu2).
      exists w1, (u1 ++ u2). split_and!; [done..|].
      destruct (decide (u1 = [])) as [->|]; [done|]. by constructor.
  - intros (w1 & w2 & -> & H1 & Hs). revert w1 H1.
    induction Hs as [|v1 v2 Hv Hne Hs IH]; intros w1 H1.
    + rewrite app_nil_r. by constructor.
    + constructor; [done|]. by apply IH.
Qed.

(** Soundness and completeness of the matcher: [n] is among the ends
    [ends] lists at the start of [s] exactly when the first [n] bytes of
    [s] are a word of the regex. *)
Lemma ends_spec ci r s n : n ∈ ends ci r s ↔ n ≤ length s ∧ in_lang ci r (take n s).
Proof.
  revert s n. induction r as [| c | | r1 IH1 r2 IH2 | r1 IH1]; intros s n; simpl.
  - rewrite list_elem_of_singleton, lang_empty.
    split; [intros ->; split; [lia|done]|]. intros [Hn E]. by apply take_len_0 in E.
  - apply single_spec, lang_lit.
  - apply single_spec, lang_digit.
  - rewrite (concat_spec s _ _ (in_lang ci r1) (in_lang ci r2)); [|done|intros; apply IH2].
    by rewrite lang_seq.
  - rewrite (concat_spec s _ _ (in_lang ci r1) (star (in_lang ci r1))); [|done|].
    + by rewrite lang_plus.
    + intros m j Hm. apply star_ends_spec; [apply IH1|]. rewrite length_drop. lia.
Qed.

(** ** Bounds: a match never extends past the text *)

Lemma ends_le_length ci r s n : n ∈ ends ci r s → n ≤ length s.
Proof. rewrite ends_spec. by intros []. Qed.

Lemma match_at_le re s n : match_at re s = Some n → n ≤ length s.
Proof.
  unfold match_at. destruct (ends _ _ s) as [|m l] eqn:E; simpl; [done|].
  intros [= <-]. apply (ends_le_length (re_case_insensitive re) (re_ast re)).
  rewrite E. left.
Qed.

Lemma match_at_lang re s n :
  match_at re s = Some n → n ≤ length s ∧ in_lang (re_case_insensitive re) (re_ast re) (take n s).
Proof.
  unfold match_at. destruct (ends _ _ s) as [|m l] eqn:E; simpl; [done|].
  intros [= <-]. apply ends_spec. rewrite E. left.
Qed.

Lemma match_at_None_lang re s :
  match_at re s = None →
  ∀ n, n ≤ length s → ¬ in_lang (re_case_insensitive re) (re_ast re) (take n s).
Proof.
  unfold match_at. destruct (ends _ _ s) as [|m l] eqn:E; simpl; [|done].
  intros _ n Hn Hl. assert (Hin : n ∈ ends (re_case_insensitive re) (re_ast re) s)
    by (apply ends_spec; done). rewrite E in Hin. set_solver.
Qed.

(** ** [find_from]: the leftmost match, and nothing before it *)

Lemma find_from_Some re s pos a b :
  find_from re s pos = Some (a, b) →
  pos ≤ a ∧ a ≤ b ∧ b ≤ pos + length s ∧
  match_at re (drop (a - pos) s) = Some (b - a) ∧
  ∀ k, k < a - pos → match_at re (drop k s) = None.
Proof.
  revert pos. induction s as [|x s IH]; intros pos; simpl.
  - destruct (match_at re []) eqn:E; [|done]. intros [= <- <-].
    pose proof (match_at_le _ _ _ E). simpl in *.
    rewrite Nat.sub_diag, drop_0. split_and!; try lia; try (intros; lia). rewrite E. f_equal. lia.
  - destruct (match_at re (x :: s)) eqn:E.
    + intros [= <- <-]. pose proof (match_at_le _ _ _ E).
      rewrite Nat.sub_diag, drop_0. simpl in *.
      split_and!; try lia; try (intros; lia). rewrite E. f_equal. lia.
    + intros H. apply IH in H as (H1 & H2 & H3 & H4 & H5).
      replace (a - pos) with (S (a - S pos)) by lia. simpl.
      split_and!; try lia; [done|]. intros [|k] Hk; simpl; [done|]. apply H5. lia.
Qed.

Lemma find_from_None re s pos :
  find_from re s pos = None → ∀ k, k ≤ length s → match_at re (drop k s) = None.
Proof.
  revert pos. induction s as [|x s IH]; intros pos; simpl.
  - destruct (match_at re []) eqn:E; [done|]. intros _ k Hk.
    replace k with 0 by lia. done.
  - destruct (match_at re (x :: s)) eqn:E; [done|]. intros H [|k] Hk; simpl; [done|].
    apply (IH _ H). lia.
Qed.

(** Conversely, the leftmost position with a match is what [find_from]
    reports: the search is complete. *)
Lemma find_from_first re s pos k n :
  match_at re (drop k s) = Some n →
  (∀ j, j < k → match_at re (drop j s) = None) →
  k ≤ length s →
  find_from re s pos = Some (pos + k, pos + k + n).
Proof.
  revert pos k. induction s as [|x s IH]; intros pos k Hk Hbefore Hlen; simpl.
  - replace k with 0 in * by (simpl in Hlen; lia). simpl in Hk. rewrite Hk. f_equal. f_equal; lia.
  - destruct k as [|k].
    + simpl in Hk. rewrite Hk. f_equal. f_equal; lia.
    + pose proof (Hbefore 0 ltac:(lia)) as H0. simpl in H0. rewrite H0.
      rewrite (IH (S pos) k); [f_equal; f_equal; lia | done | | simpl in Hlen; lia].
      intros j Hj. apply (Hbefore (S j)). lia.
Qed.

Lemma find_at_Some re text start a b :
  find_at re text start = Some (a, b) →
  start ≤ a ∧ a ≤ b ∧ b ≤ start + (length text - start) ∧
  match_at re (drop a text) = Some (b - a) ∧
  ∀ k, start ≤ k < a → match_at re (drop k text) = None.
Proof.
  unfold find_at. intros H. apply find_from_Some in H as (H1 & H2 & H3 & H4 & H5).
  rewrite drop_drop, length_drop in *. replace (start + (a - start)) with a in H4 by lia.
  split_and!; try lia; [done|]. intros k Hk.
  specialize (H5 (k - start)). rewrite drop_drop in H5.
  replace (start + (k - start)) with k in H5 by lia. apply H5. lia.
Qed.

(** ** The iterator makes progress and stops *)

(** A call that does not finish moves [last_end] strictly forward and
    keeps it within one past the end of the text. *)
Lemma iter_step_progress re text st st' :
  (∃ sp, iter_step re text st = Yield sp st') ∨ iter_step re text st = Skip st' →
  last_end st < last_end st' ∧ last_end st' ≤ length text + 1.
Proof.
  unfold iter_step.
  destruct (Nat.ltb_spec (length text) (last_end st)) as [Hlt|Hle];
    [intros [[? ?]|?]; discriminate|].
  destruct (find_at re text (last_end st)) as [[a b]|] eqn:Hf;
    [|intros [[? ?]|?]; discriminate].
  apply find_at_Some in Hf as (H1 & H2 & H3 & _).
  destruct (Nat.eqb_spec a b); [case_bool_decide|];
    intros [[sp Hs]|Hs]; try discriminate; invc Hs; simpl; lia.
Qed.

(** The measure [length text + 2 - last_end] bounds the number of calls:
    any fuel at least this large gives the same result. *)
Lemma collect_fuel re text k1 k2 st :
  length text + 2 - last_end st ≤ k1 → length text + 2 - last_end st ≤ k2 →
  collect k1 re text st = collect k2 re text st.
Proof.
  revert k2 st. induction k1 as [|k1 IH]; intros k2 st H1 H2.
  - destruct k2 as [|k2]; [done|]. simpl.
    unfold iter_step. destruct (Nat.ltb_spec (length text) (last_end st)); [done|lia].
  - destruct k2 as [|k2].
    + simpl. unfold iter_step. destruct (Nat.ltb_spec (length text) (last_end st)); [done|lia].
    + simpl. destruct (iter_step re text st) as [sp st'|st'|] eqn:Hs; [| |done].
      * pose proof (iter_step_progress re text st st' (or_introl (ex_intro _ sp Hs))).
        f_equal. apply IH; lia.
      * pose proof (iter_step_progress re text st st' (or_intror Hs)). apply IH; lia.
Qed.

(** ** The iterator reports ordered spans *)

#[export] Instance span_before_trans : Transitive span_before.
Proof.
  intros [a b] [c d] [e f] (H1 & H2 & H3 & H4) (H5 & H6 & H7 & H8). unfold span_before. simpl in *.
  split_and!; [lia..|]. intros He. specialize (H8 He). lia.
Qed.

(** The spans a state may still report: from [last_end] on, and not an
    empty one at the previous match's end. *)
Definition starts_after (st : iter_state) (sp : nat * nat) : Prop :=
  (last_end st ≤ sp.1) ∧ (sp.1 = sp.2 → last_match st ≠ Some sp.1).

Lemma iter_step_yield re text st sp st' :
  iter_step re text st = Yield sp st' →
  span_in text sp ∧ starts_after st sp ∧
  ∀ sp', span_in text sp' → starts_after st' sp' → span_before sp sp'.
Proof.
  unfold iter_step. destruct (Nat.ltb_spec (length text) (last_end st)); [done|].
  destruct (find_at re text (last_end st)) as [[a b]|] eqn:Hf; [|done].
  apply find_at_Some in Hf as (H1 & H2 & H3 & _).
  unfold span_in, starts_after, span_before.
  destruct (Nat.eqb_spec a b) as [<-|Hab].
  - case_bool_decide as Hlm; [done|]. intros [= <- <-]. simpl.
    split_and!; [lia..|done|]. intros [c d] [Hc Hd] [Hle _]. simpl in *. lia.
  - intros [= <- <-]. simpl. split_and!; [lia..|done|].
    intros [c d] [Hc Hd] [Hle Hne]. simpl in *. split_and!; [lia..|].
    intros Hcd. destruct (decide (b = c)) as [<-|]; [by destruct Hne|lia].
Qed.

Lemma iter_step_skip re text st st' :
  iter_step re text st = Skip st' → ∀ sp, starts_after st' sp → starts_after st sp.
Proof.
  unfold iter_step. destruct (Nat.ltb_spec (length text) (last_end st)); [done|].
  destruct (find_at re text (last_end st)) as [[a b]|] eqn:Hf; [|done].
  apply find_at_Some in Hf as (H1 & H2 & H3 & _).
  destruct (Nat.eqb_spec a b); [case_bool_decide|]; intros; simplify_eq.
  unfold starts_after in *. simpl in *. naive_solver lia.
Qed.

Lemma collect_ordered k re text st :
  Forall (span_in text) (collect k re text st) ∧ Sorted span_before (collect k re text st) ∧
  ∀ sp, head (collect k re text st) = Some sp → starts_after st sp.
Proof.
  revert st. induction k as [|k IH]; intros st; simpl; [done|].
  destruct (iter_step re text st) as [sp st'|st'|] eqn:Hs; [| |done].
  - destruct (iter_step_yield _ _ _ _ _ Hs) as (Hin & Hsa & Hbef).
    destruct (IH st') as (Hall & Hsort & Hhd). split_and!.
    + by constructor.
    + constructor; [done|]. destruct (collect k re text st') as [|sp' l]; constructor.
      apply Hbef; [by inversion Hall | by apply Hhd].
    + by intros ? [= <-].
  - destruct (IH st') as (Hall & Hsort & Hhd). split_and!; [done..|].
    intros sp Hsp. eapply iter_step_skip; [done|]. by apply Hhd.
Qed.

(** Every span the iterator reports is a word of the regex. *)
Lemma iter_step_lang re text st sp st' :
  iter_step re text st = Yield sp st' → lang_at re text sp.1 (sp.2 - sp.1).
Proof.
  unfold iter_step. destruct (Nat.ltb_spec (length text) (last_end st)); [done|].
  destruct (find_at re text (last_end st)) as [[a b]|] eqn:Hf; [|done].
  apply find_at_Some in Hf as (H1 & H2 & H3 & Hm & _).
  apply match_at_lang in Hm as [Hl Hm]. rewrite length_drop in Hl.
  assert (lang_at re text a (b - a)) by (split; [lia|done]).
  destruct (Nat.eqb_spec a b); [case_bool_decide|]; by intros [= <- _].
Qed.

Lemma collect_lang k re text st :
  Forall (λ sp, lang_at re text sp.1 (sp.2 - sp.1)) (collect k re text st).
Proof.
  revert st. induction k as [|k IH]; intros st; simpl; [done|].
  destruct (iter_step re text st) as [sp st'|st'|] eqn:Hs; [| |done]; [|apply IH].
  constructor; [by eapply iter_step_lang|apply IH].
Qed.

(** ** Regexes without empty matches *)

(** A regex none of whose matches is empty: the iterator's empty-match
    branch is then dead, and draining it is a plain search loop. *)
Definition nonempty_matches (re : Regex) : Prop := ∀ s, match_at re s ≠ Some 0.

Fixpoint spans_from (fuel : nat) (re : Regex) (text : bytes) (pos : nat) : list (nat * nat) :=
  match fuel with
  | 0 => []
  | S k =>
      match find_at re text pos with
      | None => []
      | Some (a, b) => (a, b) :: spans_from k re text b
      end
  end.

Lemma nonempty_match_at_nil re : nonempty_matches re → match_at re [] = None.
Proof.
  intros Hne. destruct (match_at re []) as [n|] eqn:E; [|done].
  pose proof (match_at_le _ _ _ E). simpl in *.
  replace n with 0 in E by lia. by destruct (Hne []).
Qed.

Lemma collect_spans_from re text k pos lm :
  nonempty_matches re →
  collect k re text (IterState pos lm) = spans_from k re text pos.
Proof.
  intros Hne. revert pos lm. induction k as [|k IH]; intros pos lm; [done|].
  simpl. unfold iter_step. simpl.
  destruct (Nat.ltb_spec (length text) pos).
  - unfold find_at. rewrite drop_ge by lia. simpl.
    by rewrite nonempty_match_at_nil.
  - destruct (find_at re text pos) as [[a b]|] eqn:Hf; [|done].
    apply find_at_Some in Hf as (_ & _ & _ & Hm & _).
    destruct (Nat.eqb_spec a b) as [<-|]; [|by rewrite IH].
    rewrite Nat.sub_diag in Hm. by destruct (Hne _ Hm).
Qed.

Lemma captures_iter_spans re text :
  nonempty_matches re → captures_iter re text = spans_from (length text + 2) re text 0.
Proof. intros. by apply collect_spans_from. Qed.

(** ** Claims *)

(** C30 (termination of [captures_iter]): the [CaptureMatches] iterator is
    drained within [length text + 2] calls of [next], whatever the regex:
    any larger number of calls yields the same list of matches. *)
Theorem captures_iter_terminates re text k :
  length text + 2 ≤ k → collect k re text iter_init = captures_iter re text.
Proof. intros Hk. unfold captures_iter. apply collect_fuel; simpl; lia. Qed.

Lemma captures_iter_terminates_witness :
  length ⟪"ABC-1"⟫ + 2 ≤ 10 ∧
  collect 10 (mkRegex (Seq (Lit "A") (Plus Digit)) true) ⟪"ABC-1"⟫ iter_init =
    captures_iter (mkRegex (Seq (Lit "A") (Plus Digit)) true) ⟪"ABC-1"⟫.
Proof. split; [simpl; lia | apply captures_iter_terminates; simpl; lia]. Defined.

(** C12 (the spans of [captures_iter] are ordered): whatever the regex,
    every match the iterator reports lies within the text, and the matches
    come left to right without overlapping; an empty match is never
    reported at the end of the previous match (the crate's rule for empty
    matches). *)
Theorem captures_iter_ordered re text :
  Forall (span_in text) (captures_iter re text) ∧ StronglySorted span_before (captures_iter re text).
Proof.
  destruct (collect_ordered (length text + 2) re text iter_init) as (Hin & Hsort & _).
  split; [done|]. apply Sorted.Sorted_StronglySorted; [apply span_before_trans|done].
Qed.

(** Leftmost-first is not leftmost-longest: for [(bab+)+] on [babbabb]
    the inner [b+] takes both [b]s, the second iteration cannot start, and
    the reported match is [babb], though all seven bytes are a word of the
    regex.  So [find_at] reports the leftmost word, not the longest one. *)
Example leftmost_first_not_longest :
  let re := mkRegex (Plus (Seq (Seq (Lit "b") (Lit "a")) (Plus (Lit "b")))) false in
  match_at re ⟪"babbabb"⟫ = Some 4 ∧ 7 ∈ ends false (re_ast re) ⟪"babbabb"⟫.
Proof. split; [reflexivity|]. vm_compute. set_solver. Qed.

(** C6 ([find_at] reports the leftmost match): from a start within the
    text, when [Regex::find_at] reports [(a, b)] the bytes [a..b] are a
    word of the regex and no word of it starts between [start] and [a];
    when it reports nothing, no word of the regex starts at or after
    [start]; and every match [captures_iter] reports (line 47) is a word
    of the regex.  This is the language semantics of the regex: the
    backtracking [ends] is sound and complete for it ([ends_spec]). *)
Theorem find_at_leftmost re text start :
  start ≤ length text →
  match find_at re text start with
  | Some (a, b) =>
      start ≤ a ∧ a ≤ b ∧ b ≤ length text ∧ lang_at re text a (b - a) ∧
      ∀ k n, start ≤ k < a → ¬ lang_at re text k n
  | None => ∀ k n, start ≤ k ≤ length text → ¬ lang_at re text k n
  end ∧
  Forall (λ sp, lang_at re text sp.1 (sp.2 - sp.1)) (captures_iter re text).
Proof.
  intros Hs. split; [|apply collect_lang]. destruct (find_at re text start) as [[a b]|] eqn:Hf.
  - apply find_at_Some in Hf as (H1 & H2 & H3 & Hm & Hb).
    apply match_at_lang in Hm as [Hl Hm]. rewrite length_drop in Hl.
    split_and!; [lia..| split; [lia|done] |].
    intros k n Hk [Hn Hk']. apply (match_at_None_lang re (drop k text) (Hb k Hk) n); [|done].
    rewrite length_drop. lia.
  - unfold find_at in Hf. intros k n Hk [Hn Hl].
    pose proof (find_from_None _ _ _ Hf (k - start)) as Hk'.
    rewrite length_drop, drop_drop in Hk'. replace (start + (k - start)) with k in Hk' by lia.
    apply (match_at_None_lang re (drop k text) (Hk' ltac:(lia)) n); [|done].
    rewrite length_drop. lia.
Qed.

Lemma find_at_leftmost_witness :
  0 ≤ length ⟪"ab-12"⟫ ∧
  find_at (mkRegex (Seq (Lit "-") (Plus Digit)) false) ⟪"ab-12"⟫ 0 = Some (2, 5) ∧
  lang_at (mkRegex (Seq (Lit "-") (Plus Digit)) false) ⟪"ab-12"⟫ 2 3 ∧
  ∀ k n, 0 ≤ k < 2 → ¬ lang_at (mkRegex (Seq (Lit "-") (Plus Digit)) false) ⟪"ab-12"⟫ k n.
Proof.
  assert (H0 : 0 ≤ length ⟪"ab-12"⟫) by lia.
  assert (Hf : find_at (mkRegex (Seq (Lit "-") (Plus Digit)) false) ⟪"ab-12"⟫ 0 = Some (2, 5))
    by reflexivity.
  pose proof (proj1 (find_at_leftmost (mkRegex (Seq (Lit "-") (Plus Digit)) false) ⟪"ab-12"⟫ 0 H0))
    as H. cbv zeta in H. revert H. unfold find_at at 1. change (find_from _ _ _) with (Some (2, 5)).
  intros (_ & _ & _ & Hl & Hb).
  split_and!; [exact H0|exact Hf|exact Hl|exact Hb].
Defined.
