(* ===== verification/Extract.v ===== *)
(** * Extract: the identifier extractor ([src/src/main.rs] lines 42-51)

    [task_name_re] builds the regex [{prefix}-\d+] with case-insensitive
    matching (lines 43-46); [extract_task_names] runs [captures_iter] over
    the output of [git branch] and keeps the text of each whole match
    (lines 47-51).  For a prefix that is a plain key (no regex
    metacharacter) the regex is proved to match exactly what
    [task_match_len] says: the prefix up to case, a hyphen, and the longest
    run of ASCII digits (at least one).  The main theorem characterises the
    extracted list by the relation [scan]: the leftmost such match, then
    the rest of the text after it, left to right; a naive scanner
    ([naive_extract]) that tries a task name at every byte computes the
    same list. *)

From S2P Require Import Prelude CaseFold Regex.

(** ** The code *)

(** [format!(r"{}-\d+", prefix)]: the prefix is spliced in verbatim. *)
Definition task_name_pattern (prefix : bytes) : bytes := prefix ++ ⟪"-\d+"⟫.

(** Lines 43-46 before the [unwrap]: [None] when the pattern is not in the
    modelled fragment (see [literal_prefix]). *)
Definition task_name_re (prefix : bytes) : option Regex :=
  build (task_name_pattern prefix) true.

(** Lines 47-51: the text of every match, in the order of the iterator. *)
Definition extract_task_names (re : Regex) (branches : bytes) : list bytes :=
  map (span_text branches) (captures_iter re branches).

(** ** The specification of one match *)

(** A prefix is a plain key when none of its characters is special in
    the pattern syntax: it then stands for itself in the pattern. *)
Definition literal_prefix (prefix : bytes) : bool := forallb (λ c, negb (is_meta c)) prefix.

Fixpoint digit_run (s : bytes) : nat :=
  match s with
  | c :: s' => if is_ascii_digit c then S (digit_run s') else 0
  | [] => 0
  end.

(** The length of the task name at the start of [s], if there is one:
    the prefix up to case, ['-'], and all the digits that follow. *)
Fixpoint task_match_len (prefix s : bytes) : option nat :=
  match prefix, s with
  | [], c :: rest =>
      if bool_decide (c = "-"%char) && negb (digit_run rest =? 0)
      then Some (S (digit_run rest)) else None
  | c :: prefix', x :: s' =>
      if char_eq_ignore_case c x then S <$> task_match_len prefix' s' else None
  | _, [] => None
  end.

(** The regex the pattern of a plain key compiles to. *)
Definition task_regex (prefix : bytes) : regex :=
  foldr (λ c r, Seq (Lit c) r) (Seq (Lit "-") (Plus Digit)) prefix.

(** ** The leftmost-first decomposition of a text *)

(** [scan prefix text ids]: [ids] are the task names of [text] taken left
    to right, each the leftmost one after the previous. *)
Inductive scan (prefix : bytes) : bytes → list bytes → Prop :=
| scan_end s :
    (∀ k, k ≤ length s → task_match_len prefix (drop k s) = None) →
    scan prefix s []
| scan_next g m rest ids :
    (∀ k, k < length g → task_match_len prefix (drop k (g ++ m ++ rest)) = None) →
    task_match_len prefix (m ++ rest) = Some (length m) →
    scan prefix rest ids →
    scan prefix (g ++ m ++ rest) (m :: ids).

(** ** A reference scanner

    The decomposition computed directly: at each position try a task name;
    on a match of length [n] take it and continue after it, otherwise move
    one byte on.  The fuel [length s] is enough: each step consumes at
    least one byte. *)
Fixpoint naive_scan (fuel : nat) (prefix s : bytes) : list bytes :=
  match fuel, s with
  | 0, _ | _, [] => []
  | S fuel', _ :: s' =>
      match task_match_len prefix s with
      | Some n => take n s :: naive_scan fuel' prefix (drop n s)
      | None => naive_scan fuel' prefix s'
      end
  end.

Definition naive_extract (prefix s : bytes) : list bytes := naive_scan (length s) prefix s.

(** ** The pattern of a plain key *)

Lemma literal_prefix_cons c p :
  literal_prefix (c :: p) = true ↔ is_meta c = false ∧ literal_prefix p = true.
Proof. unfold literal_prefix. simpl. rewrite andb_true_iff, negb_true_iff. done. Qed.

Lemma parse_items_task (p : bytes) k :
  literal_prefix p = true → length p + 2 ≤ k →
  parse_items k (task_name_pattern p) = Some (map Lit p ++ [Lit "-"; Plus Digit]).
Proof.
  unfold task_name_pattern. revert k. induction p as [|c p IH]; intros k Hlit Hk.
  - destruct k as [|[|[|k]]]; simpl in Hk; try lia; reflexivity.
  - apply literal_prefix_cons in Hlit as [Hc Hlit].
    destruct k as [|k]; simpl in Hk; [lia|]. simpl.
    assert (Ascii.eqb c "\" = false) as ->.
    { apply Ascii.eqb_neq. intros ->. discriminate. }
    rewrite Hc.
    assert (∀ sfx, parse_repeat (Lit c) (p ++ "-"%char :: sfx) = (Lit c, p ++ "-"%char :: sfx))
      as ->.
    { intros sfx. destruct p as [|c' p]; [done|]. apply literal_prefix_cons in Hlit as [Hc' _].
      simpl. assert (Ascii.eqb c' "+" = false) as -> by
        (apply Ascii.eqb_neq; intros ->; discriminate). done. }
    rewrite IH by (done || lia). done.
Qed.

Lemma seq_of_task (p : bytes) : seq_of (map Lit p ++ [Lit "-"; Plus Digit]) = task_regex p.
Proof. induction p as [|c p IH]; [done|]. simpl. rewrite IH. by destruct p. Qed.

(** For a plain key, the pattern is in the fragment and compiles to the
    concatenation of the key's characters, ['-'] and [\d+]. *)
Lemma task_name_re_literal p :
  literal_prefix p = true → task_name_re p = Some (mkRegex (task_regex p) true).
Proof.
  intros Hlit. unfold task_name_re, build, parse_pattern.
  rewrite parse_items_task by (done || (unfold task_name_pattern; rewrite length_app; simpl; lia)).
  simpl. by rewrite seq_of_task.
Qed.

(** ** What the task regex matches *)

Lemma char_eq_ignore_case_hyphen x : char_eq_ignore_case "-" x = bool_decide (x = "-"%char).
Proof.
  unfold char_eq_ignore_case. apply bool_decide_ext.
  change (to_ascii_lowercase "-") with "-"%char. split; [|by intros ->].
  intros H. apply (f_equal nat_of_ascii) in H. rewrite nat_of_to_ascii_lowercase in H.
  change (nat_of_ascii "-") with 45 in H.
  destruct (is_ascii_uppercase x) eqn:E.
  - apply is_ascii_uppercase_spec in E. lia.
  - rewrite <- (ascii_nat_embedding x), <- H. reflexivity.
Qed.

Lemma head_map_singleton (m : nat) (g : nat → list nat) :
  head (flat_map (λ n, map (Nat.add n) (g n)) [m]) = Nat.add m <$> head (g m).
Proof. simpl. rewrite app_nil_r. by destruct (g m). Qed.

Lemma digit_run_le s : digit_run s ≤ length s.
Proof. induction s as [|c s IH]; simpl; [lia|]. case_match; lia. Qed.

Lemma head_star_digit ci k s :
  digit_run s ≤ k → head (star_ends (ends ci Digit) k s) = Some (digit_run s).
Proof.
  revert s. induction k as [|k IH]; intros s Hk.
  - simpl. f_equal. lia.
  - destruct s as [|x s]; [done|]. cbn [star_ends].
    change (ends ci Digit (x :: s)) with (if is_ascii_digit x then [1] else []).
    change (digit_run (x :: s)) with (if is_ascii_digit x then S (digit_run s) else 0) in *. destruct (is_ascii_digit x); [|done].
    cbn [flat_map Nat.eqb]. rewrite app_nil_r, drop_cons_S, drop_0.
    specialize (IH s ltac:(lia)).
    destruct (star_ends (ends ci Digit) k s) as [|n l]; simpl in *; [discriminate|].
    by injection IH as ->.
Qed.

Lemma head_plus_digit ci s :
  head (ends ci (Plus Digit) s) = if digit_run s =? 0 then None else Some (digit_run s).
Proof.
  destruct s as [|x s]; [done|].
  change (ends ci (Plus Digit) (x :: s)) with (flat_map (λ n, map (Nat.add n)
    (star_ends (ends ci Digit) (length (x :: s)) (drop n (x :: s)))) (ends ci Digit (x :: s))).
  change (ends ci Digit (x :: s)) with (if is_ascii_digit x then [1] else []).
  change (digit_run (x :: s)) with (if is_ascii_digit x then S (digit_run s) else 0).
  destruct (is_ascii_digit x); [|done].
  rewrite head_map_singleton, drop_cons_S, drop_0, head_star_digit; [done|].
  pose proof (digit_run_le s). simpl. lia.
Qed.

Lemma head_map_nat (f : nat → nat) l : head (map f l) = f <$> head l.
Proof. by destruct l. Qed.

Lemma ends_seq_lit ci c r x s :
  ends ci (Seq (Lit c) r) (x :: s) = if lit_matches ci c x then map (Nat.add 1) (ends ci r s) else [].
Proof. simpl. destruct (lit_matches ci c x); simpl; [by rewrite app_nil_r | done]. Qed.

(** The match the regex reports at the start of [s] is the one
    [task_match_len] describes. *)
Lemma match_at_task p s : match_at (mkRegex (task_regex p) true) s = task_match_len p s.
Proof.
  unfold match_at. cbn [re_ast re_case_insensitive].
  revert s. induction p as [|c p IH]; intros [|x s]; try done.
  - change (task_regex []) with (Seq (Lit "-") (Plus Digit)).
    rewrite ends_seq_lit. cbn [lit_matches task_match_len].
    rewrite char_eq_ignore_case_hyphen.
    destruct (bool_decide (x = "-"%char)); [|done].
    rewrite head_map_nat, head_plus_digit. by destruct (digit_run s =? 0).
  - change (task_regex (c :: p)) with (Seq (Lit c) (task_regex p)).
    rewrite ends_seq_lit. cbn [lit_matches task_match_len].
    destruct (char_eq_ignore_case c x); [|done].
    by rewrite head_map_nat, IH.
Qed.

Lemma task_match_len_pos p s n : task_match_len p s = Some n → 0 < n.
Proof.
  revert s n. induction p as [|c p IH]; intros [|x s] n; simpl; try done.
  - case_match; [|done]. intros [= <-]. lia.
  - case_match; [|done]. destruct (task_match_len p s) eqn:E; simpl; [|done].
    intros [= <-]. lia.
Qed.

Lemma task_nonempty p : nonempty_matches (mkRegex (task_regex p) true).
Proof. intros s H. rewrite match_at_task in H. apply task_match_len_pos in H. lia. Qed.

(** ** The extracted list is the leftmost-first decomposition *)

Lemma drop_split (text : bytes) pos a b :
  pos ≤ a → a ≤ b → b ≤ length text →
  drop pos text = take (a - pos) (drop pos text) ++ take (b - a) (drop a text) ++ drop b text.
Proof.
  intros. rewrite <- (take_drop (a - pos) (drop pos text)) at 1. f_equal.
  rewrite drop_drop. replace (pos + (a - pos)) with a by lia.
  rewrite <- (take_drop (b - a) (drop a text)) at 1. f_equal.
  rewrite drop_drop. f_equal. lia.
Qed.

Lemma spans_scan p text fuel pos :
  pos ≤ length text → length text - pos < fuel →
  scan p (drop pos text)
    (map (span_text text) (spans_from fuel (mkRegex (task_regex p) true) text pos)).
Proof.
  revert pos. induction fuel as [|fuel IH]; intros pos Hpos Hfuel; [lia|]. simpl.
  destruct (find_at _ text pos) as [[a b]|] eqn:Hf.
  - pose proof (find_at_Some _ _ _ _ _ Hf) as (H1 & H2 & H3 & Hm & Hb).
    rewrite match_at_task in Hm. pose proof (task_match_len_pos _ _ _ Hm).
    rewrite (drop_split text pos a b) by lia. unfold span_text. simpl.
    apply scan_next.
    + intros k Hk. rewrite <- drop_split, drop_drop by lia.
      rewrite length_take, length_drop in Hk. rewrite <- match_at_task. apply Hb. lia.
    + replace (drop b text) with (drop (b - a) (drop a text)) by (rewrite drop_drop; f_equal; lia).
      rewrite take_drop, length_take, length_drop.
      rewrite Nat.min_l by lia. done.
    + apply IH; lia.
  - apply scan_end. intros k Hk. rewrite <- match_at_task.
    by apply (find_from_None _ _ pos).
Qed.

(** [scan] is deterministic: a text has one leftmost-first decomposition. *)
Lemma scan_deterministic p s ids1 ids2 : scan p s ids1 → scan p s ids2 → ids1 = ids2.
Proof.
  intros H1. revert ids2. induction H1 as [s Hnone | g m rest ids Hbefore Hm Hrest IH];
    intros ids2 H2.
  - inversion H2 as [| g' m' rest' ids' Hb' Hm' Hr' Es Eids]; [done|]. exfalso.
    pose proof (Hnone (length g') ltac:(rewrite <- Es, !length_app; lia)) as Hn.
    rewrite <- Es, drop_app_length in Hn. congruence.
  - inversion H2 as [s' Hn' Es Eids | g' m' rest' ids' Hb' Hm' Hr' Es Eids].
    + exfalso. pose proof (Hn' (length g) ltac:(rewrite !length_app; lia)) as Hn.
      rewrite drop_app_length in Hn. congruence.
    + destruct (lt_eq_lt_dec (length g) (length g')) as [[Hlt|Heq]|Hlt].
      * exfalso. specialize (Hb' _ Hlt). rewrite Es, drop_app_length in Hb'. congruence.
      * apply app_inj_1 in Es as [-> Es]; [|done].
        assert (length m = length m') as Hlen.
        { cut (Some (length m) = Some (length m')); [congruence|].
          rewrite <- Hm, <- Hm'. f_equal. congruence. }
        apply app_inj_1 in Es as [-> ->]; [|done]. f_equal. by apply IH.
      * exfalso. specialize (Hbefore _ Hlt). rewrite <- Es, drop_app_length in Hbefore.
        congruence.
Qed.

(** ** A task name, as text *)

Abbreviation all_digits ds := (Forall (λ c, is_ascii_digit c = true) ds).

Lemma digit_run_app ds rest : all_digits ds → digit_run (ds ++ rest) = length ds + digit_run rest.
Proof. induction 1 as [|c ds Hc _ IH]; [done|]. simpl. by rewrite Hc, IH. Qed.

Lemma digit_run_take s : all_digits (take (digit_run s) s).
Proof.
  induction s as [|c s IH]; simpl; [constructor|].
  destruct (is_ascii_digit c) eqn:E; simpl; by constructor.
Qed.

Lemma digit_run_drop s : digit_run (drop (digit_run s) s) = 0.
Proof.
  induction s as [|c s IH]; simpl; [done|].
  destruct (is_ascii_digit c) eqn:E; simpl; [done|by rewrite E].
Qed.

Lemma eq_ignore_case_length a b : eq_ignore_case a b = true → length a = length b.
Proof.
  rewrite eq_ignore_case_spec. intros H. apply (f_equal length) in H.
  by rewrite !length_to_lowercase in H.
Qed.

Lemma char_eq_ignore_case_sym a b : char_eq_ignore_case a b = char_eq_ignore_case b a.
Proof. unfold char_eq_ignore_case. apply bool_decide_ext. done. Qed.

(** At the start of [s] there is a task name of length [n] exactly when [s]
    begins with a case variant of the prefix, ['-'], a non-empty run of
    digits, and then no further digit: the greedy [\d+] takes them all. *)
Lemma task_match_len_spec p s n :
  task_match_len p s = Some n ↔
  ∃ m ds rest, s = m ++ "-"%char :: ds ++ rest ∧ eq_ignore_case m p = true ∧
    ds ≠ [] ∧ all_digits ds ∧ digit_run rest = 0 ∧ n = length m + S (length ds).
Proof.
  revert s n. induction p as [|c p IH]; intros [|x s] n; simpl.
  - split; [done|]. intros (m & ds & rest & Hs & _). destruct m; discriminate.
  - split.
    + destruct (bool_decide (x = "-"%char)) eqn:Hx; [|done]. bool_prop. subst x.
      destruct (Nat.eqb_spec (digit_run s) 0); [done|]. simpl. intros [= <-].
      exists [], (take (digit_run s) s), (drop (digit_run s) s).
      split_and!; try done.
      * simpl. by rewrite take_drop.
      * intros Ht. apply (f_equal length) in Ht. rewrite length_take in Ht.
        pose proof (digit_run_le s). simpl in Ht. lia.
      * apply digit_run_take.
      * apply digit_run_drop.
      * simpl. rewrite length_take. pose proof (digit_run_le s). lia.
    + intros (m & ds & rest & Hs & Hm & Hds & Hdig & Hrest & ->).
      apply eq_ignore_case_length in Hm. destruct m; [|discriminate]. simpl in Hs.
      injection Hs as -> ->. rewrite bool_decide_eq_true_2 by done.
      rewrite digit_run_app, Hrest by done. destruct ds; [done|]. simpl. f_equal. lia.
  - split; [done|]. intros (m & ds & rest & Hs & Hm & _).
    apply eq_ignore_case_length in Hm. destruct m; [discriminate|done].
  - destruct (char_eq_ignore_case c x) eqn:Hcx; split.
    + destruct (task_match_len p s) as [n'|] eqn:E; simpl; [|done]. intros [= <-].
      apply IH in E as (m & ds & rest & -> & Hm & Hds & Hdig & Hrest & ->).
      exists (x :: m), ds, rest. split_and!; try done.
      rewrite eq_ignore_case_cons, char_eq_ignore_case_sym, Hcx. done.
    + intros (m & ds & rest & Hs & Hm & Hds & Hdig & Hrest & ->).
      destruct m as [|x' m]; [by apply eq_ignore_case_length in Hm|].
      injection Hs as <- Hs. rewrite eq_ignore_case_cons in Hm. bool_prop.
      assert (task_match_len p s = Some (length m + S (length ds))) as ->.
      { apply IH. by exists m, ds, rest. }
      done.
    + done.
    + intros (m & ds & rest & Hs & Hm & _).
      destruct m as [|x' m]; [by apply eq_ignore_case_length in Hm|].
      injection Hs as <- _. rewrite eq_ignore_case_cons in Hm. bool_prop.
      rewrite char_eq_ignore_case_sym in H. congruence.
Qed.

Lemma scan_names p s ids :
  scan p s ids →
  Forall (λ m, ∃ key ds, m = key ++ "-"%char :: ds ∧ eq_ignore_case key p = true ∧
                  ds ≠ [] ∧ all_digits ds ∧ ∃ before after, s = before ++ m ++ after) ids.
Proof.
  induction 1 as [s _ | g m rest ids _ Hm _ IH]; constructor.
  - apply task_match_len_spec in Hm as (key & ds & rest' & Hs & Hkey & Hds & Hdig & _ & Hlen).
    rewrite app_comm_cons, app_assoc in Hs.
    apply app_inj_1 in Hs as [-> _]; [|rewrite length_app; simpl; lia].
    exists key, ds. split_and!; try done. exists g, rest. done.
  - eapply Forall_impl; [exact IH|]. simpl.
    intros x (key & ds & -> & Hk & Hds & Hdig & before & after & Hr).
    exists key, ds. split_and!; try done. exists (g ++ m ++ before), after.
    rewrite Hr. by rewrite !app_assoc.
Qed.

(** The extractor's output is a leftmost-first decomposition. *)
Lemma extract_scan p re text :
  literal_prefix p = true → task_name_re p = Some re → scan p text (extract_task_names re text).
Proof.
  intros Hlit Hre. rewrite task_name_re_literal in Hre by done. injection Hre as <-.
  unfold extract_task_names. rewrite captures_iter_spans by apply task_nonempty.
  rewrite <- (drop_0 text) at 1. apply spans_scan; lia.
Qed.

(** ** The reference scanner meets [scan] *)

Lemma task_match_len_le p s n : task_match_len p s = Some n → n ≤ length s.
Proof.
  revert s n. induction p as [|c p IH]; intros [|x s] n; simpl; try done.
  - case_match; [|done]. intros [= <-]. pose proof (digit_run_le s). lia.
  - case_match; [|done]. destruct (task_match_len p s) eqn:E; simpl; [|done].
    intros [= <-]. apply IH in E. lia.
Qed.

Lemma task_match_len_nil p : task_match_len p [] = None.
Proof. by destruct p. Qed.

(** A position where no task name starts can be put in front of a scan. *)
Lemma scan_cons_none p c s ids :
  task_match_len p (c :: s) = None → scan p s ids → scan p (c :: s) ids.
Proof.
  intros Hc Hs. destruct Hs as [s Hnone | g m rest ids Hbefore Hm Hrest].
  - apply scan_end. intros [|k] Hk; [done|]. apply Hnone. simpl in Hk. lia.
  - apply (scan_next p (c :: g)); [|done..].
    intros [|k] Hk; [done|]. apply Hbefore. simpl in Hk. lia.
Qed.

Lemma naive_scan_sound fuel p s : length s ≤ fuel → scan p s (naive_scan fuel p s).
Proof.
  revert s. induction fuel as [|fuel IH]; intros [|c s] Hlen; simpl in *; try lia.
  - apply scan_end. intros [|k] _; apply task_match_len_nil.
  - apply scan_end. intros [|k] _; apply task_match_len_nil.
  - destruct (task_match_len p (c :: s)) as [n|] eqn:Hm.
    + pose proof (task_match_len_le _ _ _ Hm). pose proof (task_match_len_pos _ _ _ Hm).
      rewrite <- (take_drop n (c :: s)) at 1. apply (scan_next p []).
      * simpl. lia.
      * rewrite take_drop, length_take. rewrite Nat.min_l by done. done.
      * apply IH. rewrite length_drop. simpl in *. lia.
    + apply scan_cons_none; [done|]. apply IH. lia.
Qed.

(** ** Claims *)

(** C1 (refinement of the extractor): for a prefix that is a plain key,
    the regex of lines 43-46 builds, and the names lines 47-51 collect
    from a text are exactly its leftmost-first decomposition [scan]: the
    first task name in the text, then the names of the text after it, in
    order, duplicates kept, nothing else. *)
Theorem extract_task_names_correct p re text ids :
  literal_prefix p = true → task_name_re p = Some re →
  extract_task_names re text = ids ↔ scan p text ids.
Proof.
  intros Hlit Hre. pose proof (extract_scan p re text Hlit Hre) as Hscan.
  split; [by intros <-|]. intros H. exact (scan_deterministic _ _ _ _ Hscan H).
Qed.

Lemma extract_task_names_correct_witness :
  literal_prefix ⟪"ABC"⟫ = true ∧
  scan ⟪"ABC"⟫ ⟪"  feature/ABC-12-login
* ABC-7-fix
"⟫ [⟪"ABC-12"⟫; ⟪"ABC-7"⟫].
Proof.
  split; [reflexivity|].
  apply (extract_task_names_correct ⟪"ABC"⟫ (mkRegex (task_regex ⟪"ABC"⟫) true));
    vm_compute; reflexivity.
Defined.

(** C26 (what an extracted identifier is): every name the extractor
    returns is a case variant of the prefix, a hyphen and a non-empty run
    of ASCII digits, and it is a piece of the [git branch] output, copied
    with its case as it appears there. *)
Theorem extract_task_names_shape p re text :
  literal_prefix p = true → task_name_re p = Some re →
  Forall (λ m, ∃ key ds, m = key ++ "-"%char :: ds ∧ eq_ignore_case key p = true ∧
                  ds ≠ [] ∧ all_digits ds ∧ ∃ before after, text = before ++ m ++ after)
    (extract_task_names re text).
Proof.
  intros Hlit Hre. apply scan_names. by apply extract_scan.
Qed.

Lemma extract_task_names_shape_witness :
  literal_prefix ⟪"abc"⟫ = true ∧
  Forall (λ m, ∃ key ds, m = key ++ "-"%char :: ds ∧ eq_ignore_case key ⟪"abc"⟫ = true ∧
                  ds ≠ [] ∧ all_digits ds ∧ ∃ before after, ⟪"x/ABC-7"⟫ = before ++ m ++ after)
    (extract_task_names (mkRegex (task_regex ⟪"abc"⟫) true) ⟪"x/ABC-7"⟫).
Proof.
  split; [reflexivity|].
  apply (extract_task_names_shape ⟪"abc"⟫); reflexivity.
Defined.

(** C27 (the regex of a plain key): for a prefix without regex
    metacharacters, building the regex of lines 43-46 succeeds (the
    [unwrap] of line 46 does not panic), and at any position it reports a
    match of length [n] exactly when the text there is a case variant of
    the prefix, ['-'], and the whole run of digits that follows (at least
    one). *)
Theorem task_name_re_spec p s n :
  literal_prefix p = true →
  ∃ re, task_name_re p = Some re ∧
   (match_at re s = Some n ↔
    ∃ m ds rest, s = m ++ "-"%char :: ds ++ rest ∧ eq_ignore_case m p = true ∧
      ds ≠ [] ∧ all_digits ds ∧ digit_run rest = 0 ∧ n = length m + S (length ds)).
Proof.
  intros Hlit. exists (mkRegex (task_regex p) true).
  rewrite task_name_re_literal, match_at_task by done. split; [done|].
  apply task_match_len_spec.
Qed.

Lemma task_name_re_spec_witness :
  literal_prefix ⟪"ABC"⟫ = true ∧
  ∃ re, task_name_re ⟪"ABC"⟫ = Some re ∧
   (match_at re ⟪"abc-42/x"⟫ = Some 6 ↔
    ∃ m ds rest, ⟪"abc-42/x"⟫ = m ++ "-"%char :: ds ++ rest ∧ eq_ignore_case m ⟪"ABC"⟫ = true ∧
      ds ≠ [] ∧ all_digits ds ∧ digit_run rest = 0 ∧ 6 = length m + S (length ds)).
Proof. split; [reflexivity|]. apply task_name_re_spec. reflexivity. Defined.

(** The scenario of the specification: two branch lines, extracted in order. *)
Example extract_scenario :
  option_map (λ re, extract_task_names re ⟪"  feature/ABC-12-login
* ABC-7-fix
"⟫) (task_name_re ⟪"ABC"⟫) = Some [⟪"ABC-12"⟫; ⟪"ABC-7"⟫].
Proof. vm_compute. reflexivity. Qed.

(** C5 (equivalence with the reference scanner): for a prefix that is a
    plain key, the names collected by lines 43-51 (regex compilation,
    [captures_iter] and the crate's empty-match bookkeeping) are exactly
    those of the naive scanner that tries a task name at each byte and
    skips past every name it takes. *)
Theorem extract_task_names_naive p re text :
  literal_prefix p = true → task_name_re p = Some re →
  extract_task_names re text = naive_extract p text.
Proof.
  intros Hlit Hre. apply (scan_deterministic p text).
  - by apply extract_scan.
  - by apply naive_scan_sound.
Qed.

Lemma extract_task_names_naive_witness :
  literal_prefix ⟪"ABC"⟫ = true ∧ task_name_re ⟪"ABC"⟫ = Some (mkRegex (task_regex ⟪"ABC"⟫) true) ∧
  extract_task_names (mkRegex (task_regex ⟪"ABC"⟫) true) ⟪"x/abc-1 ABC-22"⟫ =
    naive_extract ⟪"ABC"⟫ ⟪"x/abc-1 ABC-22"⟫.
Proof.
  assert (H1 : literal_prefix ⟪"ABC"⟫ = true) by reflexivity.
  assert (H2 : task_name_re ⟪"ABC"⟫ = Some (mkRegex (task_regex ⟪"ABC"⟫) true)) by reflexivity.
  split_and!; [exact H1|exact H2|]. exact (extract_task_names_naive _ _ _ H1 H2).
Defined.
