(* ===== verification/Base64.v ===== *)
(** * Base64: the encoder behind the Authorization header

    [src/src/main.rs] line 56 builds [format!("Basic {}",
    encode(format!("{}:{}", username, password)))] with [base64::encode]
    (standard alphabet, with [=] padding), and line 59 turns it into a
    [HeaderValue] with [from_str(..).unwrap()].  [encode] follows the
    crate's definition: each group of three bytes becomes four characters
    of the alphabet, indexed by the four 6-bit fields of the 24-bit group;
    a final group of one or two bytes is padded with [=].  [decode] is the
    inverse the server applies; the round trip [decode (encode s) = Some s]
    is proved with the arithmetic of the 24-bit groups ([Z.lor],
    [Z.shiftl], [Z.shiftr], [Z.land] turned into sums, quotients and
    remainders).  The crate is a library, so this file is written from its
    specification, not from a file of [src/]. *)

From Stdlib Require Import ZArith.
From S2P Require Import Prelude.

Definition alphabet : bytes :=
  ⟪"ABCDEFGHIJKLMNOPQRSTUVWXYZabcdefghijklmnopqrstuvwxyz0123456789+/"⟫.

Definition pad_char : ascii := "=".

(** The character for a 6-bit value. *)
Definition sextet_char (v : Z) : ascii := nth (Z.to_nat v) alphabet "A"%char.

Definition byte_val (c : ascii) : Z := Z.of_N (N_of_ascii c).

(** The 6-bit field [i] (counting from the least significant) of [n]. *)
Definition sextet (n : Z) (i : nat) : Z := Z.land (Z.shiftr n (6 * Z.of_nat i)) 63.

Definition group (a b c : ascii) : Z :=
  Z.lor (Z.shiftl (byte_val a) 16) (Z.lor (Z.shiftl (byte_val b) 8) (byte_val c)).

Fixpoint encode (s : bytes) : bytes :=
  match s with
  | a :: b :: c :: rest =>
      let n := group a b c in
      sextet_char (sextet n 3) :: sextet_char (sextet n 2) ::
      sextet_char (sextet n 1) :: sextet_char (sextet n 0) :: encode rest
  | [a; b] =>
      let n := group a b "000"%char in
      [sextet_char (sextet n 3); sextet_char (sextet n 2); sextet_char (sextet n 1); pad_char]
  | [a] =>
      let n := group a "000"%char "000"%char in
      [sextet_char (sextet n 3); sextet_char (sextet n 2); pad_char; pad_char]
  | [] => []
  end.

(** ** Decoding

    The inverse of [encode] on its output: four characters give a 24-bit
    group whose three bytes are read back with shifts and masks; [=]
    marks a final group of one or two bytes.  The program never decodes;
    [decode] specifies what the header carries (see [Main]). *)

Fixpoint index_of (c : ascii) (l : bytes) : option nat :=
  match l with
  | [] => None
  | x :: l' => if decide (x = c) then Some 0 else S <$> index_of c l'
  end.

Definition char_value (c : ascii) : option Z := Z.of_nat <$> index_of c alphabet.

Definition join4 (v0 v1 v2 v3 : Z) : Z :=
  Z.lor (Z.shiftl v0 18) (Z.lor (Z.shiftl v1 12) (Z.lor (Z.shiftl v2 6) v3)).

(** Byte [i] (counting from the least significant) of [n]. *)
Definition byte_of (n : Z) (i : nat) : ascii :=
  ascii_of_N (Z.to_N (Z.land (Z.shiftr n (8 * Z.of_nat i)) 255)).

Fixpoint decode (s : bytes) : option bytes :=
  match s with
  | [] => Some []
  | c0 :: c1 :: c2 :: c3 :: rest =>
      v0 ← char_value c0; v1 ← char_value c1;
      if bool_decide (c2 = pad_char) then
        if bool_decide (c3 = pad_char) && bool_decide (rest = [])
        then Some [byte_of (join4 v0 v1 0 0) 2] else None
      else
        v2 ← char_value c2;
        if bool_decide (c3 = pad_char) then
          if bool_decide (rest = [])
          then Some [byte_of (join4 v0 v1 v2 0) 2; byte_of (join4 v0 v1 v2 0) 1] else None
        else
          v3 ← char_value c3;
          let n := join4 v0 v1 v2 v3 in
          (λ r, byte_of n 2 :: byte_of n 1 :: byte_of n 0 :: r) <$> decode rest
  | _ => None
  end.

(** ** Lemmas *)

Lemma sextet_char_in v : sextet_char v ∈ alphabet.
Proof.
  unfold sextet_char. apply list_elem_of_In.
  destruct (decide (Z.to_nat v < length alphabet)) as [Hlt|Hge].
  - by apply nth_In.
  - rewrite nth_overflow by lia. simpl. auto.
Qed.

(** Every character of the output is a letter of the alphabet or [=]. *)
Lemma encode_chars s : Forall (λ c, c ∈ alphabet ∨ c = pad_char) (encode s).
Proof.
  induction s as [[|a [|b [|c rest]]] IH] using (induction_ltof1 _ (@length _)); simpl;
    repeat (constructor; [first [left; apply sextet_char_in | by right] |]);
    try constructor.
  apply IH. unfold ltof. simpl. lia.
Qed.

(** Four characters for every three bytes, rounded up. *)
Lemma length_encode s : length (encode s) = 4 * ((length s + 2) / 3).
Proof.
  induction s as [[|a [|b [|c rest]]] IH] using (induction_ltof1 _ (@length _));
    try reflexivity.
  cbn [encode length]. rewrite IH by (unfold ltof; simpl; lia).
  assert ((S (S (S (length rest))) + 2) / 3 = (length rest + 2) / 3 + 1) as ->; [|lia].
  rewrite <- Nat.div_add by lia. f_equal. lia.
Qed.

(** ** The round trip *)

Local Open Scope Z_scope.

Lemma byte_val_range c : 0 ≤ byte_val c < 256.
Proof. unfold byte_val. pose proof (N_ascii_bounded c). lia. Qed.

Lemma ascii_of_byte_val c : ascii_of_N (Z.to_N (byte_val c)) = c.
Proof. unfold byte_val. by rewrite N2Z.id, ascii_N_embedding. Qed.

(** Or-ing a value shifted past [k] bits with a value below [2^k] adds them. *)
Lemma lor_shiftl_add x k c : 0 ≤ k → 0 ≤ c < 2 ^ k → Z.lor (Z.shiftl x k) c = x * 2 ^ k + c.
Proof.
  intros Hk Hc. rewrite Z.shiftl_mul_pow2 by done.
  rewrite <- Z.lxor_lor, <- Z.add_nocarry_lxor; [done|..];
    apply Z.bits_inj'; intros i Hi; rewrite Z.land_spec, Z.bits_0;
    (destruct (Z.lt_ge_cases i k);
     [rewrite Z.mul_pow2_bits_low by done; done
     |rewrite <- (Z.mod_small c (2 ^ k)), Z.mod_pow2_bits_high by lia; apply andb_false_r]).
Qed.

Lemma group_val a b c :
  group a b c = byte_val a * 65536 + byte_val b * 256 + byte_val c.
Proof.
  pose proof (byte_val_range a). pose proof (byte_val_range b). pose proof (byte_val_range c).
  unfold group. rewrite (lor_shiftl_add (byte_val b) 8) by (simpl; lia).
  rewrite (lor_shiftl_add (byte_val a) 16) by (simpl; lia). simpl. lia.
Qed.

Lemma sextet_val n i : sextet n i = (n / 2 ^ (6 * Z.of_nat i)) mod 64.
Proof.
  unfold sextet. rewrite Z.shiftr_div_pow2 by lia.
  change 63 with (Z.ones 6). rewrite Z.land_ones by lia. done.
Qed.

Lemma join4_val v0 v1 v2 v3 :
  0 ≤ v1 < 64 → 0 ≤ v2 < 64 → 0 ≤ v3 < 64 →
  join4 v0 v1 v2 v3 = v0 * 262144 + v1 * 4096 + v2 * 64 + v3.
Proof.
  intros. unfold join4.
  rewrite (lor_shiftl_add v2 6) by (simpl; lia).
  rewrite (lor_shiftl_add v1 12) by (simpl; lia).
  rewrite (lor_shiftl_add v0 18) by (simpl; lia). simpl. lia.
Qed.

Lemma byte_of_val n i : byte_of n i = ascii_of_N (Z.to_N ((n / 2 ^ (8 * Z.of_nat i)) mod 256)).
Proof.
  unfold byte_of. rewrite Z.shiftr_div_pow2 by lia.
  change 255 with (Z.ones 8). rewrite Z.land_ones by lia. done.
Qed.

(** Every 6-bit value is read back from its character. *)
Lemma char_value_table :
  Forall (λ i, char_value (nth i alphabet "A"%char) = Some (Z.of_nat i)) (seq 0 64).
Proof. vm_compute. repeat constructor. Qed.

Lemma char_value_sextet_char v : 0 ≤ v < 64 → char_value (sextet_char v) = Some v.
Proof.
  intros Hv. unfold sextet_char.
  pose proof char_value_table as Ht. rewrite Forall_forall in Ht.
  rewrite Ht; [by rewrite Z2Nat.id by lia|]. apply list_elem_of_In, in_seq. lia.
Qed.

Lemma sextet_range n i : 0 ≤ sextet n i < 64.
Proof. rewrite sextet_val. apply Z.mod_pos_bound. lia. Qed.

Lemma sextet_char_not_pad v : sextet_char v ≠ pad_char.
Proof.
  intros H. pose proof (sextet_char_in v) as Hin. rewrite H in Hin.
  assert (Hd : bool_decide (pad_char ∈ alphabet) = false) by reflexivity.
  by apply bool_decide_eq_false in Hd.
Qed.

Lemma byte_back (n : Z) (c : ascii) (k : Z) :
  (n / k) mod 256 = byte_val c → ascii_of_N (Z.to_N ((n / k) mod 256)) = c.
Proof. intros ->. apply ascii_of_byte_val. Qed.

Lemma group_range a b c : 0 ≤ group a b c < 16777216.
Proof.
  rewrite group_val. pose proof (byte_val_range a). pose proof (byte_val_range b).
  pose proof (byte_val_range c). lia.
Qed.

(** The four sextets of a 24-bit group join back into it. *)
Lemma join_sextets n :
  0 ≤ n < 16777216 → join4 (sextet n 3) (sextet n 2) (sextet n 1) (sextet n 0) = n.
Proof.
  intros Hn. rewrite join4_val by apply sextet_range.
  rewrite !sextet_val. simpl. Z.div_mod_to_equations. lia.
Qed.

(** The three bytes of a group are read back from it. *)
Lemma group_bytes a b c :
  byte_of (group a b c) 2 = a ∧ byte_of (group a b c) 1 = b ∧ byte_of (group a b c) 0 = c.
Proof.
  pose proof (byte_val_range a). pose proof (byte_val_range b). pose proof (byte_val_range c).
  rewrite group_val, !byte_of_val. simpl.
  split_and!; apply byte_back; Z.div_mod_to_equations; lia.
Qed.

(** A padded group has zero low sextets. *)
Lemma sextet_pad2 a b : sextet (group a b "000") 0 = 0.
Proof.
  rewrite sextet_val, group_val. pose proof (byte_val_range a). pose proof (byte_val_range b).
  change (byte_val "000") with 0. simpl. Z.div_mod_to_equations. lia.
Qed.

Lemma sextet_pad1 a : sextet (group a "000" "000") 1 = 0 ∧ sextet (group a "000" "000") 0 = 0.
Proof.
  rewrite !sextet_val, group_val. pose proof (byte_val_range a).
  change (byte_val "000") with 0. simpl. split; Z.div_mod_to_equations; lia.
Qed.

#[export] Hint Rewrite char_value_sextet_char using apply sextet_range : anb_simpl.

(** C7 (Base64 round trip): decoding the output of [base64::encode]
    gives back the encoded bytes, for every byte string: the encoding of
    line 56 loses no information, padding included. *)
Theorem decode_encode_roundtrip s : decode (encode s) = Some s.
Proof.
  induction s as [[|a [|b [|c rest]]] IH] using (induction_ltof1 _ (@length _)); [done|..];
    cbn [encode decode]; autorewrite with anb_simpl;
    rewrite ?(bool_decide_eq_false_2 _ (sextet_char_not_pad _)); cbn.
  - rewrite bool_decide_eq_true_2 by done. cbn.
    pose proof (join_sextets _ (group_range a "000" "000")) as Hj.
    destruct (sextet_pad1 a) as [H1 H0]. rewrite H1, H0 in Hj. rewrite Hj.
    by rewrite (proj1 (group_bytes _ _ _)).
  - rewrite bool_decide_eq_true_2 by done. cbn.
    pose proof (join_sextets _ (group_range a b "000")) as Hj.
    rewrite sextet_pad2 in Hj. rewrite Hj.
    destruct (group_bytes a b "000") as (-> & -> & _). done.
  - rewrite join_sextets by apply group_range. destruct (group_bytes a b c) as (-> & -> & ->).
    rewrite IH; [done|]. unfold ltof. simpl. lia.
Qed.

Local Close Scope Z_scope.

(** C32 (shape of the encoding): the text [base64::encode] produces has
    four characters for every three bytes, rounded up, and each of them
    is a character of the alphabet or the padding [=]. *)
Theorem encode_wellformed s :
  length (encode s) = 4 * ((length s + 2) / 3) ∧
  Forall (λ c, c ∈ alphabet ∨ c = pad_char) (encode s).
Proof. split; [apply length_encode | apply encode_chars]. Qed.
