(* ===== verification/Config.v ===== *)
(** * Config: the layered settings ([src/src/main.rs] lines 26-36, 42-65)

    The program builds a [config::Config], merges the optional file
    [<preference dir>/anb.toml] (its error dropped by [.ok()]), then the
    environment variables prefixed [ANB] (its error [unwrap]ped), and
    reads the keys [prefix], [username], [password] and [server] with
    [get::<String>], each failure propagated by [?].

    [config] is the state of a [Config]: its list of sources and the cache
    that [refresh] rebuilds from all of them.  [merge] pushes a source and
    refreshes; like the crate, it keeps the source even when the refresh
    fails, so a file that does not parse makes every later refresh fail.
    [env_collect] is the crate's [Environment::collect] for the prefix
    [ANB]: a variable is kept when its name starts with [ANB_] in any case,
    and its key is the rest of the name, lower-cased.  [config_reach] are
    the states reachable by merges; their invariant relates the cache to
    the sources ([refresh_prefix]).  These follow the
    [config] crate (a library), not a file of [src/]. *)

From S2P Require Import Prelude Utf8 CaseFold.
From stdpp Require Import gmap.

(** What the [File] source yields when collected: nothing for a missing
    file ([required(false)]), its key-value pairs, or a parse error. *)
Inductive file_source :=
| FileAbsent
| FileParsed (kvs : list (bytes * bytes))
| FileMalformed.

Inductive source :=
| SrcFile (f : file_source)
| SrcEnv (vars : list (bytes * bytes)).

Abbreviation settings := (gmap bytes bytes).

Record config := Config { sources : list source; cache : settings }.

Definition config_default : config := Config [] ∅.

(** [Environment::with_prefix("ANB")]: the pattern ["ANB" + "_"]. *)
Definition env_prefix_pattern : bytes := ⟪"ANB_"⟫.

Definition env_key (name : bytes) : option bytes :=
  if bool_decide (take (length env_prefix_pattern) (to_lowercase name) =
                  to_lowercase env_prefix_pattern)
  then Some (to_lowercase (drop (length env_prefix_pattern) name))
  else None.

Definition env_collect (vars : list (bytes * bytes)) : list (bytes * bytes) :=
  omap (λ kv, (λ k, (k, kv.2)) <$> env_key kv.1) vars.

Definition collect_source (s : source) : option (list (bytes * bytes)) :=
  match s with
  | SrcFile FileAbsent => Some []
  | SrcFile (FileParsed kvs) => Some kvs
  | SrcFile FileMalformed => None
  | SrcEnv vars => Some (env_collect vars)
  end.

(** Writing collected pairs into the cache: a later pair wins. *)
Definition set_all (m : settings) (kvs : list (bytes * bytes)) : settings :=
  foldl (λ acc kv, <[kv.1 := kv.2]> acc) m kvs.

(** [Config::refresh]: rebuild the cache from every source, in order;
    [None] when a source fails to collect. *)
Fixpoint refresh_from (m : settings) (srcs : list source) : option settings :=
  match srcs with
  | [] => Some m
  | s :: rest =>
      match collect_source s with
      | None => None
      | Some kvs => refresh_from (set_all m kvs) rest
      end
  end.

Definition refresh (srcs : list source) : option settings := refresh_from ∅ srcs.

(** [Config::merge]: push the source, then refresh.  The boolean says
    whether the call returned [Ok]; on [Err] the cache is left as it was,
    but the source stays in the list. *)
Definition merge (c : config) (s : source) : config * bool :=
  let srcs := sources c ++ [s] in
  match refresh srcs with
  | Some m => (Config srcs m, true)
  | None => (Config srcs (cache c), false)
  end.

(** [Config::get::<String>(key)]: [None] is [ConfigError::NotFound]. *)
Definition get (c : config) (key : bytes) : option bytes := cache c !! key.

(** [std::env::vars()], which [Environment::collect] iterates: it panics
    on a name or a value that is not valid Unicode. *)
Definition env_unicode (vars : list (bytes * bytes)) : bool :=
  forallb (λ kv, utf8_valid kv.1 && utf8_valid kv.2) vars.

(** Lines 26-36 up to the [unwrap]: the default config, the file source
    when [BaseDirs::new()] found a preference directory, then the
    environment.  The boolean is the result of the environment merge.
    The refresh of that merge collects the sources in order and stops at
    the first error ([collect_to]); when it reaches the environment
    source, [std::env::vars()] panics on a variable that is not valid
    Unicode: [None]. *)
Definition load_config (file : option file_source) (vars : list (bytes * bytes)) :
    option (config * bool) :=
  let c1 := match file with
            | Some f => (merge config_default (SrcFile f)).1
            | None => config_default
            end in
  match refresh (sources c1) with
  | Some _ => if env_unicode vars then Some (merge c1 (SrcEnv vars)) else None
  | None => Some (merge c1 (SrcEnv vars))
  end.

(** ** Reachable configurations

    The states a [Config] passes through: the default, then any sequence
    of [merge] calls, whatever their outcome (the program ignores the
    first result and [unwrap]s the second). *)
Inductive config_reach : config → Prop :=
| reach_default : config_reach config_default
| reach_merge c s : config_reach c → config_reach (merge c s).1.

(** The settings of the longest prefix of the sources that all collect:
    what the cache holds after a failed refresh left it alone. *)
Fixpoint refresh_prefix (m : settings) (srcs : list source) : settings :=
  match srcs with
  | [] => m
  | s :: rest =>
      match collect_source s with
      | None => m
      | Some kvs => refresh_prefix (set_all m kvs) rest
      end
  end.

(** ** Lemmas *)

(** The value of the last pair with key [k], [acc] if there is none. *)
Fixpoint lookup_last (k : bytes) (acc : option bytes) (kvs : list (bytes * bytes)) : option bytes :=
  match kvs with
  | [] => acc
  | kv :: rest => lookup_last k (if decide (kv.1 = k) then Some kv.2 else acc) rest
  end.

Lemma lookup_set_all m kvs k : set_all m kvs !! k = lookup_last k (m !! k) kvs.
Proof.
  revert m. induction kvs as [|[k' v] kvs IH]; intros m; [done|]. simpl.
  rewrite IH, lookup_insert. simpl. by destruct (decide (k' = k)).
Qed.

Lemma lookup_last_acc k acc kvs :
  lookup_last k acc kvs = match lookup_last k None kvs with Some v => Some v | None => acc end.
Proof.
  revert acc. induction kvs as [|[k' v] kvs IH]; intros acc; [done|]. simpl.
  destruct (decide (k' = k)); [|apply IH].
  rewrite !(IH (Some v)). by destruct (lookup_last k None kvs).
Qed.


Lemma env_key_spec name k :
  env_key name = Some k ↔
  to_lowercase (take 4 name) = ⟪"anb_"⟫ ∧ k = to_lowercase (drop 4 name).
Proof.
  unfold env_key. change (length env_prefix_pattern) with 4.
  change (to_lowercase env_prefix_pattern) with ⟪"anb_"⟫.
  unfold to_lowercase at 1 2. rewrite firstn_map.
  case_bool_decide; split; intros; naive_solver.
Qed.

Lemma refresh_from_prefix m srcs m' :
  refresh_from m srcs = Some m' → refresh_prefix m srcs = m'.
Proof.
  revert m. induction srcs as [|s srcs IH]; intros m; simpl; [congruence|].
  destruct (collect_source s); [apply IH|done].
Qed.

Lemma refresh_from_app_none m l s :
  refresh_from m (l ++ [s]) = None → refresh_prefix m (l ++ [s]) = refresh_prefix m l.
Proof.
  revert m. induction l as [|s' l IH]; intros m; simpl.
  - by destruct (collect_source s).
  - destruct (collect_source s'); [apply IH|done].
Qed.

(** A failed refresh stays failed whatever is merged after it. *)
Lemma refresh_from_app_fail m l l' : refresh_from m l = None → refresh_from m (l ++ l') = None.
Proof.
  revert m. induction l as [|s l IH]; intros m; simpl; [done|].
  destruct (collect_source s); [apply IH|done].
Qed.


Lemma env_collect_cons kv vars :
  env_collect (kv :: vars) =
    match env_key kv.1 with Some k => (k, kv.2) :: env_collect vars | None => env_collect vars end.
Proof. unfold env_collect. simpl. by destruct (env_key kv.1). Qed.

(** The pairs a file source contributes. *)
Definition file_pairs (file : option file_source) : list (bytes * bytes) :=
  match file with Some (FileParsed kvs) => kvs | _ => [] end.

(** ** Claims *)

(** Layering of the settings: unless the preferences file fails to
    parse, and when the environment is Unicode, both merges of lines
    26-36 succeed, and a key read afterwards has the value of the last
    [ANB_]-prefixed environment variable naming it, or else the file's
    value. *)
Lemma load_config_get file vars :
  file ≠ Some FileMalformed → env_unicode vars = true →
  ∃ c, load_config file vars = Some (c, true) ∧
  ∀ k, get c k = match lookup_last k None (env_collect vars) with
                 | Some v => Some v
                 | None => lookup_last k None (file_pairs file)
                 end.
Proof.
  intros Hf Hu. unfold load_config, get.
  destruct file as [[|kvs|]|]; [| |done|]; simpl; unfold refresh; simpl; rewrite ?Hu;
    (eexists; split; [reflexivity|]); intros k; simpl; rewrite !lookup_set_all, lookup_empty;
    [by destruct (lookup_last k None (env_collect vars)) | apply lookup_last_acc
    | by destruct (lookup_last k None (env_collect vars))].
Qed.

(** A non-Unicode environment makes [std::env::vars()] panic exactly when
    the refresh of line 35 reaches the environment source, that is
    unless the preferences file fails to parse. *)
Lemma load_config_vars_panic file vars :
  env_unicode vars = false → (load_config file vars = None ↔ file ≠ Some FileMalformed).
Proof.
  intros Hu. unfold load_config. destruct file as [[|kvs|]|]; simpl; unfold refresh; simpl;
    rewrite ?Hu; split; congruence.
Qed.

(** C8 (the invariant of a [Config]): in every configuration reachable
    by merges, the cache holds the settings of the longest prefix of the
    sources that all collect; and once the sources fail to refresh, every
    later [merge] returns [Err] and leaves the cache unchanged, which is
    why a malformed file makes the [unwrap] of line 36 panic. *)
Theorem config_reach_invariant c :
  config_reach c →
  cache c = refresh_prefix ∅ (sources c) ∧
  (refresh (sources c) = None → ∀ s, (merge c s).2 = false ∧ cache (merge c s).1 = cache c).
Proof.
  intros Hr. split.
  - induction Hr as [|c s Hr IH]; [done|].
    unfold merge. destruct (refresh (sources c ++ [s])) as [m|] eqn:E; simpl.
    + symmetry. by apply refresh_from_prefix.
    + by rewrite refresh_from_app_none.
  - intros Hnone s. unfold merge, refresh in *. by rewrite refresh_from_app_fail.
Qed.

Lemma config_reach_invariant_witness :
  let c := (merge config_default (SrcFile FileMalformed)).1 in
  config_reach c ∧ refresh (sources c) = None ∧
  cache c = refresh_prefix ∅ (sources c) ∧
  (merge c (SrcEnv [(⟪"ANB_PREFIX"⟫, ⟪"ABC"⟫)])).2 = false.
Proof.
  intros c. assert (Hr : config_reach c) by (apply reach_merge, reach_default).
  assert (Hn : refresh (sources c) = None) by reflexivity.
  split_and!; [exact Hr|exact Hn|apply (config_reach_invariant c Hr)|].
  apply (proj2 (config_reach_invariant c Hr) Hn).
Defined.

