(* ===== verification/Json.v ===== *)
(** * Json: the parts of a tracker response the program reads

    Line 76 parses the response body with [serde_json::from_str] into a
    [serde_json::Value]; lines 77, 83 and 92 read
    [task["fields"]["status"]["name"].as_str()] and
    [task["fields"]["summary"].as_str()].  [json] has the constructors of
    [Value]; [index] is [Index<&str>] ([map.get(key)] on an object, [Null]
    for a missing key or any other value); [as_str] is [Value::as_str].
    The platform interface of [Main] supplies the parsed value
    ([parse_json]); the parser [serde_json::from_str] itself is modelled
    in [SerdeJson], whose [with_serde] makes it the platform's parser. *)

From S2P Require Import Prelude.

#[local] Set Warnings "-register-all".

Inductive json :=
| JNull
| JBool (b : bool)
| JNumber (repr : bytes)
| JString (s : bytes)
| JArray (items : list json)
| JObject (fields : list (bytes * json)).

(** The value of a key in an object's entries (keys are unique in a
    parsed [Map]). *)
Fixpoint assoc (k : bytes) (fields : list (bytes * json)) : option json :=
  match fields with
  | [] => None
  | (k', v) :: rest => if decide (k' = k) then Some v else assoc k rest
  end.

(** [v[key]]: [&NULL] when [v] is not an object or has no such key. *)
Definition index (v : json) (key : bytes) : json :=
  match v with
  | JObject fields => default JNull (assoc key fields)
  | _ => JNull
  end.

Definition as_str (v : json) : option bytes :=
  match v with JString s => Some s | _ => None end.

(** Line 77, before the [unwrap]. *)
Definition task_status (task : json) : option bytes :=
  as_str (index (index (index task ⟪"fields"⟫) ⟪"status"⟫) ⟪"name"⟫).

(** Lines 83 and 92, before the [unwrap]. *)
Definition task_summary (task : json) : option bytes :=
  as_str (index (index task ⟪"fields"⟫) ⟪"summary"⟫).

(** The shape of a tracker issue with a summary and a status name. *)
Definition issue_json (summary status : bytes) : json :=
  JObject [(⟪"fields"⟫, JObject [(⟪"summary"⟫, JString summary);
                                 (⟪"status"⟫, JObject [(⟪"name"⟫, JString status)])])].
