(* ===== verification/Report.v ===== *)
(** * Report: the status filter and the output line ([src/src/main.rs] lines 78-96)

    For each issue, the [match required_status] of lines 78-96 prints a
    line when no [--status] was given, or when the given status equals
    the issue's status after both are lower-cased; otherwise it prints
    nothing.  The line is [format!("{:20} {} ({})", style(branch).green(),
    summary, style(status).cyan())]: the identifier left-aligned and padded
    with spaces to at least 20 characters, never truncated.  With colours
    on, [console] wraps each styled value in an SGR escape sequence and
    applies the width to the value inside it.  [shown] is what a terminal
    displays of a text: escape sequences [ESC ... m] are consumed. *)

From S2P Require Import Prelude CaseFold.

(** The decision of lines 78-96. *)
Definition should_print (required : option bytes) (status : bytes) : bool :=
  match required with
  | Some r => eq_ignore_case r status
  | None => true
  end.

(** [{:20}] on a string: left-aligned, padded with spaces. *)
Definition pad_right (width : nat) (s : bytes) : bytes :=
  s ++ replicate (width - length s) " "%char.

Definition esc : ascii := ascii_of_nat 27.

(** [console::style(v).color()] displayed: the value between the colour's
    escape sequence and the reset sequence when colours are enabled. *)
Definition styled (colors : bool) (code : bytes) (body : bytes) : bytes :=
  if colors then [esc; "["%char] ++ code ++ ⟪"m"⟫ ++ body ++ [esc] ++ ⟪"[0m"⟫ else body.

Definition green : bytes := ⟪"32"⟫.
Definition cyan : bytes := ⟪"36"⟫.

(** The text [println!] writes for one issue (without the newline). *)
Definition render_line (colors : bool) (branch summary status : bytes) : bytes :=
  styled colors green (pad_right 20 branch) ++ ⟪" "⟫ ++ summary ++ ⟪" ("⟫ ++
  styled colors cyan status ++ ⟪")"⟫.

(** What a terminal shows of a text: an escape sequence [ESC ... m] is
    consumed, every other byte is shown.  [inside] says whether an
    escape sequence has started and not yet ended. *)
Fixpoint shown_from (inside : bool) (s : bytes) : bytes :=
  match s with
  | [] => []
  | c :: rest =>
      if inside then shown_from (negb (bool_decide (c = "m"%char))) rest
      else if bool_decide (c = esc) then shown_from true rest
      else c :: shown_from false rest
  end.

Definition shown (s : bytes) : bytes := shown_from false s.

(** ** Lemmas *)

Lemma length_pad_right w s : length (pad_right w s) = max w (length s).
Proof. unfold pad_right. rewrite length_app, length_replicate. lia. Qed.

Lemma shown_plain x y : esc ∉ x → shown (x ++ y) = x ++ shown y.
Proof.
  unfold shown. induction x as [|c x IH]; intros Hx; [done|]. simpl.
  apply not_elem_of_cons in Hx as [Hne Hx].
  rewrite bool_decide_eq_false_2 by congruence. by rewrite IH.
Qed.

(** An escape sequence whose parameters contain no [m] is not shown. *)
Lemma shown_sgr code y :
  "m"%char ∉ code → shown ([esc; "["%char] ++ code ++ ⟪"m"⟫ ++ y) = shown y.
Proof.
  intros Hc. unfold shown. cbn [app shown_from].
  rewrite bool_decide_eq_true_2 by done. cbn [negb].
  rewrite bool_decide_eq_false_2 by done. cbn [negb].
  induction code as [|c code IH]; [done|]. cbn [app shown_from].
  apply not_elem_of_cons in Hc as [Hne Hc].
  rewrite bool_decide_eq_false_2 by congruence. by apply IH.
Qed.

Lemma shown_styled code body y :
  "m"%char ∉ code → esc ∉ body → shown (styled true code body ++ y) = body ++ shown y.
Proof.
  intros Hc Hb. unfold styled. rewrite <- !app_assoc, shown_sgr, shown_plain by done.
  f_equal; apply (shown_sgr ⟪"0"⟫); set_solver.
Qed.

Lemma styled_false code body : styled false code body = body.
Proof. done. Qed.

Lemma esc_not_in_pad b : esc ∉ b → esc ∉ pad_right 20 b.
Proof.
  unfold pad_right. rewrite elem_of_app. intros Hb [|Hr]; [done|].
  apply elem_of_replicate in Hr as [Hr _]. discriminate.
Qed.

(** The side conditions: no escape byte in the texts, no [m] in the
    colour codes. *)
Ltac no_esc :=
  first [done | by apply esc_not_in_pad | apply (bool_decide_unpack _); reflexivity].


(** ** Claims *)

(** C29 (rendering bounds): without colours, an output line is the
    identifier, space padding up to column 20, one space, the summary, and
    the status in parentheses; an identifier of 20 characters or more is
    kept whole (no truncation), and the summary always starts at column
    [max 20 (length branch) + 1]. *)
Theorem render_line_layout branch summary status :
  let line := render_line false branch summary status in
  take (length branch) line = branch ∧
  drop (length branch) (take (max 20 (length branch) + 1) line) =
    replicate (max 20 (length branch) + 1 - length branch) " "%char ∧
  drop (max 20 (length branch) + 1) line = summary ++ ⟪" ("⟫ ++ status ++ ⟪")"⟫.
Proof.
  simpl. unfold render_line, styled.
  assert (length (pad_right 20 branch ++ ⟪" "⟫) = max 20 (length branch) + 1) as Hlen.
  { rewrite length_app, length_pad_right. simpl. lia. }
  rewrite app_assoc. split_and!.
  - unfold pad_right. rewrite <- !app_assoc. by rewrite take_app_length.
  - rewrite take_app_length' by done. unfold pad_right. rewrite <- app_assoc, drop_app_length.
    replace (max 20 (length branch) + 1 - length branch) with (S (20 - length branch)) by lia.
    by rewrite replicate_S_end.
  - by rewrite drop_app_length'.
Qed.

(** C31 (colours are cosmetic): with colours on, the line of lines 81-96
    shows on a terminal exactly as the plain line: [console]'s styling
    adds escape sequences around the identifier and the status and
    nothing else, when the texts themselves contain no escape byte. *)
Theorem render_line_colors_shown branch summary status :
  esc ∉ branch → esc ∉ summary → esc ∉ status →
  shown (render_line true branch summary status) = render_line false branch summary status.
Proof.
  intros Hb Hs Hst. unfold render_line. rewrite !styled_false.
  rewrite shown_styled, !shown_plain, shown_styled by no_esc. done.
Qed.

Lemma render_line_colors_shown_witness :
  (esc ∉ ⟪"ABC-12"⟫) ∧ (esc ∉ ⟪"Add login"⟫) ∧ (esc ∉ ⟪"Done"⟫) ∧
  shown (render_line true ⟪"ABC-12"⟫ ⟪"Add login"⟫ ⟪"Done"⟫) =
    render_line false ⟪"ABC-12"⟫ ⟪"Add login"⟫ ⟪"Done"⟫.
Proof.
  assert (H1 : esc ∉ ⟪"ABC-12"⟫) by no_esc.
  assert (H2 : esc ∉ ⟪"Add login"⟫) by no_esc.
  assert (H3 : esc ∉ ⟪"Done"⟫) by no_esc.
  split_and!; [exact H1|exact H2|exact H3|]. exact (render_line_colors_shown _ _ _ H1 H2 H3).
Defined.
