(* ===== verification/Main.v ===== *)
(** * Main: the program ([src/src/main.rs] lines 12-99)

    [main] runs in [M]: a computation that produces a result and the list
    of observable events it caused, in order: the tracker requests it
    sends and the lines it prints.  A result is a value, an error
    propagated by [?] (the process exits non-zero with the error's
    message) or a panic (the process aborts): an [unwrap], or
    [std::env::vars()] inside the environment merge of line 35.

    Everything outside the program comes from the [Platform] interface:
    the preference directory, the config file, the environment, the
    output of [git branch], the HTTP client and the JSON parser.  The
    theorems of this file hold for every instance of it.

    [prepare] is lines 26-66: load the settings, run [git branch], read
    the prefix, build the regex and collect the identifiers, read the
    credentials, build the Authorization header and the client, read the
    server.  [process_branch] is the body of the loop of lines 67-97 for
    one identifier, and [main] runs it for each identifier in order.
    [silent] computations emit no event; [avoids] ones never end in a
    given panic: both are proved compositionally with hint databases. *)

From S2P Require Import Prelude CaseFold Regex Extract Base64 Config Json Report.
From stdpp Require Import gmap.

(** ** Results, events and the monad *)

Inductive error :=
| ExecError                    (** line 40: [capture()?] *)
| ConfigNotFound (key : bytes) (** lines 42, 54, 55, 65: [settings.get(..)?] *)
| ClientBuildError             (** line 63: [build()?] *)
| ResponseTextError            (** line 75: [text()?] *)
| JsonParseError.              (** line 76: [serde_json::from_str(..)?] *)

Inductive panic_site :=
| PanicPreferenceDir  (** line 28: [to_str().unwrap()] *)
| PanicEnvVars        (** line 35: [std::env::vars()] in [Environment::collect] *)
| PanicEnvMerge       (** line 36: [merge(Environment..).unwrap()] *)
| PanicRegex          (** line 46: [build().unwrap()] *)
| PanicHeaderValue    (** line 59: [HeaderValue::from_str(..).unwrap()] *)
| PanicSend           (** line 74: [send().unwrap()] *)
| PanicStatus         (** line 77: [as_str().unwrap()] of the status *)
| PanicSummary.       (** lines 83, 92: [as_str().unwrap()] of the summary *)

Inductive event :=
| Request (url : bytes)
| Print (line : bytes).

Inductive res (A : Type) :=
| ROk (a : A)
| RErr (e : error)
| RPanic (p : panic_site).
Arguments ROk {A} a.
Arguments RErr {A} e.
Arguments RPanic {A} p.

Definition M (A : Type) : Type := res A * list event.

#[export] Instance M_ret : MRet M := λ A a, (ROk a, []).

#[export] Instance M_bind : MBind M := λ A B f m,
  match m.1 with
  | ROk a => ((f a).1, m.2 ++ (f a).2)
  | RErr e => (RErr e, m.2)
  | RPanic p => (RPanic p, m.2)
  end.

Definition emit (e : event) : M unit := (ROk tt, [e]).
Definition throw {A} (e : error) : M A := (RErr e, []).
Definition panic {A} (p : panic_site) : M A := (RPanic p, []).

(** [o.unwrap()] *)
Definition unwrap {A} (p : panic_site) (o : option A) : M A :=
  match o with Some a => mret a | None => panic p end.

(** [o?] on a fallible call *)
Definition try_ {A} (e : error) (o : option A) : M A :=
  match o with Some a => mret a | None => throw e end.

Fixpoint for_each {A} (f : A → M unit) (l : list A) : M unit :=
  match l with
  | [] => mret tt
  | x :: xs => f x ;; for_each f xs
  end.

(** The lines a run printed. *)
Definition printed (tr : list event) : list bytes :=
  omap (λ e, match e with Print l => Some l | _ => None end) tr.

(** The requests a run sent. *)
Definition requests (tr : list event) : list bytes :=
  omap (λ e, match e with Request u => Some u | _ => None end) tr.

(** ** The platform interface *)

(** [Exec::shell("git branch").capture()]: the exit status and standard
    output of the command.  [capture] fails only when the shell cannot be
    started; a non-zero exit status is not an error. *)
Record capture_data := CaptureData { exit_status : nat; stdout : bytes }.

(** [client.get(url).send()] then [.text()]. *)
Inductive response :=
| SendFailed
| TextFailed
| Body (text : bytes).

Class Platform := {
  (** [BaseDirs::new()] and [preference_dir().to_str()] *)
  preference_dir : option (option bytes);
  (** what [File::with_name(path).required(false)] collects *)
  config_file : bytes → file_source;
  env_vars : list (bytes * bytes);
  git_branch : option capture_data;
  (** [reqwest::blocking::Client::builder()...build()] succeeds *)
  client_builds : bool;
  http_get : bytes → response;
  (** [serde_json::from_str] *)
  parse_json : bytes → option json;
  (** whether [console] styles the output *)
  colors_enabled : bool
}.

(** [HeaderValue::from_str]: visible ASCII, space and tab only. *)
Definition header_value_valid (s : bytes) : bool :=
  forallb (λ c, let n := nat_of_ascii c in (n =? 9) || ((32 <=? n) && negb (n =? 127))) s.

(** Line 56. *)
Definition auth_header (username password : bytes) : bytes :=
  ⟪"Basic "⟫ ++ Base64.encode (username ++ ⟪":"⟫ ++ password).

(** Line 70. *)
Definition issue_url (server branch : bytes) : bytes :=
  ⟪"https://"⟫ ++ server ++ ⟪"/rest/api/latest/issue/"⟫ ++ branch.

Section Program.
Context {P : Platform}.

(** Lines 26-36. *)
Definition load_settings : M config :=
  file ← match preference_dir with
         | None => mret None
         | Some dir =>
             d ← unwrap PanicPreferenceDir dir;
             mret (Some (config_file (d ++ ⟪"/anb.toml"⟫)))
         end;
  match load_config file env_vars with
  | None => panic PanicEnvVars
  | Some (c, ok) => if ok then mret c else panic PanicEnvMerge
  end.

Definition get_setting (c : config) (key : bytes) : M bytes :=
  try_ (ConfigNotFound key) (get c key).

(** Lines 26-66: the server and the identifiers. *)
Definition prepare : M (bytes * list bytes) :=
  settings ← load_settings;
  cd ← try_ ExecError git_branch;
  prefix ← get_setting settings ⟪"prefix"⟫;
  re ← unwrap PanicRegex (task_name_re prefix);
  let names := extract_task_names re (stdout cd) in
  username ← get_setting settings ⟪"username"⟫;
  password ← get_setting settings ⟪"password"⟫;
  (if header_value_valid (auth_header username password) then mret tt
   else panic PanicHeaderValue);;
  (if client_builds then mret tt else throw ClientBuildError);;
  server ← get_setting settings ⟪"server"⟫;
  mret (server, names).

(** Lines 68-75. *)
Definition fetch (url : bytes) : M bytes :=
  match http_get url with
  | SendFailed => panic PanicSend
  | TextFailed => throw ResponseTextError
  | Body b => mret b
  end.

(** Lines 68-96, one iteration of the loop. *)
Definition process_branch (server : bytes) (required : option bytes) (branch : bytes) : M unit :=
  let url := issue_url server branch in
  emit (Request url);;
  data ← fetch url;
  task ← try_ JsonParseError (parse_json data);
  status ← unwrap PanicStatus (task_status task);
  if should_print required status then
    summary ← unwrap PanicSummary (task_summary task);
    emit (Print (render_line colors_enabled branch summary status))
  else mret tt.

(** Lines 12-99; [required_status] is the [--status] argument. *)
Definition main (required_status : option bytes) : M unit :=
  '(server, names) ← prepare;
  for_each (process_branch server required_status) names.
End Program.

(** ** The monad *)

Lemma bind_ret_l {A B} (a : A) (f : A → M B) : (x ← mret a; f x) = f a.
Proof. cbv [mbind mret M_bind M_ret]. simpl. by destruct (f a). Qed.

Lemma bind_ok {A B} (a : A) t (f : A → M B) :
  ((ROk a, t) ≫= f) = ((f a).1, t ++ (f a).2).
Proof. done. Qed.

Lemma bind_err {A B} e t (f : A → M B) : ((RErr e, t) ≫= f) = (RErr e, t).
Proof. done. Qed.

Lemma bind_panic {A B} p t (f : A → M B) : ((RPanic p, t) ≫= f) = (RPanic p, t).
Proof. done. Qed.

Lemma bind_assoc {A B C} (m : M A) (f : A → M B) (g : B → M C) :
  ((m ≫= f) ≫= g) = (m ≫= λ x, f x ≫= g).
Proof.
  cbv [mbind M_bind]. destruct m as [[a|e|p] t]; simpl; [|done|done].
  destruct (f a) as [[b|e|p] t']; simpl; [|done|done]. by rewrite app_assoc.
Qed.

#[export] Hint Rewrite @bind_ret_l @bind_ok @bind_err @bind_panic : anb_simpl.

(** Unfold the monad's operations so that [cbn] runs a computation whose
    outcomes are known. *)
Ltac mred := cbv [mbind M_bind mret M_ret emit try_ unwrap panic throw].

(** [cbn] that leaves string literals folded, so that hypotheses about
    them still apply. *)
Ltac mcbn := cbn -[list_ascii_of_string].

(** A loop whose every iteration succeeds: the traces in order. *)
Lemma for_each_ok {A} (f : A → M unit) (tr : A → list event) (l : list A) :
  (∀ x, x ∈ l → f x = (ROk tt, tr x)) → for_each f l = (ROk tt, flat_map tr l).
Proof.
  induction l as [|x l IH]; intros Hf; [done|]. simpl.
  rewrite Hf by set_solver. rewrite bind_ok, IH by set_solver. done.
Qed.

(** A loop that fails at an element: the traces before it, then the
    failing iteration's trace, and nothing after. *)
Lemma for_each_fail {A} (f : A → M unit) (tr : A → list event) pre x post r t :
  (∀ y, y ∈ pre → f y = (ROk tt, tr y)) → f x = (r, t) → r ≠ ROk tt →
  for_each f (pre ++ x :: post) = (r, flat_map tr pre ++ t).
Proof.
  intros Hpre Hx Hr. induction pre as [|y pre IH]; simpl.
  - rewrite Hx. destruct r as [[]|e|p]; done.
  - rewrite Hpre by set_solver. rewrite bind_ok, IH by set_solver. simpl.
    by rewrite app_assoc.
Qed.

Lemma bind_ok_inv {A B} (m : M A) (f : A → M B) b :
  (m ≫= f).1 = ROk b → ∃ a, m.1 = ROk a ∧ (f a).1 = ROk b.
Proof. cbv [mbind M_bind]. destruct m as [[a|e|p] t]; simpl; [eauto|done|done]. Qed.

(** A loop that succeeds succeeded on every element. *)
Lemma for_each_ok_inv {A} (f : A → M unit) l :
  (for_each f l).1 = ROk tt → ∀ x, x ∈ l → (f x).1 = ROk tt.
Proof.
  induction l as [|y l IH]; simpl; intros H x Hx; [set_solver|].
  apply bind_ok_inv in H as ([] & Hy & Hl).
  apply elem_of_cons in Hx as [->|Hx]; [done|by apply IH].
Qed.

Lemma printed_app t1 t2 : printed (t1 ++ t2) = printed t1 ++ printed t2.
Proof. apply omap_app. Qed.

Lemma requests_app t1 t2 : requests (t1 ++ t2) = requests t1 ++ requests t2.
Proof. apply omap_app. Qed.

#[export] Hint Rewrite printed_app requests_app : anb_simpl.

(** ** One iteration of the loop *)

Section Loop.
Context {P : Platform}.

(** The events of one identifier whose issue could be read. *)
Definition branch_trace (server : bytes) (required : option bytes)
    (branch summary status : bytes) : list event :=
  Request (issue_url server branch) ::
  if should_print required status
  then [Print (render_line colors_enabled branch summary status)] else [].

Lemma process_branch_ok server required branch body task status summary :
  http_get (issue_url server branch) = Body body →
  parse_json body = Some task →
  task_status task = Some status →
  (should_print required status = true → task_summary task = Some summary) →
  process_branch server required branch =
    (ROk tt, branch_trace server required branch summary status).
Proof.
  intros Hget Hjson Hst Hsum. unfold process_branch, fetch, branch_trace. mred.
  rewrite Hget. cbn. rewrite Hjson. cbn. rewrite Hst. cbn.
  destruct (should_print required status); [|done].
  rewrite Hsum by done. done.
Qed.
End Loop.

(** ** The Authorization header is always a valid header value *)

Lemma alphabet_valid : forallb (λ c, let n := nat_of_ascii c in
  (n =? 9) || ((32 <=? n) && negb (n =? 127))) (alphabet ++ [pad_char]) = true.
Proof. reflexivity. Qed.

Lemma auth_header_valid username password :
  header_value_valid (auth_header username password) = true.
Proof.
  unfold header_value_valid, auth_header. rewrite forallb_app. apply andb_true_iff.
  split; [reflexivity|]. apply forallb_forall. intros c Hc.
  pose proof (encode_chars (username ++ ⟪":"⟫ ++ password)) as Hall.
  rewrite Forall_forall in Hall. apply list_elem_of_In, Hall in Hc.
  pose proof alphabet_valid as Hv. rewrite forallb_forall in Hv. apply Hv.
  apply list_elem_of_In, elem_of_app.
  destruct Hc as [Hc| ->]; [by left | right; by apply list_elem_of_singleton].
Qed.

(** ** The setup phase *)

Section Setup.
Context {P : Platform}.


(** Lines 26-36 once the preference directory is known: the file that
    line 29 merges, if any, then [load_config]. *)
Lemma load_settings_file :
  preference_dir ≠ Some None →
  load_settings =
    match load_config (match preference_dir with
                       | Some (Some d) => Some (config_file (d ++ ⟪"/anb.toml"⟫))
                       | _ => None
                       end) env_vars with
    | None => (RPanic PanicEnvVars, [])
    | Some (c, ok) => if ok then (ROk c, []) else (RPanic PanicEnvMerge, [])
    end.
Proof.
  intros Hd. unfold load_settings.
  destruct preference_dir as [[d|]|]; [|done|]; cbv [unwrap]; rewrite ?bind_ret_l;
    by destruct (load_config _ env_vars) as [[c []]|].
Qed.

Lemma load_settings_malformed d :
  preference_dir = Some (Some d) → config_file (d ++ ⟪"/anb.toml"⟫) = FileMalformed →
  load_settings = (RPanic PanicEnvMerge, []).
Proof.
  intros Hd Hf. unfold load_settings. rewrite Hd. mred. mcbn.
  rewrite Hf. done.
Qed.

Lemma prepare_ok c cd prefix user pass server :
  load_settings = (ROk c, []) →
  git_branch = Some cd →
  get c ⟪"prefix"⟫ = Some prefix → literal_prefix prefix = true →
  get c ⟪"username"⟫ = Some user → get c ⟪"password"⟫ = Some pass →
  client_builds = true → get c ⟪"server"⟫ = Some server →
  prepare = (ROk (server, extract_task_names (mkRegex (task_regex prefix) true) (stdout cd)), []).
Proof.
  intros Hload Hgit Hp Hlit Hu Hpw Hcl Hs. unfold prepare, get_setting.
  rewrite Hload. mred. mcbn. rewrite Hgit. mcbn. rewrite Hp. mcbn.
  rewrite task_name_re_literal by done. mcbn. rewrite Hu. mcbn. rewrite Hpw. mcbn.
  rewrite auth_header_valid. mcbn. rewrite Hcl. mcbn. rewrite Hs. done.
Qed.

Lemma main_prepared server names req :
  prepare = (ROk (server, names), []) →
  main req = for_each (process_branch server req) names.
Proof. intros Hp. unfold main. rewrite Hp, bind_ok. simpl. by destruct (for_each _ _). Qed.

End Setup.

(** ** Panic sites that cannot be reached *)

(** [m] does not end in a panic at [p]. *)
Definition avoids {A} (p : panic_site) (m : M A) : Prop := m.1 ≠ RPanic p.

Create HintDb no_panic discriminated.

Lemma avoids_ret {A} p (a : A) : avoids p (mret a).
Proof. done. Qed.

Lemma avoids_bind {A B} p (m : M A) (f : A → M B) :
  avoids p m → (∀ a, avoids p (f a)) → avoids p (m ≫= f).
Proof.
  intros Hm Hf. unfold avoids in *. cbv [mbind M_bind].
  destruct m as [[a|e|q] t]; simpl in *; [apply Hf|discriminate|intros [= ->]; by apply Hm].
Qed.

Lemma avoids_emit p e : avoids p (emit e).
Proof. done. Qed.

Lemma avoids_throw {A} p e : avoids p (@throw A e).
Proof. done. Qed.

Lemma avoids_panic {A} p q : q ≠ p → avoids p (@panic A q).
Proof. unfold avoids. simpl. congruence. Qed.

Lemma avoids_unwrap {A} p q (o : option A) : q ≠ p → avoids p (unwrap q o).
Proof. unfold avoids. destruct o; simpl; congruence. Qed.

Lemma avoids_try {A} p e (o : option A) : avoids p (try_ e o).
Proof. by destruct o. Qed.

Lemma avoids_if {A} p (b : bool) (m1 m2 : M A) :
  avoids p m1 → avoids p m2 → avoids p (if b then m1 else m2).
Proof. by destruct b. Qed.

Lemma avoids_for_each {A} p (f : A → M unit) l :
  (∀ x, avoids p (f x)) → avoids p (for_each f l).
Proof. intros Hf. induction l; simpl; [done|]. by apply avoids_bind. Qed.

Lemma avoids_header u pw :
  avoids PanicHeaderValue
    (if header_value_valid (auth_header u pw) then mret tt else panic PanicHeaderValue).
Proof. by rewrite auth_header_valid. Qed.

#[export] Hint Resolve avoids_header avoids_ret avoids_bind avoids_emit avoids_throw
  avoids_panic avoids_unwrap avoids_try avoids_if avoids_for_each : no_panic.

Ltac avoid := repeat (intros; cbv zeta); eauto 20 with no_panic; discriminate.

(** ** Computations that emit nothing *)

(** [m] sends no request and prints nothing, whatever its result. *)
Definition silent {A} (m : M A) : Prop := m.2 = [].

Create HintDb silent discriminated.

Lemma silent_ret {A} (a : A) : silent (mret a).
Proof. done. Qed.

Lemma silent_bind {A B} (m : M A) (f : A → M B) :
  silent m → (∀ a, silent (f a)) → silent (m ≫= f).
Proof.
  unfold silent. intros Hm Hf. cbv [mbind M_bind].
  destruct m as [[a|e|q] t]; simpl in *; rewrite ?Hm, ?Hf; done.
Qed.

Lemma silent_throw {A} e : silent (@throw A e).
Proof. done. Qed.

Lemma silent_panic {A} p : silent (@panic A p).
Proof. done. Qed.

Lemma silent_unwrap {A} p (o : option A) : silent (unwrap p o).
Proof. by destruct o. Qed.

Lemma silent_try {A} e (o : option A) : silent (try_ e o).
Proof. by destruct o. Qed.

Lemma silent_if {A} (b : bool) (m1 m2 : M A) :
  silent m1 → silent m2 → silent (if b then m1 else m2).
Proof. by destruct b. Qed.

#[export] Hint Resolve silent_ret silent_bind silent_throw silent_panic silent_unwrap
  silent_try silent_if : silent.

(** ** A stub platform: the scenario of the specification *)

Definition stub_server : bytes := ⟪"jira.example.com"⟫.
Definition stub_branches : bytes := ⟪"  feature/ABC-12-login
* ABC-7-fix
"⟫.

Definition stub_summary (b : bytes) : bytes :=
  if decide (b = ⟪"ABC-12"⟫) then ⟪"Add login"⟫ else ⟪"Fix crash"⟫.
Definition stub_status (b : bytes) : bytes :=
  if decide (b = ⟪"ABC-12"⟫) then ⟪"In Progress"⟫ else ⟪"Done"⟫.

Definition stub : Platform := {|
  preference_dir := None;
  config_file := λ _, FileAbsent;
  env_vars := [(⟪"ANB_PREFIX"⟫, ⟪"ABC"⟫); (⟪"ANB_SERVER"⟫, stub_server);
               (⟪"ANB_USERNAME"⟫, ⟪"user"⟫); (⟪"ANB_PASSWORD"⟫, ⟪"secret"⟫)];
  git_branch := Some (CaptureData 0 stub_branches);
  client_builds := true;
  http_get := λ url,
    if decide (url = issue_url stub_server ⟪"ABC-12"⟫) then Body ⟪"b12"⟫
    else if decide (url = issue_url stub_server ⟪"ABC-7"⟫) then Body ⟪"b7"⟫
    else TextFailed;
  parse_json := λ b,
    if decide (b = ⟪"b12"⟫) then Some (issue_json ⟪"Add login"⟫ ⟪"In Progress"⟫)
    else if decide (b = ⟪"b7"⟫) then Some (issue_json ⟪"Fix crash"⟫ ⟪"Done"⟫)
    else None;
  colors_enabled := false |}.

(** The same world in which the tracker cannot answer for [ABC-7]. *)
Definition stub_failing : Platform := {|
  preference_dir := None;
  config_file := λ _, FileAbsent;
  env_vars := @env_vars stub;
  git_branch := @git_branch stub;
  client_builds := true;
  http_get := λ url,
    if decide (url = issue_url stub_server ⟪"ABC-12"⟫) then Body ⟪"b12"⟫ else TextFailed;
  parse_json := @parse_json stub;
  colors_enabled := false |}.

(** ** Helper lemmas for the claims *)

Section Helpers.
Context {P : Platform}.

(** The tracker answers [b] with an issue whose status is [status] and,
    whenever the line is printed, whose summary is [summary]. *)
Definition tracker_serves (server : bytes) (req : option bytes)
    (b summary status : bytes) : Prop :=
  ∃ body task, http_get (issue_url server b) = Body body ∧ parse_json body = Some task ∧
    task_status task = Some status ∧
    (should_print req status = true → task_summary task = Some summary).

(** An iteration that succeeds read the issue of its identifier: a body,
    its JSON, a status, and a summary when the line was printed. *)
Lemma process_branch_ok_inv server req b :
  (process_branch server req b).1 = ROk tt → ∃ summary status, tracker_serves server req b summary status.
Proof.
  unfold process_branch, fetch, tracker_serves. intros H.
  destruct (http_get (issue_url server b)) as [| |body] eqn:Hg; mred; cbn -[list_ascii_of_string] in H; try done.
  destruct (parse_json body) as [task|] eqn:Hj; cbn -[list_ascii_of_string] in H; [|done].
  destruct (task_status task) as [status|] eqn:Hs; cbn -[list_ascii_of_string] in H; [|done].
  destruct (should_print req status) eqn:Hp.
  - destruct (task_summary task) as [summary|] eqn:Hsum; cbn -[list_ascii_of_string] in H; [|done].
    exists summary, status, body, task. naive_solver.
  - exists [], status, body, task. split_and!; try done. intros. congruence.
Qed.

Lemma loop_ok server req (summ stat : bytes → bytes) names :
  (∀ b, b ∈ names → tracker_serves server req b (summ b) (stat b)) →
  for_each (process_branch server req) names =
    (ROk tt, flat_map (λ b, branch_trace server req b (summ b) (stat b)) names).
Proof.
  intros Hs. apply for_each_ok. intros b Hb.
  destruct (Hs b Hb) as (body & task & Hg & Hj & Hst & Hsum).
  by apply (process_branch_ok _ _ _ body task).
Qed.

Lemma loop_fail server req (summ stat : bytes → bytes) pre b post r t :
  (∀ y, y ∈ pre → tracker_serves server req y (summ y) (stat y)) →
  process_branch server req b = (r, t) → r ≠ ROk tt →
  for_each (process_branch server req) (pre ++ b :: post) =
    (r, flat_map (λ y, branch_trace server req y (summ y) (stat y)) pre ++ t).
Proof.
  intros Hs Hb Hr. apply for_each_fail; [|done|done]. intros y Hy.
  destruct (Hs y Hy) as (body & task & Hg & Hj & Hst & Hsum).
  by apply (process_branch_ok _ _ _ body task).
Qed.

Lemma printed_branch_trace server req b summary status :
  printed (branch_trace server req b summary status) =
    if should_print req status then [render_line colors_enabled b summary status] else [].
Proof. unfold branch_trace. by destruct (should_print req status). Qed.


(** An issue served to the unfiltered run is served to any filter: the
    summary is only read when the line is printed. *)
Lemma tracker_serves_none server req b summary status :
  tracker_serves server None b summary status → tracker_serves server req b summary status.
Proof. intros (body & task & ? & ? & ? & Hsum). exists body, task. split_and!; auto. Qed.

(** The lines of a loop whose every identifier is served: those whose
    status passes the filter, in order. *)
Lemma loop_printed server req names (summ stat : bytes → bytes) :
  (∀ b, b ∈ names → tracker_serves server req b (summ b) (stat b)) →
  (for_each (process_branch server req) names).1 = ROk tt ∧
  printed (for_each (process_branch server req) names).2 =
    map (λ b, render_line colors_enabled b (summ b) (stat b))
      (filter (λ b, should_print req (stat b) = true) names).
Proof.
  intros Hs. rewrite (loop_ok _ _ _ _ _ Hs). split; [done|]. simpl. clear Hs.
  induction names as [|b names IH]; [done|]. cbn [flat_map].
  rewrite printed_app, printed_branch_trace, IH, filter_cons.
  by destruct (should_print req (stat b)).
Qed.

Lemma extract_nil p : extract_task_names (mkRegex (task_regex p) true) [] = [].
Proof.
  unfold extract_task_names. rewrite captures_iter_spans by apply task_nonempty.
  simpl. unfold find_at. simpl. rewrite match_at_task. by destruct p.
Qed.

Lemma load_settings_avoids : avoids PanicHeaderValue load_settings.
Proof.
  unfold load_settings. apply avoids_bind.
  - destruct preference_dir; avoid.
  - intros f. destruct (load_config f env_vars) as [[c []]|]; avoid.
Qed.

Lemma prepare_avoids : avoids PanicHeaderValue prepare.
Proof. unfold prepare, get_setting. apply avoids_bind; [apply load_settings_avoids|avoid]. Qed.

Lemma process_branch_avoids server req b : avoids PanicHeaderValue (process_branch server req b).
Proof. unfold process_branch, fetch. destruct (http_get _); avoid. Qed.

Lemma load_settings_silent : silent load_settings.
Proof.
  unfold load_settings. apply silent_bind.
  - destruct preference_dir; eauto with silent.
  - intros f. destruct (load_config f env_vars) as [[c []]|]; eauto with silent.
Qed.

Lemma prepare_silent_lemma : silent prepare.
Proof.
  unfold prepare, get_setting. apply silent_bind; [apply load_settings_silent|].
  repeat (intros; cbv zeta); eauto 20 with silent.
Qed.
End Helpers.

(** ** Claims *)

(** C2 (functional behaviour of a run): once the setup of lines 26-66 has
    produced the server and the identifiers, and the tracker answers each
    identifier with an issue, the program succeeds, and its events are,
    identifier by identifier in extraction order, the request for that
    issue followed by its line when the status filter lets it through. *)
Theorem main_trace {P : Platform} server names req (summ stat : bytes → bytes) :
  prepare = (ROk (server, names), []) →
  (∀ b, b ∈ names → tracker_serves server req b (summ b) (stat b)) →
  main req = (ROk tt, flat_map (λ b, branch_trace server req b (summ b) (stat b)) names).
Proof. intros Hp Hs. rewrite (main_prepared _ _ _ Hp). by apply loop_ok. Qed.

Lemma stub_serves req b :
  b ∈ [⟪"ABC-12"⟫; ⟪"ABC-7"⟫] →
  tracker_serves (P := stub) stub_server req b (stub_summary b) (stub_status b).
Proof.
  rewrite list_elem_of_In. intros [<-|[<-|[]]]; eexists _, _; split_and!;
    try (vm_compute; reflexivity); intros _; vm_compute; reflexivity.
Qed.

Lemma main_trace_witness :
  prepare (P := stub) = (ROk (stub_server, [⟪"ABC-12"⟫; ⟪"ABC-7"⟫]), []) ∧
  main (P := stub) None =
    (ROk tt, flat_map (λ b, branch_trace (P := stub) stub_server None b (stub_summary b)
                              (stub_status b)) [⟪"ABC-12"⟫; ⟪"ABC-7"⟫]).
Proof.
  assert (Hp : prepare (P := stub) = (ROk (stub_server, [⟪"ABC-12"⟫; ⟪"ABC-7"⟫]), []))
    by (vm_compute; reflexivity).
  split; [exact Hp|]. apply (main_trace _ _ None stub_summary stub_status Hp).
  intros b Hb. by apply stub_serves.
Defined.

(** C3 (filter round trip, exactly-once): under the same conditions, the
    unfiltered run prints one line per identifier, in order, and the run
    with [--status x] prints exactly the lines of the unfiltered run whose
    issue status equals [x] up to case, in the same order. *)
Theorem main_filter_roundtrip {P : Platform} server names x (summ stat : bytes → bytes) :
  prepare = (ROk (server, names), []) →
  (∀ b, b ∈ names → tracker_serves server None b (summ b) (stat b)) →
  let line b := render_line colors_enabled b (summ b) (stat b) in
  printed (main None).2 = map line names ∧
  printed (main (Some x)).2 = map line (filter (λ b, eq_ignore_case x (stat b) = true) names).
Proof.
  intros Hp Hs line. rewrite !(main_prepared _ _ _ Hp).
  assert (Hx : ∀ b, b ∈ names → tracker_serves server (Some x) b (summ b) (stat b))
    by (intros; by apply tracker_serves_none, Hs).
  rewrite (proj2 (loop_printed _ _ _ _ _ Hs)), (proj2 (loop_printed _ _ _ _ _ Hx)).
  split; [|done]. f_equal. clear. induction names as [|b names IH]; [done|].
  by rewrite filter_cons, IH.
Qed.

Lemma main_filter_roundtrip_witness :
  prepare (P := stub) = (ROk (stub_server, [⟪"ABC-12"⟫; ⟪"ABC-7"⟫]), []) ∧
  printed (main (P := stub) (Some ⟪"done"⟫)).2 =
    map (λ b, render_line false b (stub_summary b) (stub_status b))
      (filter (λ b, eq_ignore_case ⟪"done"⟫ (stub_status b) = true) [⟪"ABC-12"⟫; ⟪"ABC-7"⟫]).
Proof.
  assert (Hp : prepare (P := stub) = (ROk (stub_server, [⟪"ABC-12"⟫; ⟪"ABC-7"⟫]), []))
    by (vm_compute; reflexivity).
  split; [exact Hp|].
  exact (proj2 (main_filter_roundtrip (P := stub) _ _ ⟪"done"⟫ stub_summary stub_status Hp
                  (λ b Hb, stub_serves None b Hb))).
Defined.

(** The scenario of the specification, run end to end on the stub. *)
Example main_scenario :
  printed (main (P := stub) None).2 =
    [⟪"ABC-12               Add login (In Progress)"⟫; ⟪"ABC-7                Fix crash (Done)"⟫] ∧
  printed (main (P := stub) (Some ⟪"done"⟫)).2 = [⟪"ABC-7                Fix crash (Done)"⟫].
Proof. split; vm_compute; reflexivity. Qed.

(** C4 (one request per identifier): under the conditions of C2, the
    program sends exactly one GET per extracted identifier, to
    [https://{server}/rest/api/latest/issue/{identifier}], in extraction
    order, duplicates included, with the identifier as it appears in the
    branch listing. *)
Theorem main_requests {P : Platform} server names req (summ stat : bytes → bytes) :
  prepare = (ROk (server, names), []) →
  (∀ b, b ∈ names → tracker_serves server req b (summ b) (stat b)) →
  requests (main req).2 = map (issue_url server) names.
Proof.
  intros Hp Hs. rewrite (main_prepared _ _ _ Hp), (loop_ok _ _ _ _ _ Hs). simpl.
  clear Hp Hs. induction names as [|b names IH]; [done|].
  cbn [flat_map map]. rewrite requests_app, IH. unfold branch_trace.
  by destruct (should_print req (stat b)).
Qed.

Lemma main_requests_witness :
  prepare (P := stub) = (ROk (stub_server, [⟪"ABC-12"⟫; ⟪"ABC-7"⟫]), []) ∧
  requests (main (P := stub) (Some ⟪"done"⟫)).2 =
    map (issue_url stub_server) [⟪"ABC-12"⟫; ⟪"ABC-7"⟫].
Proof.
  assert (Hp : prepare (P := stub) = (ROk (stub_server, [⟪"ABC-12"⟫; ⟪"ABC-7"⟫]), []))
    by (vm_compute; reflexivity).
  split; [exact Hp|].
  exact (main_requests _ _ _ stub_summary stub_status Hp (λ b Hb, stub_serves _ b Hb)).
Defined.

(** C9 (no fail-fast report): when the response body of one identifier
    cannot be read ([text()?], line 75), the run ends with that error,
    but the lines of the identifiers before it have already been printed:
    the report is partial, and nothing after the failing request happens. *)
Theorem main_partial_output {P : Platform} server pre b post req (summ stat : bytes → bytes) :
  prepare = (ROk (server, pre ++ b :: post), []) →
  (∀ y, y ∈ pre → tracker_serves server req y (summ y) (stat y)) →
  http_get (issue_url server b) = TextFailed →
  main req = (RErr ResponseTextError,
              flat_map (λ y, branch_trace server req y (summ y) (stat y)) pre ++
              [Request (issue_url server b)]).
Proof.
  intros Hp Hs Hb. rewrite (main_prepared _ _ _ Hp).
  apply (loop_fail _ _ _ _ _ _ _ _ _ Hs); [|done].
  unfold process_branch, fetch. mred. mcbn. by rewrite Hb.
Qed.

Lemma main_partial_output_witness :
  prepare (P := stub_failing) = (ROk (stub_server, [⟪"ABC-12"⟫] ++ ⟪"ABC-7"⟫ :: []), []) ∧
  http_get (Platform := stub_failing) (issue_url stub_server ⟪"ABC-7"⟫) = TextFailed ∧
  printed (main (P := stub_failing) None).2 = [⟪"ABC-12               Add login (In Progress)"⟫].
Proof.
  assert (Hp : prepare (P := stub_failing) =
                 (ROk (stub_server, [⟪"ABC-12"⟫] ++ ⟪"ABC-7"⟫ :: []), []))
    by (vm_compute; reflexivity).
  assert (Hb : http_get (Platform := stub_failing) (issue_url stub_server ⟪"ABC-7"⟫) = TextFailed)
    by (vm_compute; reflexivity).
  split_and!; [exact Hp|exact Hb|].
  rewrite (main_partial_output _ _ _ _ None stub_summary stub_status Hp); [| |exact Hb].
  - vm_compute. reflexivity.
  - intros y Hy. apply list_elem_of_In in Hy as [<-|[]].
    eexists _, _; split_and!; try (vm_compute; reflexivity); intros _; vm_compute; reflexivity.
Defined.

(** C19 (a missing status aborts with a panic, not an error): when the
    issue of an identifier has no string at [fields.status.name], the
    [unwrap] of line 77 panics after that identifier's request; the lines
    of the earlier identifiers stay printed. *)
Theorem main_missing_status_panics {P : Platform} server pre b post req body task
    (summ stat : bytes → bytes) :
  prepare = (ROk (server, pre ++ b :: post), []) →
  (∀ y, y ∈ pre → tracker_serves server req y (summ y) (stat y)) →
  http_get (issue_url server b) = Body body → parse_json body = Some task →
  task_status task = None →
  main req = (RPanic PanicStatus,
              flat_map (λ y, branch_trace server req y (summ y) (stat y)) pre ++
              [Request (issue_url server b)]).
Proof.
  intros Hp Hs Hb Hj Hst. rewrite (main_prepared _ _ _ Hp).
  apply (loop_fail _ _ _ _ _ _ _ _ _ Hs); [|done].
  unfold process_branch, fetch. mred. mcbn. rewrite Hb. mcbn. rewrite Hj. mcbn.
  by rewrite Hst.
Qed.

Lemma main_missing_status_panics_witness :
  prepare (P := stub) = (ROk (stub_server, [] ++ ⟪"ABC-12"⟫ :: [⟪"ABC-7"⟫]), []) ∧
  main (P := {| preference_dir := None; config_file := λ _, FileAbsent;
                env_vars := @env_vars stub; git_branch := @git_branch stub;
                client_builds := true; http_get := @http_get stub;
                parse_json := λ _, Some (JObject []); colors_enabled := false |}) None =
    (RPanic PanicStatus, [Request (issue_url stub_server ⟪"ABC-12"⟫)]).
Proof.
  split; [vm_compute; reflexivity|].
  apply (main_missing_status_panics _ [] ⟪"ABC-12"⟫ [⟪"ABC-7"⟫] None ⟪"b12"⟫ (JObject [])
           stub_summary stub_status); try (vm_compute; reflexivity).
  intros y Hy. by apply not_elem_of_nil in Hy.
Defined.

(** C20 (a filtered-out issue is never checked for a summary): with
    [--status x], an issue whose status differs from [x] (up to case)
    produces only its request, even when it has no [fields.summary]: the
    [unwrap] of lines 83/92 is only reached for lines that are printed. *)
Theorem process_branch_filtered_no_summary {P : Platform} server x b body task status :
  http_get (issue_url server b) = Body body → parse_json body = Some task →
  task_status task = Some status → eq_ignore_case x status = false →
  task_summary task = None →
  process_branch server (Some x) b = (ROk tt, [Request (issue_url server b)]).
Proof.
  intros Hg Hj Hst Hx _. rewrite (process_branch_ok _ _ _ body task status []); try done.
  - unfold branch_trace. simpl. by rewrite Hx.
  - simpl. by rewrite Hx.
Qed.

Lemma process_branch_filtered_no_summary_witness :
  http_get (Platform := stub) (issue_url stub_server ⟪"ABC-12"⟫) = Body ⟪"b12"⟫ ∧
  process_branch (P := {| preference_dir := None; config_file := λ _, FileAbsent;
                env_vars := @env_vars stub; git_branch := @git_branch stub;
                client_builds := true; http_get := @http_get stub;
                parse_json := λ _, Some (JObject [(⟪"fields"⟫, JObject [(⟪"status"⟫,
                                 JObject [(⟪"name"⟫, JString ⟪"Open"⟫)])])]);
                colors_enabled := false |})
    stub_server (Some ⟪"done"⟫) ⟪"ABC-12"⟫ =
    (ROk tt, [Request (issue_url stub_server ⟪"ABC-12"⟫)]).
Proof.
  split; [vm_compute; reflexivity|].
  eapply process_branch_filtered_no_summary; vm_compute; reflexivity.
Defined.

(** C21 (a failing [git branch] is not an error): [capture()] succeeds
    whatever the exit status of [git branch]; when it fails and prints
    nothing on standard output (outside a repository, say), a configured
    program finds no identifier, sends no request, prints nothing and
    exits successfully. *)
Theorem main_git_failure_silent {P : Platform} c status prefix user pass server req :
  load_settings = (ROk c, []) →
  git_branch = Some (CaptureData status []) →
  get c ⟪"prefix"⟫ = Some prefix → literal_prefix prefix = true →
  get c ⟪"username"⟫ = Some user → get c ⟪"password"⟫ = Some pass →
  client_builds = true → get c ⟪"server"⟫ = Some server →
  main req = (ROk tt, []).
Proof.
  intros Hl Hg Hp Hlit Hu Hpw Hc Hs.
  rewrite (main_prepared server []); [done|].
  rewrite (prepare_ok c (CaptureData status []) prefix user pass server); try done. simpl.
  by rewrite extract_nil.
Qed.

Lemma main_git_failure_silent_witness :
  let W := {| preference_dir := None; config_file := λ _, FileAbsent;
              env_vars := @env_vars stub; git_branch := Some (CaptureData 128 []);
              client_builds := true; http_get := @http_get stub;
              parse_json := @parse_json stub; colors_enabled := false |} in
  load_settings (P := W) = (ROk (default (config_default, false) (load_config None (@env_vars stub))).1, []) ∧
  main (P := W) None = (ROk tt, []).
Proof.
  intros W. assert (Hl : load_settings (P := W) = (ROk (default (config_default, false) (load_config None (@env_vars stub))).1, []))
    by (vm_compute; reflexivity).
  split; [exact Hl|].
  apply (main_git_failure_silent _ 128 ⟪"ABC"⟫ ⟪"user"⟫ ⟪"secret"⟫ stub_server _ Hl);
    vm_compute; reflexivity.
Defined.

(** C22 (errors of the setup, in program order): once the settings are
    loaded, a [git branch] that cannot be started ends the run with
    [ExecError] whatever the configuration says, and otherwise a missing
    [prefix] ends it with [ConfigNotFound "prefix"]; in both cases before
    any request or output. *)
Theorem main_setup_errors {P : Platform} c req :
  load_settings = (ROk c, []) →
  (git_branch = None → main req = (RErr ExecError, [])) ∧
  (∀ cd, git_branch = Some cd → get c ⟪"prefix"⟫ = None →
     main req = (RErr (ConfigNotFound ⟪"prefix"⟫), [])).
Proof.
  intros Hl. unfold main, prepare, get_setting. rewrite Hl. split.
  - intros Hg. mred. mcbn. by rewrite Hg.
  - intros cd Hg Hp. mred. mcbn. rewrite Hg. mcbn. by rewrite Hp.
Qed.

Lemma main_setup_errors_witness :
  let W := {| preference_dir := None; config_file := λ _, FileAbsent;
              env_vars := []; git_branch := Some (CaptureData 0 stub_branches);
              client_builds := true; http_get := @http_get stub;
              parse_json := @parse_json stub; colors_enabled := false |} in
  load_settings (P := W) = (ROk (default (config_default, false) (load_config None [])).1, []) ∧
  main (P := W) None = (RErr (ConfigNotFound ⟪"prefix"⟫), []).
Proof.
  intros W. assert (Hl : load_settings (P := W) = (ROk (default (config_default, false) (load_config None [])).1, []))
    by (vm_compute; reflexivity).
  split; [exact Hl|].
  apply (proj2 (main_setup_errors _ None Hl) (CaptureData 0 stub_branches));
    vm_compute; reflexivity.
Defined.

(** C28 (layering of the settings): when the preferences file, if any,
    parses and every environment variable is valid Unicode, lines 26-36
    succeed without any event, and a key read afterwards has the value of
    the last [ANB_]-prefixed variable naming it, or else the file's value:
    the environment overrides the file. *)
Theorem load_settings_layering {P : Platform} :
  preference_dir ≠ Some None →
  (∀ d, preference_dir = Some (Some d) → config_file (d ++ ⟪"/anb.toml"⟫) ≠ FileMalformed) →
  env_unicode env_vars = true →
  ∃ c, load_settings = (ROk c, []) ∧
  ∀ k, get c k =
    match lookup_last k None (env_collect env_vars) with
    | Some v => Some v
    | None => lookup_last k None
                (match preference_dir with
                 | Some (Some d) => file_pairs (Some (config_file (d ++ ⟪"/anb.toml"⟫)))
                 | _ => []
                 end)
    end.
Proof.
  intros Hd Hf Hu. rewrite load_settings_file by done.
  destruct preference_dir as [[d|]|]; [|done|].
  - assert (Some (config_file (d ++ ⟪"/anb.toml"⟫)) ≠ Some FileMalformed) as Hm
      by (intros [= H]; by apply (Hf d)).
    destruct (load_config_get _ _ Hm Hu) as (c & -> & Hc). by exists c.
  - destruct (load_config_get None env_vars ltac:(done) Hu) as (c & -> & Hc). by exists c.
Qed.

Lemma load_settings_layering_witness :
  let W := {| preference_dir := Some (Some ⟪"/home/u/.config"⟫);
              config_file := λ _, FileParsed [(⟪"prefix"⟫, ⟪"XY"⟫); (⟪"server"⟫, stub_server)];
              env_vars := [(⟪"ANB_PREFIX"⟫, ⟪"ABC"⟫); (⟪"HOME"⟫, ⟪"/home/u"⟫)];
              git_branch := @git_branch stub; client_builds := true; http_get := @http_get stub;
              parse_json := @parse_json stub; colors_enabled := false |} in
  ∃ c, load_settings (P := W) = (ROk c, []) ∧
       get c ⟪"prefix"⟫ = Some ⟪"ABC"⟫ ∧ get c ⟪"server"⟫ = Some stub_server.
Proof.
  intros W. destruct (load_settings_layering (P := W)) as (c & Hl & Hk);
    [discriminate|intros d [= <-]; discriminate|vm_compute; reflexivity|].
  exists c. split_and!; [exact Hl|rewrite Hk; reflexivity|rewrite Hk; reflexivity].
Defined.

(** C24 (an environment that is not Unicode panics): [std::env::vars()],
    which the environment source iterates when line 35 refreshes the
    settings, panics on any variable whose name or value is not valid
    UTF-8, [ANB_] or not.  Unless the preferences file fails to parse
    (the refresh stops there first), the run ends at line 35 with no
    request and no output, before [git branch] runs. *)
Theorem main_non_unicode_env_panics {P : Platform} req :
  preference_dir ≠ Some None →
  (∀ d, preference_dir = Some (Some d) → config_file (d ++ ⟪"/anb.toml"⟫) ≠ FileMalformed) →
  env_unicode env_vars = false →
  main req = (RPanic PanicEnvVars, []).
Proof.
  intros Hd Hf Hu. unfold main, prepare. rewrite load_settings_file by done.
  rewrite (proj2 (load_config_vars_panic _ _ Hu)); [done|].
  destruct preference_dir as [[d|]|]; [|done|done]. intros [= H]. by apply (Hf d).
Qed.

Lemma main_non_unicode_env_panics_witness :
  let W := {| preference_dir := None; config_file := λ _, FileAbsent;
              env_vars := [(⟪"ANB_PREFIX"⟫, ⟪"ABC"⟫); (⟪"LANG"⟫, [ascii_of_nat 255])];
              git_branch := @git_branch stub; client_builds := true; http_get := @http_get stub;
              parse_json := @parse_json stub; colors_enabled := false |} in
  main (P := W) None = (RPanic PanicEnvVars, []).
Proof.
  intros W. apply (main_non_unicode_env_panics (P := W));
    [discriminate|intros d Hd; discriminate|vm_compute; reflexivity].
Defined.

(** C23 (a malformed preferences file panics): the error of the file
    merge is dropped by [.ok()] (line 31), but the file stays among the
    sources, so the environment merge re-reads it, fails, and its
    [unwrap] (line 36) panics before [git branch] runs. *)
Theorem main_malformed_config_panics {P : Platform} dir req :
  preference_dir = Some (Some dir) →
  config_file (dir ++ ⟪"/anb.toml"⟫) = FileMalformed →
  main req = (RPanic PanicEnvMerge, []).
Proof.
  intros Hd Hf. unfold main, prepare.
  by rewrite (load_settings_malformed dir Hd Hf).
Qed.

Lemma main_malformed_config_panics_witness :
  let W := {| preference_dir := Some (Some ⟪"/home/u/.config"⟫);
              config_file := λ _, FileMalformed;
              env_vars := @env_vars stub; git_branch := @git_branch stub;
              client_builds := true; http_get := @http_get stub;
              parse_json := @parse_json stub; colors_enabled := false |} in
  main (P := W) None = (RPanic PanicEnvMerge, []).
Proof. intros W. by apply (main_malformed_config_panics ⟪"/home/u/.config"⟫). Defined.

(** C25 (the header [unwrap] never panics): whatever the username and
    password, ["Basic " + base64(username:password)] consists of visible
    ASCII characters, so [HeaderValue::from_str(..).unwrap()] (line 59)
    never panics: no run of the program ends at that panic site. *)
Theorem main_no_header_panic {P : Platform} req : (main req).1 ≠ RPanic PanicHeaderValue.
Proof.
  apply avoids_bind; [apply prepare_avoids|]. intros [server names].
  apply avoids_for_each, process_branch_avoids.
Qed.

(** C13 (the header carries the credentials): the Authorization value of
    lines 56-59 is ["Basic "] followed by a Base64 text that decodes to
    [username ++ ":" ++ password]; two headers are equal exactly when the
    joined credential strings are. *)
Theorem auth_header_credentials username password :
  take 6 (auth_header username password) = ⟪"Basic "⟫ ∧
  Base64.decode (drop 6 (auth_header username password)) = Some (username ++ ⟪":"⟫ ++ password) ∧
  ∀ u' p', auth_header username password = auth_header u' p' ↔
           username ++ ⟪":"⟫ ++ password = u' ++ ⟪":"⟫ ++ p'.
Proof.
  unfold auth_header. split_and!.
  - by rewrite take_app_length'.
  - rewrite drop_app_length' by done. apply Base64.decode_encode_roundtrip.
  - intros u' p'. split; [|by intros ->].
    intros Heq. apply app_inv_head in Heq.
    apply (f_equal Base64.decode) in Heq. rewrite !Base64.decode_encode_roundtrip in Heq. by injection Heq.
Qed.

(** The user name is not checked for [':'] (RFC 7617 forbids it): the
    credentials ["a:b"]/["c"] and ["a"]/["b:c"] give the same header. *)
Example auth_header_colon_collision :
  auth_header ⟪"a:b"⟫ ⟪"c"⟫ = auth_header ⟪"a"⟫ ⟪"b:c"⟫.
Proof. reflexivity. Qed.

(** C16 (the setup is silent): lines 26-66 send no request and print
    nothing on any path, errors and panics included; so a run that sent a
    request or printed a line got through the whole setup: the settings,
    [git branch], the regex, the header and the client. *)
Theorem main_setup_before_requests {P : Platform} req :
  prepare.2 = [] ∧
  ((main req).2 ≠ [] → ∃ server names, prepare = (ROk (server, names), [])).
Proof.
  pose proof prepare_silent_lemma as Hs. unfold silent in Hs. split; [done|].
  unfold main. destruct prepare as [[[server names]|e|q] t] eqn:Hp; simpl in Hs; subst t.
  - intros _. by exists server, names.
  - done.
  - done.
Qed.

Lemma main_setup_before_requests_witness :
  (main (P := stub) None).2 ≠ [] ∧
  ∃ server names, prepare (P := stub) = (ROk (server, names), []).
Proof.
  assert (H : (main (P := stub) None).2 ≠ []) by (vm_compute; discriminate).
  split; [exact H|]. exact (proj2 (main_setup_before_requests None) H).
Defined.

(** C14 (an unreachable tracker aborts the run): when sending the
    request of an identifier fails, the [unwrap] of line 74 panics right
    after that request; the lines of the identifiers before it stay
    printed and no later identifier is requested. *)
Theorem main_send_failure_panics {P : Platform} server pre b post req (summ stat : bytes → bytes) :
  prepare = (ROk (server, pre ++ b :: post), []) →
  (∀ y, y ∈ pre → tracker_serves server req y (summ y) (stat y)) →
  http_get (issue_url server b) = SendFailed →
  main req = (RPanic PanicSend,
              flat_map (λ y, branch_trace server req y (summ y) (stat y)) pre ++
              [Request (issue_url server b)]).
Proof.
  intros Hp Hs Hb. rewrite (main_prepared _ _ _ Hp).
  apply (loop_fail _ _ _ _ _ _ _ _ _ Hs); [|done].
  unfold process_branch, fetch. mred. mcbn. by rewrite Hb.
Qed.

Lemma main_send_failure_panics_witness :
  let W := {| preference_dir := None; config_file := λ _, FileAbsent;
              env_vars := @env_vars stub; git_branch := @git_branch stub;
              client_builds := true;
              http_get := λ url, if decide (url = issue_url stub_server ⟪"ABC-12"⟫)
                                 then Body ⟪"b12"⟫ else SendFailed;
              parse_json := @parse_json stub; colors_enabled := false |} in
  prepare (P := W) = (ROk (stub_server, [⟪"ABC-12"⟫] ++ ⟪"ABC-7"⟫ :: []), []) ∧
  http_get (Platform := W) (issue_url stub_server ⟪"ABC-7"⟫) = SendFailed ∧
  main (P := W) None = (RPanic PanicSend,
    [Request (issue_url stub_server ⟪"ABC-12"⟫);
     Print ⟪"ABC-12               Add login (In Progress)"⟫;
     Request (issue_url stub_server ⟪"ABC-7"⟫)]).
Proof.
  intros W.
  assert (Hp : prepare (P := W) = (ROk (stub_server, [⟪"ABC-12"⟫] ++ ⟪"ABC-7"⟫ :: []), []))
    by (vm_compute; reflexivity).
  assert (Hb : http_get (Platform := W) (issue_url stub_server ⟪"ABC-7"⟫) = SendFailed)
    by (vm_compute; reflexivity).
  split_and!; [exact Hp|exact Hb|].
  rewrite (main_send_failure_panics _ _ _ _ None stub_summary stub_status Hp); [| |exact Hb].
  - vm_compute. reflexivity.
  - intros y Hy. apply list_elem_of_In in Hy as [<-|[]].
    eexists _, _; split_and!; try (vm_compute; reflexivity); intros _; vm_compute; reflexivity.
Defined.

(** C15 (a successful run is a complete report): when the program exits
    normally, the setup succeeded and every identifier extracted from the
    branches was served by the tracker: a body was read and parsed, it had
    a status, and a summary whenever its line was printed.  No identifier
    is skipped silently on the way to a successful exit. *)
Theorem main_ok_complete {P : Platform} req :
  (main req).1 = ROk tt →
  ∃ server names, prepare = (ROk (server, names), []) ∧
    ∀ b, b ∈ names → ∃ summary status, tracker_serves server req b summary status.
Proof.
  unfold main. intros H. apply bind_ok_inv in H as ([server names] & Hp & Hl).
  exists server, names. split.
  - pose proof prepare_silent_lemma as Hs. unfold silent in Hs.
    destruct prepare as [r t]. simpl in *. by subst.
  - intros b Hb. apply process_branch_ok_inv. by apply (for_each_ok_inv _ names).
Qed.

Lemma main_ok_complete_witness :
  (main (P := stub) None).1 = ROk tt ∧
  ∃ server names, prepare (P := stub) = (ROk (server, names), []) ∧
    ∀ b, b ∈ names → ∃ summary status, tracker_serves (P := stub) server None b summary status.
Proof.
  assert (H : (main (P := stub) None).1 = ROk tt) by (vm_compute; reflexivity).
  split; [exact H|]. exact (main_ok_complete None H).
Defined.
