(* ===== verification/Dirs.v ===== *)
(** * Dirs: the preference directory ([src/src/main.rs] lines 27-28)

    Line 27 calls [BaseDirs::new()] of the [directories] crate and line 28
    formats [{}/anb.toml] from [user_dirs.preference_dir().to_str().unwrap()].
    On Linux, following the crate's documentation: [BaseDirs::new()] is
    [None] when there is no home directory; the home directory is [$HOME]
    when it is set and not empty, else the one of the password database;
    [preference_dir] is [config_dir]: [$XDG_CONFIG_HOME] when it is an
    absolute path, else [home.join(".config")] (one separator between
    the two).  [Path::to_str] is [None] when the path is not valid UTF-8
    ([Utf8.utf8_valid]).

    [on_linux e P] is the platform [P] whose preference directory is the
    one computed from the environment [e]. *)

From S2P Require Import Prelude Utf8 CaseFold Config Json Main.

(** [Path::to_str]. *)
Definition to_str (p : bytes) : option bytes := if utf8_valid p then Some p else None.

(** What the process sees: [$HOME], [$XDG_CONFIG_HOME] and the home
    directory of the password database. *)
Record os_env := OsEnv {
  env_home : option bytes; env_xdg_config_home : option bytes; passwd_home : option bytes }.

(** [dirs_sys::home_dir]. *)
Definition home_dir (e : os_env) : option bytes :=
  match env_home e with
  | Some h => if bool_decide (h = []) then passwd_home e else Some h
  | None => passwd_home e
  end.

(** [BaseDirs::new()] then [preference_dir()], on Linux:
    [$XDG_CONFIG_HOME] when it is absolute ([Path::is_absolute]: it starts
    with [/]), else [home.join(".config")]; [PathBuf::push] adds a
    separator unless the path is empty or already ends with one. *)
Definition preference_dir_of (e : os_env) : option bytes :=
  let join_config (h : bytes) : bytes :=
    h ++ match last h with
         | Some c => if bool_decide (c = "/"%char) then [] else ["/"%char]
         | None => []
         end ++ ⟪".config"⟫ in
  (λ h, match env_xdg_config_home e with
        | Some x => if bool_decide (head x = Some "/"%char) then x else join_config h
        | None => join_config h
        end) <$> home_dir e.

(** The platform with the preference directory of [e] (line 27, and the
    [to_str] of line 28). *)
Definition on_linux (e : os_env) (P : Platform) : Platform := {|
  preference_dir := to_str <$> preference_dir_of e;
  config_file := @config_file P;
  env_vars := @env_vars P;
  git_branch := @git_branch P;
  client_builds := @client_builds P;
  http_get := @http_get P;
  parse_json := @parse_json P;
  colors_enabled := @colors_enabled P |}.

(** The path strings the environment provides are all valid UTF-8. *)
Definition env_paths_utf8 (e : os_env) : bool :=
  forallb (from_option utf8_valid true) [env_home e; env_xdg_config_home e; passwd_home e].

(** ** Lemmas *)

Lemma home_dir_utf8 e h : env_paths_utf8 e = true → home_dir e = Some h → utf8_valid h = true.
Proof.
  unfold env_paths_utf8, home_dir. destruct e as [eh ex ep]; simpl.
  rewrite !andb_true_iff. intros (Hh & _ & Hp & _).
  destruct eh as [h'|]; [case_bool_decide|]; intros; simplify_eq/=; done.
Qed.

Lemma preference_dir_utf8 e d :
  env_paths_utf8 e = true → preference_dir_of e = Some d → utf8_valid d = true.
Proof.
  intros He Hd. unfold preference_dir_of in Hd.
  destruct (home_dir e) as [h|] eqn:Hh; simplify_eq/=.
  pose proof (home_dir_utf8 e h He Hh) as Hv.
  assert (Hc : utf8_valid (h ++ match last h with
                                | Some c => if bool_decide (c = "/"%char) then [] else ["/"%char]
                                | None => []
                                end ++ ⟪".config"⟫) = true).
  { apply utf8_valid_app; [done|]. destruct (last h); [case_bool_decide|]; by vm_compute. }
  unfold env_paths_utf8 in He. simpl in He. rewrite !andb_true_iff in He.
  destruct He as (_ & Hx & _). destruct (env_xdg_config_home e) as [x|]; [|done].
  by case_bool_decide.
Qed.

Section Avoid.
Context {P : Platform}.

Lemma prepare_avoids_preference_dir :
  preference_dir ≠ Some None → avoids PanicPreferenceDir prepare.
Proof.
  intros Hd. unfold prepare, get_setting. apply avoids_bind; [|avoid].
  unfold load_settings. apply avoids_bind.
  - destruct preference_dir as [[d|]|]; [avoid|done|avoid].
  - intros f. destruct (load_config f env_vars) as [[c []]|]; avoid.
Qed.

Lemma main_avoids_preference_dir req :
  preference_dir ≠ Some None → avoids PanicPreferenceDir (main req).
Proof.
  intros Hd. apply avoids_bind; [by apply prepare_avoids_preference_dir|].
  intros [server names]. apply avoids_for_each. intros b.
  unfold process_branch, fetch. destruct (http_get _); avoid.
Qed.
End Avoid.

(** ** Claims *)

(** C34 (a non-UTF-8 preference directory panics): when the preference
    directory of the environment is not valid UTF-8, [to_str()] of line
    28 is [None] and its [unwrap] panics, before any source of settings
    is merged and before [git branch] runs: no event at all. *)
Theorem main_non_utf8_preference_panics e {P : Platform} d req :
  preference_dir_of e = Some d → utf8_valid d = false →
  main (P := on_linux e P) req = (RPanic PanicPreferenceDir, []).
Proof.
  intros Hd Hv. unfold main, prepare, load_settings. cbn [preference_dir on_linux].
  rewrite Hd. cbn [fmap option_fmap option_map]. unfold to_str. by rewrite Hv.
Qed.

Lemma main_non_utf8_preference_panics_witness :
  let e := OsEnv (Some (⟪"/home/"⟫ ++ [ascii_of_nat 255])) None None in
  preference_dir_of e = Some (⟪"/home/"⟫ ++ [ascii_of_nat 255] ++ ⟪"/.config"⟫) ∧
  utf8_valid (⟪"/home/"⟫ ++ [ascii_of_nat 255] ++ ⟪"/.config"⟫) = false ∧
  main (P := on_linux e stub) None = (RPanic PanicPreferenceDir, []).
Proof.
  intros e. split_and!; [reflexivity|vm_compute; reflexivity|].
  apply (main_non_utf8_preference_panics e (⟪"/home/"⟫ ++ [ascii_of_nat 255] ++ ⟪"/.config"⟫));
    [reflexivity|vm_compute; reflexivity].
Defined.

(** C35 (valid UTF-8 paths never reach the panic of line 28): when
    [$HOME], [$XDG_CONFIG_HOME] and the home directory of the password
    database are valid UTF-8 where present, the preference directory is
    valid UTF-8 ([$HOME/.config] or [$XDG_CONFIG_HOME]), so no run of the
    program ends at the [unwrap] of line 28, whatever the other inputs. *)
Theorem main_utf8_env_no_preference_panic e {P : Platform} req :
  env_paths_utf8 e = true →
  (main (P := on_linux e P) req).1 ≠ RPanic PanicPreferenceDir.
Proof.
  intros He. apply main_avoids_preference_dir. cbn [preference_dir on_linux].
  destruct (preference_dir_of e) as [d|] eqn:Hd; [|done]. cbn.
  unfold to_str. by rewrite (preference_dir_utf8 e d He Hd).
Qed.

Lemma main_utf8_env_no_preference_panic_witness :
  let e := OsEnv (Some ⟪"/home/u"⟫) (Some ⟪"/home/u/cfg"⟫) None in
  env_paths_utf8 e = true ∧
  (main (P := on_linux e stub_failing) (Some ⟪"Done"⟫)).1 ≠ RPanic PanicPreferenceDir.
Proof.
  intros e. split; [vm_compute; reflexivity|].
  apply (main_utf8_env_no_preference_panic e). vm_compute. reflexivity.
Defined.

