(* ===== verification/Cli.v ===== *)
(** * Cli: the command line ([src/src/main.rs] lines 13-24, 66) and the process

    Lines 13-24 declare the application with [clap] 2 ([App::new] with a
    name, a version, an author and an about text) and its one option
    [Arg::with_name("status").short("s").long("status").takes_value(true)],
    then call [get_matches()]; line 66 reads [matches.value_of("status")].
    [status_arg] is the declaration; [cli_parse] is the part of [clap]'s
    parser this application exercises, written from [clap] 2's
    documentation: the automatic flags [-h]/[--help] and [-V]/[--version]
    end parsing at once; [--status v], [--status=v], [-s v], [-sv] and
    [-s=v] give the option a value (leading [=] of an attached value are
    dropped, an empty attached value is kept); a value is not taken from
    an argument that starts a new option; any other argument is unexpected.
    After the arguments, an occurrence without a value is an error, and so
    is a second occurrence (the option is not [multiple]).

    [anb] is the whole process: [get_matches()] exits with status 1 on a
    usage error and 0 after printing help or version, before anything of
    [main] runs; otherwise the status of the process is the one Rust gives
    [fn main() -> Result<(), Box<dyn Error>>]: 0 for [Ok], 1 for an [Err]
    (after printing it on standard error), 101 for a panic. *)

From S2P Require Import Prelude CaseFold Regex Extract Base64 Config Json Report Main.

Inductive cli_error :=
| UnknownArgument (arg : bytes)  (** "Found argument '..' which wasn't expected" *)
| EmptyValue                     (** "requires a value but none was supplied" *)
| UnexpectedMultipleUsage.       (** "was provided more than once" *)

Inductive cli_result :=
| CliRun (status : option bytes)
| CliHelp
| CliVersion
| CliError (e : cli_error).

(** Lines 17-23. *)
Record arg_spec := ArgSpec {
  arg_name : bytes; arg_short : ascii; arg_long : bytes; arg_takes_value : bool }.

Definition status_arg : arg_spec := ArgSpec ⟪"status"⟫ "s" ⟪"status"⟫ true.

(** Lines 13-16. *)
Definition app_name : bytes := ⟪"Annotate branches"⟫.
Definition app_version : bytes := ⟪"0.1.0"⟫.

Definition app_author : bytes := ⟪"Evgenii Morozov <jmv@emorozov.net>"⟫.
Definition app_about : bytes := ⟪"Displays git branch list with corresponding JIRA task names"⟫.
Definition status_help : bytes := ⟪"Display only tasks with the specified status"⟫.

(** What [--version] prints: the name and the version. *)
Definition version_text : bytes := app_name ++ ⟪" "⟫ ++ app_version.

(** What [--help] prints: the version line, the author, the about text
    and the option with its help, in that order.  The blank lines, the
    [USAGE] and [FLAGS] sections and the column layout of [clap]'s
    template are not modelled. *)
Definition help_text : list bytes :=
  [version_text; app_author; app_about;
   ⟪"-s, --status <"⟫ ++ arg_name status_arg ++ ⟪">  "⟫ ++ status_help].

(** An argument that starts an option: a ['-'] and at least one more byte. *)
Definition is_new_arg (a : bytes) : bool :=
  match a with c :: _ :: _ => bool_decide (c = "-"%char) | _ => false end.

Definition strip_prefix (p s : bytes) : option bytes :=
  if bool_decide (take (length p) s = p) then Some (drop (length p) s) else None.

(** The name and the attached value of a long option ([--name=value]). *)
Fixpoint split_eq (s : bytes) : bytes * option bytes :=
  match s with
  | [] => ([], None)
  | c :: s' =>
      if bool_decide (c = "="%char) then ([], Some s')
      else let '(n, v) := split_eq s' in (c :: n, v)
  end.

(** [trim_left_matches('=')] on an attached value. *)
Fixpoint trim_eq (s : bytes) : bytes :=
  match s with
  | c :: s' => if bool_decide (c = "="%char) then trim_eq s' else s
  | [] => []
  end.

(** After the last argument: each occurrence needs its value, and the
    option may occur once. *)
Definition cli_finish (occs : list (option bytes)) : cli_result :=
  if bool_decide (None ∈ occs) then CliError EmptyValue
  else match occs with
       | [] => CliRun None
       | [v] => CliRun v
       | _ => CliError UnexpectedMultipleUsage
       end.

(** [get_matches()] over the arguments after the program name.  [occs]
    are the occurrences of the option so far, the last one first;
    [pending] says that the last one still waits for its value. *)
Fixpoint cli_loop (args : list bytes) (occs : list (option bytes)) (pending : bool) : cli_result :=
  match args with
  | [] => cli_finish occs
  | a :: rest =>
      if pending && negb (is_new_arg a) then cli_loop rest (Some a :: tail occs) false
      else
        match strip_prefix ⟪"--"⟫ a with
        | Some [] =>
            match rest with
            | [] => cli_finish occs
            | x :: _ => CliError (UnknownArgument x)
            end
        | Some long =>
            let '(name, eqv) := split_eq long in
            if bool_decide (name = ⟪"help"⟫) then CliHelp
            else if bool_decide (name = ⟪"version"⟫) then CliVersion
            else if bool_decide (name = arg_long status_arg) then
              match eqv with
              | None => cli_loop rest (None :: occs) true
              | Some v => cli_loop rest (Some (trim_eq v) :: occs) false
              end
            else CliError (UnknownArgument a)
        | None =>
            match a with
            | d :: c :: more =>
                if negb (bool_decide (d = "-"%char)) then CliError (UnknownArgument a)
                else if bool_decide (c = "h"%char) then CliHelp
                else if bool_decide (c = "V"%char) then CliVersion
                else if bool_decide (c = arg_short status_arg) then
                  match more with
                  | [] => cli_loop rest (None :: occs) true
                  | _ => cli_loop rest (Some (trim_eq more) :: occs) false
                  end
                else CliError (UnknownArgument ["-"%char; c])
            | _ => CliError (UnknownArgument a)
            end
        end
  end.

Definition cli_parse (args : list bytes) : cli_result := cli_loop args [] false.

(** The status of the process for the result of [main]. *)
Definition exit_code (r : res unit) : nat :=
  match r with ROk _ => 0 | RErr _ => 1 | RPanic _ => 101 end.

(** The process: the command line first (line 24), then lines 26-99. *)
Definition anb {P : Platform} (args : list bytes) : nat * list event :=
  match cli_parse args with
  | CliRun status => let '(r, tr) := main status in (exit_code r, tr)
  | CliVersion => (0, [Print version_text])
  | CliHelp => (0, Print <$> help_text)
  | CliError _ => (1, [])
  end.

(** ** Lemmas *)

Lemma is_new_arg_head v : head v ≠ Some "-"%char → is_new_arg v = false.
Proof. destruct v as [|c [|d v]]; simpl; [done|done|]. intros Hc. apply bool_decide_eq_false_2. congruence. Qed.

Lemma trim_eq_head v : head v ≠ Some "="%char → trim_eq v = v.
Proof. destruct v as [|c v]; simpl; [done|]. intros Hc. rewrite bool_decide_eq_false_2; congruence. Qed.

Lemma strip_prefix_app p s : strip_prefix p (p ++ s) = Some s.
Proof.
  unfold strip_prefix. rewrite take_app_length, bool_decide_eq_true_2 by done.
  by rewrite drop_app_length.
Qed.

Lemma strip_prefix_dash_s w : strip_prefix ⟪"--"⟫ (⟪"-s"⟫ ++ w) = None.
Proof. reflexivity. Qed.

Lemma cli_finish_one v : cli_finish [Some v] = CliRun (Some v).
Proof. unfold cli_finish. rewrite bool_decide_eq_false_2; [done|]. by rewrite list_elem_of_singleton. Qed.

Lemma split_eq_status v : split_eq (⟪"status="⟫ ++ v) = (⟪"status"⟫, Some v).
Proof. reflexivity. Qed.

Lemma strip_prefix_not_dash a : head a ≠ Some "-"%char → strip_prefix ⟪"--"⟫ a = None.
Proof.
  intros Ha. unfold strip_prefix. rewrite bool_decide_eq_false_2; [done|].
  destruct a as [|c a]; [done|]. simpl. intros [= -> _]. done.
Qed.

(** A command line that runs the program runs [main] with the value of
    the option; the process status is that of [main]'s result. *)
Lemma anb_run {P : Platform} args st :
  cli_parse args = CliRun st → anb args = (exit_code (main st).1, (main st).2).
Proof. intros H. unfold anb. rewrite H. by destruct (main st). Qed.

(** ** Claims *)

(** C18 (the spellings of [--status]): for a value that does not start
    with ['-'] or ['='], the five forms [--status v], [--status=v],
    [-s v], [-sv] and [-s=v] all make [matches.value_of("status")] (line
    66) the value [v]; without arguments it is [None]. *)
Theorem cli_status_spellings v :
  v ≠ [] → head v ≠ Some "-"%char → head v ≠ Some "="%char →
  cli_parse [⟪"--status"⟫; v] = CliRun (Some v) ∧
  cli_parse [⟪"--status="⟫ ++ v] = CliRun (Some v) ∧
  cli_parse [⟪"-s"⟫; v] = CliRun (Some v) ∧
  cli_parse [⟪"-s"⟫ ++ v] = CliRun (Some v) ∧
  cli_parse [⟪"-s="⟫ ++ v] = CliRun (Some v) ∧
  cli_parse [] = CliRun None.
Proof.
  intros Hne Hm He. unfold cli_parse.
  pose proof (is_new_arg_head v Hm) as Hn. pose proof (trim_eq_head v He) as Ht.
  split_and!; [| | | | |done].
  - cbn -[cli_finish]. rewrite Hn. simpl. apply cli_finish_one.
  - change (⟪"--status="⟫ ++ v) with (⟪"--"⟫ ++ (⟪"status="⟫ ++ v)).
    cbn [cli_loop andb negb]. rewrite strip_prefix_app, split_eq_status.
    cbn -[cli_finish trim_eq]. rewrite Ht. apply cli_finish_one.
  - cbn -[cli_finish]. rewrite Hn. simpl. apply cli_finish_one.
  - destruct v as [|c v]; [done|]. cbn [cli_loop app andb negb].
    rewrite strip_prefix_dash_s. cbn -[cli_finish trim_eq]. rewrite Ht. apply cli_finish_one.
  - change (⟪"-s="⟫ ++ v) with (⟪"-s"⟫ ++ (⟪"="⟫ ++ v)).
    cbn [cli_loop andb negb]. rewrite strip_prefix_dash_s.
    simpl. rewrite Ht. apply cli_finish_one.
Qed.

Lemma cli_status_spellings_witness :
  ⟪"done"⟫ ≠ [] ∧ head ⟪"done"⟫ ≠ Some "-"%char ∧ head ⟪"done"⟫ ≠ Some "="%char ∧
  cli_parse [⟪"-sdone"⟫] = CliRun (Some ⟪"done"⟫).
Proof.
  assert (H1 : ⟪"done"⟫ ≠ []) by discriminate.
  assert (H2 : head ⟪"done"⟫ ≠ Some "-"%char) by discriminate.
  assert (H3 : head ⟪"done"⟫ ≠ Some "="%char) by discriminate.
  split_and!; [exact H1|exact H2|exact H3|].
  exact (proj1 (proj2 (proj2 (proj2 (cli_status_spellings _ H1 H2 H3))))).
Defined.

(** C17 (usage errors stop the process first): [get_matches()] on line 24
    rejects a second [--status] (the option is not [multiple]), an option
    left without a value, and any argument that is not an option (for
    example [anb done]): the process then exits with status 1 before the
    settings are read, with no request and no output.  A following flag
    is not taken as the value: [--status --help] shows the help. *)
Theorem cli_usage_errors {P : Platform} v w :
  is_new_arg v = false → is_new_arg w = false →
  cli_parse [⟪"-s"⟫; v; ⟪"--status"⟫; w] = CliError UnexpectedMultipleUsage ∧
  anb [⟪"-s"⟫; v; ⟪"--status"⟫; w] = (1, []) ∧
  anb [⟪"--status"⟫] = (1, []) ∧
  (∀ a, head a ≠ Some "-"%char → anb [a] = (1, [])) ∧
  cli_parse [⟪"--status"⟫; ⟪"--help"⟫] = CliHelp.
Proof.
  intros Hv Hw.
  assert (H2 : cli_parse [⟪"-s"⟫; v; ⟪"--status"⟫; w] = CliError UnexpectedMultipleUsage).
  { unfold cli_parse. cbn -[cli_finish]. rewrite Hv. cbn -[cli_finish]. rewrite Hw. simpl.
    unfold cli_finish. rewrite bool_decide_eq_false_2; [done|].
    rewrite elem_of_cons, list_elem_of_singleton. by intros [?|?]. }
  split_and!; [done| by unfold anb; rewrite H2 | done | |done].
  intros a Ha. unfold anb, cli_parse. cbn [cli_loop andb]. rewrite strip_prefix_not_dash by done.
  destruct a as [|d [|c more]]; [done|done|]. simpl in Ha.
  rewrite bool_decide_eq_false_2 by congruence. done.
Qed.

Lemma cli_usage_errors_witness :
  is_new_arg ⟪"done"⟫ = false ∧ is_new_arg ⟪"todo"⟫ = false ∧
  anb (P := stub) [⟪"-s"⟫; ⟪"done"⟫; ⟪"--status"⟫; ⟪"todo"⟫] = (1, []).
Proof.
  assert (H1 : is_new_arg ⟪"done"⟫ = false) by reflexivity.
  assert (H2 : is_new_arg ⟪"todo"⟫ = false) by reflexivity.
  split_and!; [exact H1|exact H2|]. exact (proj1 (proj2 (cli_usage_errors (P := stub) _ _ H1 H2))).
Defined.

(** C11 (the option end to end): when the command line gives [--status v]
    in any spelling, the setup succeeds and the tracker serves every
    identifier, the process and the process without arguments both exit
    with status 0; without arguments it prints one line per identifier,
    in order, and with the option exactly those of them whose status
    equals [v] up to case. *)
Theorem anb_status_filter {P : Platform} args v server names (summ stat : bytes → bytes) :
  cli_parse args = CliRun (Some v) → prepare = (ROk (server, names), []) →
  (∀ b, b ∈ names → tracker_serves server None b (summ b) (stat b)) →
  let line b := render_line colors_enabled b (summ b) (stat b) in
  (anb args).1 = 0 ∧ (anb []).1 = 0 ∧
  printed (anb []).2 = map line names ∧
  printed (anb args).2 = map line (filter (λ b, eq_ignore_case v (stat b) = true) names).
Proof.
  intros Hc Hp Hs line. rewrite (anb_run _ _ Hc), (anb_run [] None) by done.
  rewrite !(main_prepared _ _ _ Hp).
  assert (Hx : ∀ b, b ∈ names → tracker_serves server (Some v) b (summ b) (stat b))
    by (intros; by apply tracker_serves_none, Hs).
  destruct (loop_printed _ _ _ _ _ Hs) as [Hr1 Hl1]. destruct (loop_printed _ _ _ _ _ Hx) as [Hr2 Hl2].
  simpl. rewrite Hr1, Hr2, Hl1, Hl2. split_and!; [done|done| |done].
  f_equal. clear. induction names as [|b names IH]; [done|]. by rewrite filter_cons, IH.
Qed.

Lemma anb_status_filter_witness :
  cli_parse [⟪"--status=done"⟫] = CliRun (Some ⟪"done"⟫) ∧
  prepare (P := stub) = (ROk (stub_server, [⟪"ABC-12"⟫; ⟪"ABC-7"⟫]), []) ∧
  printed (anb (P := stub) [⟪"--status=done"⟫]).2 =
    map (λ b, render_line false b (stub_summary b) (stub_status b))
      (filter (λ b, eq_ignore_case ⟪"done"⟫ (stub_status b) = true) [⟪"ABC-12"⟫; ⟪"ABC-7"⟫]).
Proof.
  assert (Hc : cli_parse [⟪"--status=done"⟫] = CliRun (Some ⟪"done"⟫)) by reflexivity.
  assert (Hp : prepare (P := stub) = (ROk (stub_server, [⟪"ABC-12"⟫; ⟪"ABC-7"⟫]), []))
    by (vm_compute; reflexivity).
  split_and!; [exact Hc|exact Hp|].
  refine (proj2 (proj2 (proj2 (anb_status_filter (P := stub) _ _ _ _ stub_summary stub_status Hc Hp _)))).
  intros y Hy. apply stub_serves. exact Hy.
Defined.
