(* ===== verification/LoopMachine.v ===== *)
(** * LoopMachine: the loop of [src/src/main.rs] lines 67-97 as a transition system

    [Main.main] runs the loop as the monadic [for_each].  This file gives
    the same loop as a small-step machine, the way the code executes it:
    a state is the list of identifiers still to process and the events so
    far ([Running]), or the outcome of the loop ([Stopped]).  One step
    processes one identifier ([process_branch], lines 68-96): it goes on
    when the iteration succeeds, and stops the loop with the error of a
    [?] or the panic of an [unwrap] otherwise; an empty list ends the loop
    normally.

    The machine is deterministic and strongly normalising; its runs to a
    stopped state are exactly the results of [for_each], hence of [main]
    (a simulation in the sense of [Sequences]/[Simulation] of Leroy's
    course); and every identifier is requested, at some point of the run,
    unless an earlier one failed. *)

From S2P Require Import Prelude CaseFold Regex Extract Base64 Config Json Report Main.
From stdpp Require Import relations.

Inductive lstate :=
| Running (todo : list bytes) (trace : list event)
| Stopped (outcome : res unit) (trace : list event).

Definition trace_of (s : lstate) : list event :=
  match s with Running _ tr | Stopped _ tr => tr end.

Section Machine.
Context {P : Platform} (server : bytes) (req : option bytes).

(** One iteration of [for branch in branches.iter()]. *)
Inductive lstep : lstate → lstate → Prop :=
| lstep_next b rest tr t :
    process_branch server req b = (ROk tt, t) →
    lstep (Running (b :: rest) tr) (Running rest (tr ++ t))
| lstep_abort b rest tr r t :
    process_branch server req b = (r, t) → r ≠ ROk tt →
    lstep (Running (b :: rest) tr) (Stopped r (tr ++ t))
| lstep_done tr :
    lstep (Running [] tr) (Stopped (ROk tt) tr).

(** ** The machine is deterministic and always stops *)

Lemma lstep_deterministic s s1 s2 : lstep s s1 → lstep s s2 → s1 = s2.
Proof. intros H1 H2. destruct H1; inversion H2; subst; congruence. Qed.

Lemma stopped_nf r tr : nf lstep (Stopped r tr).
Proof. intros [s Hs]. inversion Hs. Qed.

Lemma stopped_rtc r tr s : rtc lstep (Stopped r tr) s → s = Stopped r tr.
Proof. intros Hs. inversion Hs as [|? y ? Hy]; [done|]. inversion Hy. Qed.

(** A running state always has a step. *)
Lemma running_red l tr : red lstep (Running l tr).
Proof.
  destruct l as [|b rest]; [eexists; constructor|].
  destruct (process_branch server req b) as [r t] eqn:E.
  destruct r as [[]|e|p]; eexists; [by apply lstep_next | by eapply lstep_abort..].
Qed.

Definition lmeasure (s : lstate) : nat :=
  match s with Running l _ => S (length l) | Stopped _ _ => 0 end.

Lemma lstep_measure s s' : lstep s s' → lmeasure s' < lmeasure s.
Proof. destruct 1; simpl; lia. Qed.

Lemma lstep_sn s : sn lstep s.
Proof.
  remember (lmeasure s) as n eqn:En. revert s En.
  induction n as [n IH] using lt_wf_ind. intros s -> . constructor.
  intros s' Hs. apply (IH (lmeasure s')); [by apply lstep_measure|done].
Qed.

(** Two runs from the same state: one extends the other. *)
Lemma rtc_lstep_inv s s1 s2 : rtc lstep s s1 → rtc lstep s s2 → rtc lstep s1 s2 ∨ rtc lstep s2 s1.
Proof.
  intros H1. revert s2. induction H1 as [s|s s' s1 Hs H1 IH]; intros s2 H2; [by left|].
  inversion H2 as [|? s'' ? Hs' H2']; subst.
  - right. by eapply rtc_l.
  - rewrite (lstep_deterministic _ _ _ Hs Hs') in IH. by apply IH.
Qed.

(** The run from a state reaches the stopped states it can reach: the
    final state of a run is reached from every state of it. *)
Lemma rtc_lstep_final s s1 s2 : rtc lstep s s1 → rtc lstep s s2 → nf lstep s2 → rtc lstep s1 s2.
Proof.
  intros H1 H2 Hnf. destruct (rtc_lstep_inv _ _ _ H1 H2) as [|H]; [done|].
  inversion H as [|? y ? Hy]; subst; [done|]. destruct Hnf. by exists y.
Qed.

(** ** The trace only grows *)

Lemma lstep_trace s s' : lstep s s' → ∃ t, trace_of s' = trace_of s ++ t.
Proof. destruct 1; simpl; eauto. exists []. by rewrite app_nil_r. Qed.

Lemma rtc_lstep_trace s s' : rtc lstep s s' → ∃ t, trace_of s' = trace_of s ++ t.
Proof.
  induction 1 as [s|s s' s'' Hs _ [t2 IH]]; [exists []; by rewrite app_nil_r|].
  destruct (lstep_trace _ _ Hs) as [t1 E]. exists (t1 ++ t2). by rewrite IH, E, app_assoc.
Qed.

(** ** The runs of the machine are the results of [for_each] *)

Lemma bind_stop (r : res unit) t (f : unit → M unit) : r ≠ ROk tt → ((r, t) ≫= f) = (r, t).
Proof. destruct r as [[]|e|p]; done. Qed.

Lemma lstep_run l tr0 r tr :
  rtc lstep (Running l tr0) (Stopped r tr) ↔
  ∃ t, for_each (process_branch server req) l = (r, t) ∧ tr = tr0 ++ t.
Proof.
  revert tr0. induction l as [|b rest IH]; intros tr0.
  - split.
    + intros H. inversion H as [|? y ? Hy Hr]; subst. inversion Hy; subst.
      apply stopped_rtc in Hr. simplify_eq. exists []. by rewrite app_nil_r.
    + intros (t & [= <- <-] & ->). rewrite app_nil_r. apply rtc_once. constructor.
  - cbn [for_each]. destruct (process_branch server req b) as [r1 t1] eqn:E. split.
    + intros H. inversion H as [|? y ? Hy Hr]; subst. inversion Hy; subst; rewrite E in *; simplify_eq.
      * apply IH in Hr as (t2 & Hl & ->). eexists.
        rewrite bind_ok, Hl. split; [reflexivity|]. by rewrite app_assoc.
      * apply stopped_rtc in Hr. simplify_eq.
        eexists. split; [by apply bind_stop|reflexivity].
    + intros (t & Hl & ->). destruct r1 as [[]|e|p].
      * rewrite bind_ok in Hl. destruct (for_each _ rest) as [r2 t2] eqn:E2. simplify_eq/=.
        eapply rtc_l; [by apply lstep_next|].
        apply (IH (tr0 ++ t1)). exists t2. split; [done|by rewrite app_assoc].
      * rewrite bind_stop in Hl by done. injection Hl as <- <-. apply rtc_once.
        by eapply lstep_abort.
      * rewrite bind_stop in Hl by done. injection Hl as <- <-. apply rtc_once.
        by eapply lstep_abort.
Qed.

(** Every state reaches a stopped state. *)
Lemma lstep_wn s : ∃ s', rtc lstep s s' ∧ nf lstep s'.
Proof.
  destruct s as [l tr|r tr]; [|exists (Stopped r tr); split; [done|apply stopped_nf]].
  destruct (for_each (process_branch server req) l) as [r t] eqn:E.
  exists (Stopped r (tr ++ t)). split; [|apply stopped_nf]. apply lstep_run. eauto.
Qed.

(** The machine gets through identifiers whose iteration succeeds. *)
Lemma lstep_skip_ok pre l tr :
  (∀ y, y ∈ pre → (process_branch server req y).1 = ROk tt) →
  ∃ tr', rtc lstep (Running (pre ++ l) tr) (Running l tr').
Proof.
  revert tr. induction pre as [|y pre IH]; intros tr Hok; [by exists tr|].
  destruct (process_branch server req y) as [r t] eqn:E.
  assert (r = ROk tt) as -> by (pose proof (Hok y ltac:(set_solver)) as H; by rewrite E in H).
  destruct (IH (tr ++ t)) as [tr' Hr]; [set_solver|].
  exists tr'. eapply rtc_l; [by apply lstep_next|done].
Qed.

End Machine.

(** ** Claims *)


(** C10 (every identifier is eventually requested): the loop always
    terminates (every run of the machine is finite and a stopped state is
    reached), and when the identifiers before [b] are all processed
    without error, every run that stops has sent the request for [b]
    (line 73), whatever happens with [b] and the identifiers after it. *)
Theorem loop_requests_eventually {P : Platform} server req pre b post :
  (∀ y, y ∈ pre → (process_branch server req y).1 = ROk tt) →
  sn (lstep server req) (Running (pre ++ b :: post) []) ∧
  (∃ s, rtc (lstep server req) (Running (pre ++ b :: post) []) s ∧ nf (lstep server req) s) ∧
  ∀ s, rtc (lstep server req) (Running (pre ++ b :: post) []) s → nf (lstep server req) s →
       Request (issue_url server b) ∈ trace_of s.
Proof.
  intros Hok. split_and!; [apply lstep_sn|apply lstep_wn|].
  intros s Hs Hnf. destruct (lstep_skip_ok server req pre (b :: post) [] Hok) as [tr1 H1].
  assert (∃ t, (process_branch server req b).2 = Request (issue_url server b) :: t) as [t Ht]
    by (eexists; reflexivity).
  destruct (process_branch server req b) as [r t1] eqn:E. simpl in Ht. subst t1.
  assert (∃ s1, lstep server req (Running (b :: post) tr1) s1 ∧
            trace_of s1 = tr1 ++ Request (issue_url server b) :: t) as (s1 & Hs1 & Htr).
  { destruct r as [[]|e|p]; eexists; (split; [by econstructor|done]). }
  assert (Hr : rtc (lstep server req) s1 s).
  { apply (rtc_lstep_final server req (Running (pre ++ b :: post) [])); [|done..].
    eapply rtc_r; [exact H1|exact Hs1]. }
  destruct (rtc_lstep_trace _ _ _ _ Hr) as [t' ->]. rewrite Htr. set_solver.
Qed.

Lemma loop_requests_eventually_witness :
  (∀ y, y ∈ [⟪"ABC-12"⟫] → (process_branch (P := stub) stub_server None y).1 = ROk tt) ∧
  ∀ s, rtc (lstep (P := stub) stub_server None) (Running ([⟪"ABC-12"⟫] ++ ⟪"ABC-7"⟫ :: []) []) s →
       nf (lstep (P := stub) stub_server None) s →
       Request (issue_url stub_server ⟪"ABC-7"⟫) ∈ trace_of s.
Proof.
  assert (Hok : ∀ y, y ∈ [⟪"ABC-12"⟫] → (process_branch (P := stub) stub_server None y).1 = ROk tt).
  { intros y Hy. apply list_elem_of_singleton in Hy as ->. vm_compute. reflexivity. }
  split; [exact Hok|]. exact (proj2 (proj2 (loop_requests_eventually _ _ _ _ _ Hok))).
Defined.
