(* ===== verification/SerdeJson.v ===== *)
(** * SerdeJson: [serde_json::from_str] on the response body (line 76)

    Line 76 parses the body of a tracker response with
    [serde_json::from_str::<Value>].  This file models that parser from
    the crate's documented grammar (RFC 8259) and its implementation
    choices:
    - [skip_ws] is [parse_whitespace] (space, tab, line feed, carriage
      return);
    - [parse_str] is [parse_str] with [parse_escape] and
      [decode_hex_escape]: the short escapes,
      [\uXXXX] with a surrogate pair combined into one code point, a lone
      surrogate and a control character rejected; the code point written
      back as UTF-8 ([encode_utf8] is [char::encode_utf8]);
    - [parse_number] is the number grammar ([-], one leading [0] or a
      non-zero digit, fraction, exponent), the number kept as its text;
    - [parse_value], [parse_seq] and [parse_map] are [parse_any]
      with [SeqAccess] and [MapAccess] ([deserialize_seq],
      [deserialize_map] of [Value]); [depth] is [remaining_depth]
      (128 at the start, one less per [[] or [{], an error when it reaches
      0: [RecursionLimitExceeded]); an object is built by inserting its
      members into a [BTreeMap] ([map_insert]: sorted keys, the last of
      duplicate keys kept);
    - [from_str] adds the check that only whitespace follows the value
      ([TrailingCharacters]).
    Every error of the crate is [None]: line 76 maps them all to the same
    [?] exit.  The parser runs on fuel [2 * length s + 1]: every nested
    call comes after at least one byte, so above that bound the fuel
    changes nothing ([parse_fuel], [parse_mono], [from_str_fuel]).

    [with_serde P] is the platform [P] whose JSON parser is [from_str].

    Beside the parser, [json_print] is a reference printer with
    [serde_json::to_string]'s compact layout and escapes, and [json_wf]
    the values the parser can produce; the claims are the round trip
    [from_str (json_print v) = Some v] (C36) and the recursion limit on a
    tracker response (C37).

    Not modelled: the value range of numbers ([1e400] is an error of the
    crate, a number text here); the program never reads a number. *)

From S2P Require Import Prelude CaseFold Config Json Main.
From Stdlib Require Import NArith.

(** [parse_whitespace]. *)
Fixpoint skip_ws (s : bytes) : bytes :=
  match s with
  | c :: r =>
      if bool_decide (c = " "%char ∨ c = "009"%char ∨ c = "010"%char ∨ c = "013"%char)
      then skip_ws r else s
  | [] => []
  end.

(** [char::encode_utf8]. *)
Definition encode_utf8 (cp : N) : bytes :=
  if (cp <? 128)%N then [ascii_of_N cp]
  else if (cp <? 2048)%N then
    [ascii_of_N (192 + cp / 64); ascii_of_N (128 + cp mod 64)]
  else if (cp <? 65536)%N then
    [ascii_of_N (224 + cp / 4096); ascii_of_N (128 + (cp / 64) mod 64);
     ascii_of_N (128 + cp mod 64)]
  else
    [ascii_of_N (240 + cp / 262144); ascii_of_N (128 + (cp / 4096) mod 64);
     ascii_of_N (128 + (cp / 64) mod 64); ascii_of_N (128 + cp mod 64)].

(** [decode_hex_escape]: four hexadecimal digits, in either case. *)
Definition decode_hex_escape (a b c d : ascii) : option N :=
  let hex (c : ascii) : option N :=
    let n := N_of_ascii c in
    if (48 <=? n)%N && (n <=? 57)%N then Some (n - 48)%N
    else if (97 <=? n)%N && (n <=? 102)%N then Some (n - 87)%N
    else if (65 <=? n)%N && (n <=? 70)%N then Some (n - 55)%N
    else None in
  x1 ← hex a; x2 ← hex b; x3 ← hex c; x4 ← hex d;
  Some (((x1 * 16 + x2) * 16 + x3) * 16 + x4)%N.

(** [parse_str] after the opening quote: the text up to the closing
    quote, with the escapes of [parse_escape] decoded. *)
Fixpoint parse_str (s : bytes) : option (bytes * bytes) :=
  let push (p : bytes) (o : option (bytes * bytes)) :=
    (λ '(t, r), (p ++ t, r)) <$> o in
  match s with
  | [] => None
  | c :: r =>
      if bool_decide (c = "034"%char) then Some ([], r)
      else if bool_decide (c = "092"%char) then
        match r with
        | [] => None
        | e :: r1 =>
            if bool_decide (e = "u"%char) then
              match r1 with
              | a1 :: a2 :: a3 :: a4 :: r2 =>
                  n ← decode_hex_escape a1 a2 a3 a4;
                  if (56320 <=? n)%N && (n <=? 57343)%N then None
                  else if (55296 <=? n)%N && (n <=? 56319)%N then
                    match r2 with
                    | b :: u :: b1 :: b2 :: b3 :: b4 :: r3 =>
                        if bool_decide (b = "092"%char ∧ u = "u"%char) then
                          n2 ← decode_hex_escape b1 b2 b3 b4;
                          if (56320 <=? n2)%N && (n2 <=? 57343)%N then
                            push (encode_utf8 (65536 + (n - 55296) * 1024 + (n2 - 56320)))
                              (parse_str r3)
                          else None
                        else None
                    | _ => None
                    end
                  else push (encode_utf8 n) (parse_str r2)
              | _ => None
              end
            else
              let esc :=
                if bool_decide (e = "034"%char ∨ e = "092"%char ∨ e = "/"%char) then Some e
                else if bool_decide (e = "b"%char) then Some "008"%char
                else if bool_decide (e = "f"%char) then Some "012"%char
                else if bool_decide (e = "n"%char) then Some "010"%char
                else if bool_decide (e = "r"%char) then Some "013"%char
                else if bool_decide (e = "t"%char) then Some "009"%char
                else None in
              match esc with
              | Some d => push [d] (parse_str r1)
              | None => None
              end
        end
      else if nat_of_ascii c <? 32 then None
      else push [c] (parse_str r)
  end.

(** The longest run of ASCII digits at the start. *)
Fixpoint span_digits (s : bytes) : bytes * bytes :=
  match s with
  | c :: r => if is_ascii_digit c then let '(d, r') := span_digits r in (c :: d, r') else ([], s)
  | [] => ([], [])
  end.

(** [parse_number] with [parse_integer], [parse_decimal] and
    [parse_exponent]: the text of the number and the rest. *)
Definition parse_number (s : bytes) : option (json * bytes) :=
  let '(sign, s1) :=
    match s with
    | c :: r => if bool_decide (c = "-"%char) then ([c], r) else ([], s)
    | [] => ([], [])
    end in
  ip ← match s1 with
       | c :: r =>
           if bool_decide (c = "0"%char) then
             match r with
             | d :: _ => if is_ascii_digit d then None else Some ([c], r)
             | [] => Some ([c], r)
             end
           else if is_ascii_digit c then let '(ds, r') := span_digits r in Some (c :: ds, r')
           else None
       | [] => None
       end;
  let '(int, s2) := ip in
  fp ← match s2 with
       | c :: r =>
           if bool_decide (c = "."%char) then
             let '(ds, r') := span_digits r in
             if bool_decide (ds = []) then None else Some (c :: ds, r')
           else Some ([], s2)
       | [] => Some ([], [])
       end;
  let '(frac, s3) := fp in
  ep ← match s3 with
       | c :: r =>
           if bool_decide (c = "e"%char ∨ c = "E"%char) then
             let '(sg, r1) :=
               match r with
               | d :: r' => if bool_decide (d = "+"%char ∨ d = "-"%char) then ([d], r') else ([], r)
               | [] => ([], [])
               end in
             let '(ds, r2) := span_digits r1 in
             if bool_decide (ds = []) then None else Some (c :: sg ++ ds, r2)
           else Some ([], s3)
       | [] => Some ([], [])
       end;
  let '(ex, s4) := ep in
  Some (JNumber (sign ++ int ++ frac ++ ex), s4).

(** [BTreeMap::insert] on a map kept as its entries in key order
    ([String]'s order is the byte order, [String.compare]). *)
Fixpoint map_insert (k : bytes) (v : json) (m : list (bytes * json)) : list (bytes * json) :=
  match m with
  | [] => [(k, v)]
  | (k', v') :: m' =>
      match String.compare (string_of_list_ascii k) (string_of_list_ascii k') with
      | Lt => (k, v) :: m
      | Eq => (k, v) :: m'
      | Gt => (k', v') :: map_insert k v m'
      end
  end.

(** [parse_any] ([parse_value]), the elements of an array after its
    [[] ([parse_seq]) and the members of an object after its [{]
    ([parse_map]); [depth] is [remaining_depth]. *)
Fixpoint parse_value (fuel depth : nat) (s : bytes) {struct fuel} : option (json * bytes) :=
  match fuel with
  | 0 => None
  | S fuel =>
      match skip_ws s with
      | [] => None
      | c :: r =>
          if bool_decide (c = "n"%char) then
            if bool_decide (take 3 r = ⟪"ull"⟫) then Some (JNull, drop 3 r) else None
          else if bool_decide (c = "t"%char) then
            if bool_decide (take 3 r = ⟪"rue"⟫) then Some (JBool true, drop 3 r) else None
          else if bool_decide (c = "f"%char) then
            if bool_decide (take 4 r = ⟪"alse"⟫) then Some (JBool false, drop 4 r) else None
          else if bool_decide (c = "034"%char) then
            (λ '(t, r'), (JString t, r')) <$> parse_str r
          else if bool_decide (c = "-"%char) || is_ascii_digit c then parse_number (c :: r)
          else if bool_decide (c = "["%char) then
            if depth - 1 =? 0 then None else
            match skip_ws r with
            | d :: r' =>
                if bool_decide (d = "]"%char) then Some (JArray [], r')
                else (λ '(vs, r''), (JArray vs, r'')) <$> parse_seq fuel (depth - 1) r
            | [] => None
            end
          else if bool_decide (c = "{"%char) then
            if depth - 1 =? 0 then None else
            match skip_ws r with
            | d :: r' =>
                if bool_decide (d = "}"%char) then Some (JObject [], r')
                else (λ '(ms, r''), (JObject (foldl (λ m kv, map_insert kv.1 kv.2 m) [] ms), r''))
                       <$> parse_map fuel (depth - 1) r
            | [] => None
            end
          else None
      end
  end
with parse_seq (fuel depth : nat) (s : bytes) {struct fuel} : option (list json * bytes) :=
  match fuel with
  | 0 => None
  | S fuel =>
      '(v, r) ← parse_value fuel depth s;
      match skip_ws r with
      | c :: r' =>
          if bool_decide (c = ","%char) then
            (λ '(vs, r''), (v :: vs, r'')) <$> parse_seq fuel depth r'
          else if bool_decide (c = "]"%char) then Some ([v], r')
          else None
      | [] => None
      end
  end
with parse_map (fuel depth : nat) (s : bytes) {struct fuel} :
    option (list (bytes * json) * bytes) :=
  match fuel with
  | 0 => None
  | S fuel =>
      match skip_ws s with
      | c :: r =>
          if bool_decide (c = "034"%char) then
            '(k, r1) ← parse_str r;
            match skip_ws r1 with
            | c1 :: r2 =>
                if bool_decide (c1 = ":"%char) then
                  '(v, r3) ← parse_value fuel depth r2;
                  match skip_ws r3 with
                  | c3 :: r4 =>
                      if bool_decide (c3 = ","%char) then
                        (λ '(ms, r5), ((k, v) :: ms, r5)) <$> parse_map fuel depth r4
                      else if bool_decide (c3 = "}"%char) then Some ([(k, v)], r4)
                      else None
                  | [] => None
                  end
                else None
            | [] => None
            end
          else None
      | [] => None
      end
  end.

(** [serde_json::from_str::<Value>]. *)
Definition from_str (s : bytes) : option json :=
  '(v, r) ← parse_value (S (2 * length s)) 128 s;
  if bool_decide (skip_ws r = []) then Some v else None.

(** The platform [P] with [serde_json::from_str] as its JSON parser
    (line 76). *)
Definition with_serde (P : Platform) : Platform := {|
  preference_dir := @preference_dir P;
  config_file := @config_file P;
  env_vars := @env_vars P;
  git_branch := @git_branch P;
  client_builds := @client_builds P;
  http_get := @http_get P;
  parse_json := from_str;
  colors_enabled := @colors_enabled P |}.

(** ** Reference printer and well-formed values

    [json_print] writes a value the way [serde_json::to_string] does:
    no whitespace, members in map order, strings escaped by
    [format_escaped_str_contents] (quote, backslash, the short escapes of
    control characters and [\u00XX] for the others). *)

Definition hex_digit_char (n : N) : ascii :=
  ascii_of_N (if (n <? 10)%N then 48 + n else 87 + n)%N.

Definition escape_byte (c : ascii) : bytes :=
  if bool_decide (c = "034"%char) then ["092"; "034"]%char
  else if bool_decide (c = "092"%char) then ["092"; "092"]%char
  else if bool_decide (c = "008"%char) then ["092"; "b"]%char
  else if bool_decide (c = "012"%char) then ["092"; "f"]%char
  else if bool_decide (c = "010"%char) then ["092"; "n"]%char
  else if bool_decide (c = "013"%char) then ["092"; "r"]%char
  else if bool_decide (c = "009"%char) then ["092"; "t"]%char
  else if nat_of_ascii c <? 32 then
    ["092"; "u"; "0"; "0"; hex_digit_char (N_of_ascii c / 16);
     hex_digit_char (N_of_ascii c mod 16)]%char
  else [c].

Definition print_str (s : bytes) : bytes := "034"%char :: flat_map escape_byte s ++ ["034"%char].

Fixpoint join_comma (xs : list bytes) : bytes :=
  match xs with
  | [] => []
  | [x] => x
  | x :: xs => x ++ ","%char :: join_comma xs
  end.

Fixpoint json_print (v : json) : bytes :=
  match v with
  | JNull => ⟪"null"⟫
  | JBool b => if b then ⟪"true"⟫ else ⟪"false"⟫
  | JNumber r => r
  | JString s => print_str s
  | JArray vs => "["%char :: join_comma (map json_print vs) ++ ["]"%char]
  | JObject ms =>
      "{"%char :: join_comma (map (λ kv, print_str kv.1 ++ ":"%char :: json_print kv.2) ms)
        ++ ["}"%char]
  end.

(** One member of a printed object. *)
Definition print_member (kv : bytes * json) : bytes := print_str kv.1 ++ ":"%char :: json_print kv.2.

(** The nesting of arrays and objects. *)
Fixpoint json_depth (v : json) : nat :=
  match v with
  | JArray vs => S (foldr max 0 (map json_depth vs))
  | JObject ms => S (foldr max 0 (map (λ kv, json_depth kv.2) ms))
  | _ => 0
  end.

Definition key_lt (a b : bytes) : bool :=
  bool_decide (String.compare (string_of_list_ascii a) (string_of_list_ascii b) = Lt).

(** The keys of a [BTreeMap]: strictly increasing. *)
Fixpoint keys_sorted (ms : list (bytes * json)) : bool :=
  match ms with
  | [] => true
  | kv :: ms' => forallb (λ kw, key_lt kv.1 kw.1) ms' && keys_sorted ms'
  end.

(** A number text is one [parse_number] reads whole. *)
Definition number_text (r : bytes) : bool :=
  match parse_number r with Some (JNumber r', []) => bool_decide (r' = r) | _ => false end.

(** The values [from_str] can produce: number texts of the grammar and
    objects with sorted, distinct keys. *)
Fixpoint json_wf (v : json) : bool :=
  match v with
  | JNumber r => number_text r
  | JArray vs => forallb json_wf vs
  | JObject ms => keys_sorted ms && forallb (λ kv, json_wf kv.2) ms
  | _ => true
  end.

(** Induction on values through the lists of arrays and objects. *)
Fixpoint json_nested_ind (P : json → Prop) (fnull : P JNull) (fbool : ∀ b, P (JBool b))
    (fnum : ∀ r, P (JNumber r)) (fstr : ∀ s, P (JString s))
    (farr : ∀ vs, Forall P vs → P (JArray vs))
    (fobj : ∀ ms, Forall (λ kv, P kv.2) ms → P (JObject ms)) (v : json) : P v :=
  let IH := json_nested_ind P fnull fbool fnum fstr farr fobj in
  match v with
  | JNull => fnull
  | JBool b => fbool b
  | JNumber r => fnum r
  | JString s => fstr s
  | JArray vs =>
      farr vs ((fix F (l : list json) : Forall P l :=
                  match l with [] => Forall_nil_2 _ | x :: l' => Forall_cons_2 _ _ _ (IH x) (F l') end) vs)
  | JObject ms =>
      fobj ms ((fix F (l : list (bytes * json)) : Forall (λ kv, P kv.2) l :=
                  match l with
                  | [] => Forall_nil_2 _
                  | kv :: l' => Forall_cons_2 _ _ _ (IH kv.2) (F l')
                  end) ms)
  end.

(** What may follow a value inside a printed text: its end, or the
    separator or closing bracket after it. *)
Definition stop (rest : bytes) : Prop :=
  match rest with [] => True | c :: _ => c = ","%char ∨ c = "]"%char ∨ c = "}"%char end.

(** The first bytes a printed value can start with. *)
Definition starts_value (c : ascii) : Prop :=
  c ∈ "034"%char :: ⟪"ntf[{-"⟫ ∨ is_ascii_digit c = true.

(** The round-trip property of one value, for every context it can be
    printed in. *)
Definition prints_back (v : json) : Prop :=
  ∀ fuel d rest, json_depth v < d → 2 * length (json_print v ++ rest) < fuel → stop rest →
  parse_value fuel d (json_print v ++ rest) = Some (v, rest).

(** ** Consumed input *)

Lemma forallb_Forall_true {A} (f : A → bool) l : forallb f l = true → Forall (λ x, f x = true) l.
Proof. intros H. apply Forall_forall. intros x Hx. apply (proj1 (forallb_forall _ _) H), list_elem_of_In, Hx. Qed.

Lemma skip_ws_length s : length (skip_ws s) ≤ length s.
Proof. induction s as [|c s IH]; simpl; [lia|]. case_bool_decide; simpl; lia. Qed.

Lemma skip_ws_cons c r : skip_ws (c :: r) = c :: r ∨ length (skip_ws (c :: r)) ≤ length r.
Proof. simpl. case_bool_decide; [right; apply skip_ws_length|by left]. Qed.

Lemma skip_ws_cons_length s c r : skip_ws s = c :: r → length r < length s.
Proof. intros H. pose proof (skip_ws_length s) as L. rewrite H in L. simpl in L. lia. Qed.

Lemma push_length (p : bytes) (o : option (bytes * bytes)) t r n :
  (λ '(t, r), (p ++ t, r)) <$> o = Some (t, r) →
  (∀ t' r', o = Some (t', r') → length r' < n) → length r < n.
Proof. destruct o as [[t' r']|]; simpl; intros H Hn; simplify_eq; eauto. Qed.

(** Case analysis on the hexadecimal escape in a hypothesis, without
    unfolding [decode_hex_escape]. *)
Ltac destruct_hex H :=
  match type of H with
  | context [decode_hex_escape ?a ?b ?c ?d] =>
      destruct (decode_hex_escape a b c d); cbn [mbind option_bind] in H
  end.

Lemma parse_str_length s t r : parse_str s = Some (t, r) → length r < length s.
Proof.
  revert t r. induction s as [s IH] using (induction_ltof1 _ (@length _)).
  unfold ltof in IH. intros t r H.
  destruct s as [|c s]; [done|]. cbn [parse_str] in H.
  repeat (first [case_match | destruct_hex H]; simplify_eq; try done; try (simpl; lia));
    (eapply push_length; [eassumption|]; intros t' r' Ht; apply IH in Ht; simpl in *; lia).
Qed.

Lemma span_digits_app s : (span_digits s).1 ++ (span_digits s).2 = s.
Proof.
  induction s as [|c s IH]; [done|]. simpl.
  destruct (is_ascii_digit c); [|done]. destruct (span_digits s). simpl in *. by f_equal.
Qed.

Lemma span_digits_length s : length (span_digits s).2 ≤ length s.
Proof. rewrite <-(span_digits_app s) at 2. rewrite length_app. lia. Qed.

Lemma parse_number_length s v r : parse_number s = Some (v, r) → length r < length s.
Proof.
  unfold parse_number. intros H.
  repeat (case_match; simplify_eq/=; try done);
    repeat match goal with
    | H : span_digits ?x = (_, _) |- _ =>
        let L := fresh in pose proof (span_digits_length x) as L; rewrite H in L; simpl in L; clear H
    end; simpl in *; rewrite ?length_app in *; simpl in *; lia.
Qed.

(** Inversion of the option steps of the parser: [<$>], [≫=] and the
    tests on the input, one at a time. *)
Ltac parse_inv :=
  repeat first
    [ progress simplify_eq
    | match goal with
      | H : _ <$> _ = Some _ |- _ => apply fmap_Some in H as ([? ?] & ? & ?)
      | H : _ ≫= _ = Some _ |- _ => apply bind_Some in H as ([? ?] & ? & ?)
      | H : context [match (?a, ?b) with (_, _) => _ end] |- _ => cbn beta iota in H
      end
    | case_match ].

Lemma parse_length fuel :
  (∀ d s v r, parse_value fuel d s = Some (v, r) → length r < length s) ∧
  (∀ d s vs r, parse_seq fuel d s = Some (vs, r) → length r < length s) ∧
  (∀ d s ms r, parse_map fuel d s = Some (ms, r) → length r < length s).
Proof.
  induction fuel as [|fuel (IHv & IHs & IHm)]; [split_and!; done|].
  split_and!.
  - intros d s v r H. cbn [parse_value] in H.
    destruct (skip_ws s) as [|c r0] eqn:Hs; [done|]. apply skip_ws_cons_length in Hs.
    parse_inv; rewrite ?length_drop;
      repeat match goal with
      | H : parse_str _ = Some _ |- _ => apply parse_str_length in H
      | H : parse_number _ = Some _ |- _ => apply parse_number_length in H
      | H : parse_seq _ _ _ = Some _ |- _ => apply IHs in H
      | H : parse_map _ _ _ = Some _ |- _ => apply IHm in H
      | H : skip_ws _ = _ :: _ |- _ => apply skip_ws_cons_length in H
      end; simpl in *; lia.
  - intros d s vs r H. cbn [parse_seq] in H. parse_inv;
      repeat match goal with
      | H : parse_value _ _ _ = Some _ |- _ => apply IHv in H
      | H : parse_seq _ _ _ = Some _ |- _ => apply IHs in H
      | H : skip_ws _ = _ :: _ |- _ => apply skip_ws_cons_length in H
      end; lia.
  - intros d s ms r H. cbn [parse_map] in H. parse_inv;
      repeat match goal with
      | H : parse_str _ = Some _ |- _ => apply parse_str_length in H
      | H : parse_value _ _ _ = Some _ |- _ => apply IHv in H
      | H : parse_map _ _ _ = Some _ |- _ => apply IHm in H
      | H : skip_ws _ = _ :: _ |- _ => apply skip_ws_cons_length in H
      end; lia.
Qed.

Lemma parse_value_length fuel d s v r : parse_value fuel d s = Some (v, r) → length r < length s.
Proof. apply parse_length. Qed.

Lemma parse_map_length fuel d s ms r : parse_map fuel d s = Some (ms, r) → length r < length s.
Proof. apply parse_length. Qed.

(** ** Fuel *)

(** Above [2 * length s] the fuel changes nothing: every call of
    [parse_value] inside an array or object comes after at least one
    byte of the text. *)
Lemma parse_fuel f :
  (∀ d s, 2 * length s < f → ∀ f', f ≤ f' → parse_value f' d s = parse_value f d s) ∧
  (∀ d s, 2 * length s + 1 < f → ∀ f', f ≤ f' → parse_seq f' d s = parse_seq f d s) ∧
  (∀ d s, 2 * length s + 1 < f → ∀ f', f ≤ f' → parse_map f' d s = parse_map f d s).
Proof.
  induction f as [|g (IHv & IHs & IHm)]; [split_and!; intros; lia|].
  split_and!; intros d s Hl [|g'] Hg; try lia.
  - cbn [parse_value]. destruct (skip_ws s) as [|c r0] eqn:Hs; [done|].
    apply skip_ws_cons_length in Hs. repeat case_match; try done.
    + rewrite (IHs _ r0) by lia. done.
    + rewrite (IHm _ r0) by lia. done.
  - cbn [parse_seq]. rewrite (IHv d s) by lia.
    destruct (parse_value g d s) as [[v r]|] eqn:E; [|done]. simpl.
    apply parse_value_length in E.
    destruct (skip_ws r) as [|c r'] eqn:Hr; [done|]. apply skip_ws_cons_length in Hr.
    repeat case_match; try done. rewrite (IHs d r') by lia. done.
  - cbn [parse_map]. destruct (skip_ws s) as [|c r0] eqn:Hs; [done|].
    apply skip_ws_cons_length in Hs. case_match; [|done].
    destruct (parse_str r0) as [[k r1]|] eqn:E1; [|done]. simpl. apply parse_str_length in E1.
    destruct (skip_ws r1) as [|c1 r2] eqn:Hr1; [done|]. apply skip_ws_cons_length in Hr1.
    case_match; [|done]. rewrite (IHv d r2) by lia.
    destruct (parse_value g d r2) as [[v r3]|] eqn:E3; [|done]. simpl.
    apply parse_value_length in E3.
    destruct (skip_ws r3) as [|c3 r4] eqn:Hr3; [done|]. apply skip_ws_cons_length in Hr3.
    repeat case_match; try done. rewrite (IHm d r4) by lia. done.
Qed.

(** More fuel never undoes a result. *)
Lemma parse_mono f :
  (∀ d s x, parse_value f d s = Some x → ∀ f', f ≤ f' → parse_value f' d s = Some x) ∧
  (∀ d s x, parse_seq f d s = Some x → ∀ f', f ≤ f' → parse_seq f' d s = Some x) ∧
  (∀ d s x, parse_map f d s = Some x → ∀ f', f ≤ f' → parse_map f' d s = Some x).
Proof.
  induction f as [|g (IHv & IHs & IHm)]; [split_and!; done|].
  split_and!; intros d s x H [|g'] Hg; try lia.
  - cbn [parse_value] in H |- *. destruct (skip_ws s) as [|c r0]; [done|].
    repeat case_match; try done.
    + apply fmap_Some in H as (y & Hy & ->). by rewrite (IHs _ _ _ Hy g') by lia.
    + apply fmap_Some in H as (y & Hy & ->). by rewrite (IHm _ _ _ Hy g') by lia.
  - cbn [parse_seq] in H |- *. apply bind_Some in H as ([v r] & Hv & H).
    rewrite (IHv _ _ _ Hv g') by lia. simpl in H |- *.
    destruct (skip_ws r) as [|c r']; [done|]. repeat case_match; try done.
    apply fmap_Some in H as (y & Hy & ->). by rewrite (IHs _ _ _ Hy g') by lia.
  - cbn [parse_map] in H |- *. destruct (skip_ws s) as [|c r0]; [done|].
    case_match; [|done]. apply bind_Some in H as ([k r1] & Hk & H). rewrite Hk. simpl in H |- *.
    destruct (skip_ws r1) as [|c1 r2]; [done|]. case_match; [|done].
    apply bind_Some in H as ([v r3] & Hv & H). rewrite (IHv _ _ _ Hv g') by lia.
    simpl in H |- *. destruct (skip_ws r3) as [|c3 r4]; [done|]. repeat case_match; try done.
    apply fmap_Some in H as (y & Hy & ->). by rewrite (IHm _ _ _ Hy g') by lia.
Qed.

(** [from_str] is the parser with unbounded fuel: a value found with
    any fuel is the one [from_str] finds, and its fuel is never the
    reason it fails. *)
Lemma from_str_fuel s fuel v r :
  parse_value fuel 128 s = Some (v, r) → parse_value (S (2 * length s)) 128 s = Some (v, r).
Proof.
  intros H. destruct (decide (fuel ≤ S (2 * length s))).
  - by apply (proj1 (parse_mono fuel) _ _ _ H).
  - rewrite <-H. symmetry. apply (proj1 (parse_fuel _)); lia.
Qed.

(** ** Round trip of the printer *)

Lemma parse_str_escape c x :
  parse_str (escape_byte c ++ x) = (λ '(t, r), (c :: t, r)) <$> parse_str x.
Proof.
  destruct (decide (nat_of_ascii c < 32)) as [Hc|Hc].
  - rewrite <-(ascii_nat_embedding c). remember (nat_of_ascii c) as n eqn:En. clear En.
    do 32 (destruct n as [|n]; [reflexivity|]). lia.
  - destruct (decide (c = "034"%char)) as [->|Hq]; [reflexivity|].
    destruct (decide (c = "092"%char)) as [->|Hb]; [reflexivity|].
    assert (escape_byte c = [c]) as ->.
    { unfold escape_byte.
      repeat (case_bool_decide; [subst; first [done|exfalso; apply Hc, Nat.ltb_lt; reflexivity]|]).
      destruct (Nat.ltb_spec (nat_of_ascii c) 32); [lia|done]. }
    cbn [app parse_str]. rewrite !bool_decide_eq_false_2 by done.
    destruct (Nat.ltb_spec (nat_of_ascii c) 32); [lia|done].
Qed.

Lemma parse_str_print s rest : parse_str (flat_map escape_byte s ++ "034"%char :: rest) = Some (s, rest).
Proof.
  induction s as [|c s IH]; [reflexivity|].
  cbn [flat_map]. by rewrite <-app_assoc, parse_str_escape, IH.
Qed.

Lemma span_digits_stop s c rest :
  is_ascii_digit c = false →
  span_digits (s ++ c :: rest) = let '(d, r) := span_digits s in (d, r ++ c :: rest).
Proof.
  intros Hc. induction s as [|d s IH]; simpl; [by rewrite Hc|].
  destruct (is_ascii_digit d); [|done]. rewrite IH. by destruct (span_digits s).
Qed.

(** A number ends at a separator: what follows it is left untouched. *)
Lemma parse_number_stop s c rest :
  c = ","%char ∨ c = "]"%char ∨ c = "}"%char →
  parse_number (s ++ c :: rest) = (λ '(v, t), (v, t ++ c :: rest)) <$> parse_number s.
Proof.
  intros Hc. assert (Hd : is_ascii_digit c = false) by (destruct Hc as [->|[->| ->]]; reflexivity).
  unfold parse_number.
  destruct Hc as [->|[->| ->]];
  repeat first
    [ rewrite span_digits_stop by done
    | progress subst
    | progress simpl
    | match goal with
      | |- context [match ?x with _ => _ end] =>
          lazymatch x with
          | _ ++ _ => fail
          | context [match _ with _ => _ end] => fail
          | _ => destruct x eqn:?
          end
      end ]; done.
Qed.

(** The cases of [c ∈ l] for a literal list [l], each closed by [tac]. *)
Ltac char_cases H tac :=
  repeat (apply elem_of_cons in H as [->|H]; [tac|]); by apply not_elem_of_nil in H.

Lemma starts_value_not c :
  starts_value c → ¬ (c = " "%char ∨ c = "009"%char ∨ c = "010"%char ∨ c = "013"%char) ∧
                   c ≠ "]"%char ∧ c ≠ "}"%char ∧ c ≠ ","%char.
Proof.
  intros [H|H].
  - char_cases H ltac:(split_and!; [intros [?|[?|[?|?]]]|..]; discriminate).
  - split_and!; [intros [->|[->|[->| ->]]]|intros ->|intros ->|intros ->];
      vm_compute in H; discriminate H.
Qed.

Lemma starts_value_ws c t : starts_value c → skip_ws (c :: t) = c :: t.
Proof. intros H. simpl. rewrite bool_decide_eq_false_2; [done|]. apply starts_value_not, H. Qed.

Lemma number_text_parse r : number_text r = true → parse_number r = Some (JNumber r, []).
Proof.
  unfold number_text. destruct (parse_number r) as [[[] []]|]; try done.
  intros H. apply bool_decide_eq_true in H. by subst.
Qed.

Lemma number_text_head r :
  number_text r = true → ∃ c t, r = c :: t ∧ (c = "-"%char ∨ is_ascii_digit c = true).
Proof.
  intros H. apply number_text_parse in H. destruct r as [|c t]; [done|].
  exists c, t. split; [done|]. unfold parse_number in H.
  case_bool_decide; [by left|right]. cbn beta iota zeta in H.
  destruct (is_ascii_digit c) eqn:Hd; [done|].
  case_bool_decide; [by subst|done].
Qed.

Lemma print_head v : json_wf v = true → ∃ c t, json_print v = c :: t ∧ starts_value c.
Proof.
  intros Hv. unfold starts_value.
  destruct v as [|[]|r|s|vs|ms]; simpl in Hv |- *;
    try (eexists _, _; split; [reflexivity|left; by repeat constructor]).
  destruct (number_text_head r Hv) as (c & t & -> & [->|Hc]); eexists _, _;
    (split; [reflexivity|]); [left; by repeat constructor|by right].
Qed.

(** Inserting a key above every key of the map appends it. *)
Lemma map_insert_last k v m :
  Forall (λ kv, key_lt kv.1 k = true) m → map_insert k v m = m ++ [(k, v)].
Proof.
  induction 1 as [|[k' v'] m Hk _ IH]; [done|]. simpl in *.
  unfold key_lt in Hk. apply bool_decide_eq_true in Hk.
  by rewrite String.compare_antisym, Hk, IH.
Qed.

(** Inserting the entries of a sorted map one by one, as [visit_map]
    does, rebuilds that map. *)
Lemma foldl_map_insert_sorted acc ms :
  Forall (λ a, Forall (λ b, key_lt a.1 b.1 = true) ms) acc → keys_sorted ms = true →
  foldl (λ m kv, map_insert kv.1 kv.2 m) acc ms = acc ++ ms.
Proof.
  revert acc. induction ms as [|[k v] ms IH]; intros acc Hacc Hs; simpl; [by rewrite app_nil_r|].
  simpl in Hs. apply andb_true_iff in Hs as [Hk Hs].
  rewrite map_insert_last.
  2:{ eapply Forall_impl; [apply Hacc|]. intros a Ha. by apply Forall_inv in Ha. }
  rewrite IH, <-app_assoc; [done| |done].
  apply Forall_app; split.
  - eapply Forall_impl; [apply Hacc|]. intros a Ha. by apply Forall_inv_tail in Ha.
  - apply Forall_singleton. by apply forallb_Forall_true in Hk.
Qed.

Lemma foldr_max_lt {A} (f : A → nat) l n : foldr max 0 (map f l) < n → Forall (λ x, f x < n) l.
Proof. induction l as [|x l IH]; simpl; intros H; constructor; [lia|apply IH; lia]. Qed.

Lemma join_comma_cons x l : l ≠ [] → join_comma (x :: l) = x ++ ","%char :: join_comma l.
Proof. by destruct l. Qed.

Lemma join_comma_head x l : ∃ z, join_comma (x :: l) = x ++ z.
Proof. destruct l; [exists []; by rewrite app_nil_r|by eexists]. Qed.

Lemma print_ws v w :
  json_wf v = true →
  ∃ c t, json_print v ++ w = c :: t ∧ skip_ws (json_print v ++ w) = c :: t ∧ starts_value c.
Proof.
  intros Hv. destruct (print_head v Hv) as (c & t & Ht & Hc). rewrite Ht.
  exists c, (t ++ w). split_and!; [done|by apply starts_value_ws|done].
Qed.

Lemma quote_starts : starts_value "034"%char.
Proof. left. by constructor. Qed.

Ltac len_lia :=
  repeat match goal with H : ∀ _, _ |- _ => clear H end;
  subst; repeat first [rewrite length_app in * | progress (cbn [length fst snd] in * )]; lia.

(** The side conditions of [prints_back] inside a printed text: the
    depth, the fuel and what follows the value. *)
Ltac print_side :=
  first [ assumption
        | progress (cbn [stop]); by (left + (right; left) + (right; right))
        | len_lia ].

Lemma parse_seq_print vs fuel d rest :
  Forall prints_back vs → vs ≠ [] → Forall (λ v, json_depth v < d) vs →
  2 * length (join_comma (map json_print vs) ++ "]"%char :: rest) + 1 < fuel →
  parse_seq fuel d (join_comma (map json_print vs) ++ "]"%char :: rest) = Some (vs, rest).
Proof.
  intros Hp. revert fuel. induction Hp as [|v vs Hv Hvs IH]; intros fuel Hne Hd Hf; [done|].
  destruct fuel as [|g]; [lia|]. apply Forall_cons in Hd as [Hdv Hd]. cbn [parse_seq].
  destruct vs as [|v2 vs'].
  - cbn [map join_comma] in *. rewrite Hv by print_side. done.
  - change (map json_print (v :: v2 :: vs')) with (json_print v :: map json_print (v2 :: vs')) in *.
    rewrite join_comma_cons, <-app_assoc in * by done. cbn [app] in *.
    remember (join_comma (map json_print (v2 :: vs')) ++ "]"%char :: rest) as Y eqn:EY.
    rewrite Hv by print_side. simpl. subst Y.
    rewrite IH by (done || len_lia). done.
Qed.

Lemma parse_map_print ms fuel d rest :
  Forall (λ kv, prints_back kv.2) ms → ms ≠ [] → Forall (λ kv, json_depth kv.2 < d) ms →
  2 * length (join_comma (map print_member ms) ++ "}"%char :: rest) + 1 < fuel →
  parse_map fuel d (join_comma (map print_member ms) ++ "}"%char :: rest) = Some (ms, rest).
Proof.
  intros Hp. revert fuel. induction Hp as [|[k v] ms Hv Hms IH]; intros fuel Hne Hd Hf; [done|].
  destruct fuel as [|g]; [lia|]. apply Forall_cons in Hd as [Hdv Hd].
  cbn [fst snd] in Hv, Hdv.
  destruct ms as [|kv2 ms'].
  - cbn [map join_comma] in *. unfold print_member in *. cbn [fst snd] in *.
    unfold print_str. cbn [app]. rewrite <-!app_assoc. cbn [app].
    cbn [parse_map]. rewrite starts_value_ws by apply quote_starts.
    rewrite bool_decide_eq_true_2 by done. rewrite parse_str_print. simpl.
    rewrite Hv by print_side. done.
  - change (map print_member ((k, v) :: kv2 :: ms'))
      with (print_member (k, v) :: map print_member (kv2 :: ms')) in *.
    rewrite join_comma_cons in * by done. unfold print_member at 1 in Hf. unfold print_member at 1.
    unfold print_str. cbn [fst snd app] in *. rewrite <-!app_assoc. cbn [app].
    remember (join_comma (map print_member (kv2 :: ms')) ++ "}"%char :: rest) as Y eqn:EY.
    cbn [parse_map]. rewrite starts_value_ws by apply quote_starts.
    rewrite bool_decide_eq_true_2 by done. rewrite parse_str_print. simpl.
    rewrite Hv by print_side. simpl. subst Y.
    rewrite IH by (done || len_lia). done.
Qed.

Lemma parse_value_number fuel d c t :
  c = "-"%char ∨ is_ascii_digit c = true → parse_value (S fuel) d (c :: t) = parse_number (c :: t).
Proof.
  intros Hc. cbn [parse_value].
  rewrite starts_value_ws by (destruct Hc as [->|Hc]; [left; by repeat constructor|by right]).
  destruct Hc as [->|Hc]; [reflexivity|].
  rewrite !(bool_decide_eq_false_2 (c = _)) by (intros ->; vm_compute in Hc; discriminate Hc).
  by rewrite Hc, orb_true_r.
Qed.

Lemma wf_forall_prints_back {A} (f : A → json) (l : list A) :
  Forall (λ x, json_wf (f x) = true → prints_back (f x)) l →
  forallb (λ x, json_wf (f x)) l = true → Forall (λ x, prints_back (f x)) l.
Proof.
  intros HP Hw. apply forallb_Forall_true in Hw.
  eapply Forall_impl; [apply Forall_and; split; [exact HP|exact Hw]|]. intros x [Hx Hwx]. auto.
Qed.

(** Every well-formed value is read back from its printed text, in
    every context it can be printed in. *)
Lemma json_print_prints_back v : json_wf v = true → prints_back v.
Proof.
  induction v as [| b | r | s | vs IH | ms IH] using json_nested_ind;
    intros Hwf fuel d rest Hd Hf Hs; (destruct fuel as [|g]; [lia|]).
  - reflexivity.
  - by destruct b.
  - cbn [json_print] in *. destruct (number_text_head r Hwf) as (c & t & -> & Hc).
    cbn [app]. rewrite parse_value_number by done.
    apply number_text_parse in Hwf. destruct rest as [|c' rest].
    + by rewrite app_nil_r.
    + change (c :: t ++ c' :: rest) with ((c :: t) ++ c' :: rest).
      by rewrite parse_number_stop, Hwf.
  - cbn [json_print]. unfold print_str. cbn [app]. rewrite <-app_assoc. cbn [app].
    cbn [parse_value]. rewrite starts_value_ws by apply quote_starts.
    rewrite parse_str_print. reflexivity.
  - change (json_print (JArray vs)) with ("["%char :: join_comma (map json_print vs) ++ ["]"%char]) in *.
    cbn [app]. rewrite <-app_assoc. cbn [app].
    remember (join_comma (map json_print vs) ++ "]"%char :: rest) as X eqn:EX.
    cbn [parse_value]. rewrite starts_value_ws by (left; by repeat constructor). simpl.
    cbn [json_depth] in Hd. rewrite (proj2 (Nat.eqb_neq (d - 1) 0)) by lia.
    destruct vs as [|v vs']; [by subst X|].
    cbn [json_wf] in Hwf. pose proof Hwf as Hw. simpl in Hw. apply andb_true_iff in Hw as [Hwv _].
    destruct (join_comma_head (json_print v) (map json_print vs')) as [z Hz].
    destruct (print_ws v (z ++ "]"%char :: rest) Hwv) as (c & t & Ht & Hsk & Hc).
    assert (skip_ws X = c :: t) as ->.
    { subst X. change (map json_print (v :: vs')) with (json_print v :: map json_print vs').
      by rewrite Hz, <-app_assoc. }
    rewrite bool_decide_eq_false_2 by (apply starts_value_not in Hc; tauto).
    subst X. rewrite parse_seq_print; [done| |done| |len_lia].
    + by apply (wf_forall_prints_back id).
    + apply foldr_max_lt. lia.
  - change (json_print (JObject ms)) with ("{"%char :: join_comma (map print_member ms) ++ ["}"%char]) in *.
    cbn [app]. rewrite <-app_assoc. cbn [app].
    remember (join_comma (map print_member ms) ++ "}"%char :: rest) as X eqn:EX.
    cbn [parse_value]. rewrite starts_value_ws by (left; by repeat constructor). simpl.
    cbn [json_depth] in Hd. rewrite (proj2 (Nat.eqb_neq (d - 1) 0)) by lia.
    destruct ms as [|[k v] ms']; [by subst X|].
    cbn [json_wf] in Hwf. apply andb_true_iff in Hwf as [Hsorted Hwf].
    destruct (join_comma_head (print_member (k, v)) (map print_member ms')) as [z Hz].
    assert (skip_ws X = "034"%char :: (flat_map escape_byte k ++ "034"%char :: ":"%char ::
                                        json_print v ++ z ++ "}"%char :: rest)) as ->.
    { subst X. change (map print_member ((k, v) :: ms')) with (print_member (k, v) :: map print_member ms').
      rewrite Hz. unfold print_member, print_str. cbn [fst snd app]. rewrite <-!app_assoc. cbn [app].
      by apply starts_value_ws, quote_starts. }
    rewrite bool_decide_eq_false_2 by done.
    subst X. rewrite parse_map_print; [| |done| |len_lia].
    + simpl in Hsorted |- *. apply andb_true_iff in Hsorted as [Hk Hsorted].
      rewrite (foldl_map_insert_sorted [(k, v)]); [done| |done].
      apply Forall_singleton. by apply forallb_Forall_true.
    + by apply (wf_forall_prints_back snd).
    + apply foldr_max_lt. lia.
Qed.

(** ** The recursion limit *)

(** With [d] levels left, [d] opening brackets exhaust them, whatever
    follows. *)
Lemma parse_value_too_deep d fuel s : 1 ≤ d → parse_value fuel d (repeat "["%char d ++ s) = None.
Proof.
  intros Hd. revert fuel. induction d as [|[|d'] IH]; intros fuel; [lia| |].
  - destruct fuel; [done|]. cbn [parse_value repeat app].
    rewrite starts_value_ws by (left; by repeat constructor). reflexivity.
  - destruct fuel as [|g]; [done|]. cbn [parse_value repeat app].
    rewrite starts_value_ws by (left; by repeat constructor). simpl.
    destruct g as [|g]; [done|]. cbn [parse_seq].
    change ("["%char :: repeat "["%char d' ++ s) with (repeat "["%char (S d') ++ s).
    rewrite IH by lia. done.
Qed.

Lemma from_str_too_deep s : from_str (repeat "["%char 128 ++ s) = None.
Proof. unfold from_str. by rewrite parse_value_too_deep by lia. Qed.

(** A body [from_str] rejects ends the iteration at line 76. *)
Lemma process_branch_parse_error {P : Platform} server req b body :
  http_get (issue_url server b) = Body body → from_str body = None →
  process_branch (P := with_serde P) server req b =
    (RErr JsonParseError, [Request (issue_url server b)]).
Proof.
  intros Hb Hj. unfold process_branch, fetch. mred. cbn [http_get parse_json with_serde].
  rewrite Hb. cbn [fst snd]. rewrite Hj. reflexivity.
Qed.

(** ** Claims *)

(** C36 (from_str reads back what serde_json writes): every value
    [from_str] can produce (number texts of the grammar, objects whose
    keys are strictly sorted as in a [BTreeMap]) nested at most 127
    levels deep is returned by [from_str] from its compact text: strings
    of any bytes (quotes, backslashes and control characters escaped),
    arrays, and objects rebuilt by the map insertions of [visit_map].
    This is the parser line 76 calls ([with_serde]). *)
Theorem from_str_print {P : Platform} v :
  json_wf v = true → json_depth v ≤ 127 → @parse_json (with_serde P) (json_print v) = Some v.
Proof.
  intros Hw Hd. cbn [parse_json with_serde]. unfold from_str.
  pose proof (json_print_prints_back v Hw (S (2 * length (json_print v))) 128 []) as H.
  rewrite app_nil_r in H. rewrite H; [done|lia|lia|done].
Qed.

Lemma from_str_print_witness :
  let summary := ⟪"Fix "⟫ ++ ["034"%char] ++ ⟪"login"⟫ ++ ["034"%char; "010"%char] in
  let v := JObject [(⟪"fields"⟫, JObject [(⟪"labels"⟫, JArray [JString ⟪"ui"⟫; JNull; JBool true]);
                                         (⟪"status"⟫, JObject [(⟪"name"⟫, JString ⟪"Done"⟫)]);
                                         (⟪"summary"⟫, JString summary)]);
                    (⟪"id"⟫, JNumber ⟪"-12.5e3"⟫)] in
  json_wf v = true ∧ json_depth v ≤ 127 ∧ @parse_json (with_serde stub) (json_print v) = Some v.
Proof.
  intros summary v. split_and!; [vm_compute; reflexivity|apply Nat.leb_le; vm_compute; reflexivity|].
  apply from_str_print; [vm_compute; reflexivity|apply Nat.leb_le; vm_compute; reflexivity].
Defined.

(** C37 (a response nested 128 levels deep is a parse error): serde_json
    stops at 128 nested arrays ([RecursionLimitExceeded]), whatever
    follows, while 127 levels are read (C36); so when the tracker answers
    with 128 opening brackets, line 76's [?] ends the run with the JSON
    error right after the request, with no output. *)
Theorem process_branch_too_deep {P : Platform} server req b s :
  http_get (issue_url server b) = Body (repeat "["%char 128 ++ s) →
  process_branch (P := with_serde P) server req b =
    (RErr JsonParseError, [Request (issue_url server b)]).
Proof.
  intros Hb. apply (process_branch_parse_error _ _ _ _ Hb), from_str_too_deep.
Qed.

Lemma process_branch_too_deep_witness :
  let W := {| preference_dir := None; config_file := λ _, FileAbsent;
              env_vars := @env_vars stub; git_branch := @git_branch stub;
              client_builds := true; http_get := λ _, Body (repeat "["%char 128 ++ repeat "]"%char 128);
              parse_json := @parse_json stub; colors_enabled := false |} in
  process_branch (P := with_serde W) stub_server None ⟪"ABC-12"⟫ =
    (RErr JsonParseError, [Request (issue_url stub_server ⟪"ABC-12"⟫)]).
Proof. intros W. apply (process_branch_too_deep (P := W) _ _ _ (repeat "]"%char 128)). reflexivity. Defined.
